(** * One-electron AO integrals and orthonormalisation transforms (ChronusQ)

    A shallow embedding of
      - [src/aointegrals/aointegrals_builders.cxx]
          ([AOIntegrals::OneEDriver], [AOIntegrals::computeAOOneE],
           [AOIntegrals::computeOrtho]) and
      - [include/cqlinalg/factorization.hpp]
          (the kernel interface and the allocating [LU] overload) and
      - [include/singleslater/hartreefock.hpp]
          (the [HartreeFock] constructors).

    Conventions of the embedding.
      - A C++ [double] is a real number ([R]): all arithmetic is exact.
      - A [double*] / [int*] is the address of a heap block; the heap maps
        live addresses to their contents, so aliasing and allocation are
        explicit.  An access the C++ program may not perform (dangling or
        out-of-range pointer, dereferencing [end()]) makes the computation
        fault ([None]).
      - [size_t] and [int] quantities are natural numbers; they are assumed
        to stay in the range of their machine type.
      - Matrices are stored column-major: entry (i,j) of an [n]-row matrix
        lives at offset [i + j*n]. *)

From Stdlib Require Import Reals Lra Lia ZArith List Permutation Ascii.
From Stdlib Require Import ClassicalEpsilon.
From stdpp Require Import gmap list strings.

Local Open Scope nat_scope.

(** ** Memory *)

Abbreviation loc := positive.

Inductive block : Type :=
| DBlock (d : list R)
| IBlock (z : list Z).

Abbreviation heap := (gmap positive block).

(** Computations thread the heap and may fault. *)
Definition comp (A : Type) : Type := heap -> option (A * heap).

Definition ret {A} (a : A) : comp A := fun h => Some (a, h).

Definition bind {A B} (c : comp A) (k : A -> comp B) : comp B :=
  fun h => match c h with
           | Some (a, h') => k a h'
           | None => None
           end.

Definition fault {A} : comp A := fun _ => None.

Declare Scope comp_scope.
Delimit Scope comp_scope with comp.
Notation "x <- c ;; k" := (bind c (fun x => k))
  (at level 100, c at next level, right associativity) : comp_scope.
Notation "c ;;; k" := (bind c (fun _ => k))
  (at level 100, right associativity) : comp_scope.
Local Open Scope comp_scope.

(** [for (k : l) body] *)
Fixpoint for_list {K} (l : list K) (body : K -> comp unit) : comp unit :=
  match l with
  | [] => ret tt
  | k :: l' => body k ;;; for_list l' body
  end.

(** [for (i = lo; i < hi; i++) body] *)
Definition for_range (lo hi : nat) (body : nat -> comp unit) : comp unit :=
  for_list (seq lo (hi - lo)) body.

Definition load (p : loc) (i : nat) : comp R :=
  fun h => match h !! p with
           | Some (DBlock d) =>
               match d !! i with
               | Some x => Some (x, h)
               | None => None
               end
           | _ => None
           end.

Definition store (p : loc) (i : nat) (x : R) : comp unit :=
  fun h => match h !! p with
           | Some (DBlock d) =>
               if decide (i < length d)
               then Some (tt, <[p := DBlock (<[i := x]> d)]> h)
               else None
           | _ => None
           end.

(** [std::fill_n(p, n, x)] *)
Definition fill_n (p : loc) (n : nat) (x : R) : comp unit :=
  for_range 0 n (fun i => store p i x).

(** [std::copy_n(src, n, dst)] *)
Definition copy_n (src : loc) (n : nat) (dst : loc) : comp unit :=
  for_range 0 n (fun i => x <- load src i ;; store dst i x).

(** Lifting of a pure partial result. *)
Definition lift {A} (o : option A) : comp A :=
  fun h => match o with Some a => Some (a, h) | None => None end.

(** *** The allocator

    Modelled from the spec: [CQMemManager] is not part of the sources at
    hand; it is "an allocator service exposing allocate<T>(count) /
    release(ptr...)".  [malloc] hands out a block at an address that is not
    live; its contents are not initialised, hence arbitrary ([uninit]).
    [free] releases a live block; releasing anything else faults. *)
Class Allocator : Type := {
  uninit : loc -> nat -> R;
  uninitZ : loc -> nat -> Z
}.

Definition malloc_double `{Allocator} (n : nat) : comp loc :=
  fun h => let p := fresh (dom h) in
           Some (p, <[p := DBlock (map (uninit p) (seq 0 n))]> h).

Definition malloc_int `{Allocator} (n : nat) : comp loc :=
  fun h => let p := fresh (dom h) in
           Some (p, <[p := IBlock (map (uninitZ p) (seq 0 n))]> h).

Definition free (p : loc) : comp unit :=
  fun h => match h !! p with
           | Some _ => Some (tt, delete p h)
           | None => None
           end.

(** ** Dense kernels *)

(** [sum_{k < n} f k], accumulated in increasing [k]. *)
Fixpoint Rsum (n : nat) (f : nat -> R) : R :=
  match n with
  | 0 => 0%R
  | S k => (Rsum k f + f k)%R
  end.

(** The contents of a buffer seen through its base pointer. *)
Definition content (d : list R) : nat -> R := fun i => nth i d 0%R.

(** A buffer of the same extent holding [f]. *)
Definition refill (d : list R) (f : nat -> R) : list R :=
  map f (seq 0 (length d)).

Definition is_char (c x : ascii) : bool := bool_decide (c = x).

(** *** BLAS [Gemm]

    Not part of the sources at hand; modelled after the reference BLAS
    [DGEMM]:  C := alpha * op(A) * op(B) + beta * C  with  op(X) = X  for
    ["N"]  and  op(X) = X^T  otherwise, on column-major storage. *)
Definition gemm_opA (TRANSA : ascii) (a : list R) (LDA : nat) (i l : nat) : R :=
  if is_char TRANSA "N" then content a (i + l * LDA)
  else content a (l + i * LDA).

Definition gemm_opB (TRANSB : ascii) (b : list R) (LDB : nat) (l j : nat) : R :=
  if is_char TRANSB "N" then content b (l + j * LDB)
  else content b (j + l * LDB).

Definition gemm_entry (TRANSA TRANSB : ascii) (K : nat) (ALPHA : R)
    (a : list R) (LDA : nat) (b : list R) (LDB : nat) (BETA : R)
    (c : list R) (LDC : nat) (i j : nat) : R :=
  (ALPHA * Rsum K (fun l => gemm_opA TRANSA a LDA i l * gemm_opB TRANSB b LDB l j)
   + BETA * content c (i + j * LDC))%R.

Definition gemm_list (TRANSA TRANSB : ascii) (M N K : nat) (ALPHA : R)
    (a : list R) (LDA : nat) (b : list R) (LDB : nat) (BETA : R)
    (c : list R) (LDC : nat) : list R :=
  fold_left (fun acc j =>
    fold_left (fun acc' i =>
      <[i + j * LDC := gemm_entry TRANSA TRANSB K ALPHA a LDA b LDB BETA c LDC i j]> acc')
      (seq 0 M) acc)
    (seq 0 N) c.

(** Extents the operands must have. *)
Definition gemm_fits (TRANSA TRANSB : ascii) (M N K : nat)
    (a : list R) (LDA : nat) (b : list R) (LDB : nat)
    (c : list R) (LDC : nat) : bool :=
  let nrowa := if is_char TRANSA "N" then M else K in
  let ncola := if is_char TRANSA "N" then K else M in
  let nrowb := if is_char TRANSB "N" then K else N in
  let ncolb := if is_char TRANSB "N" then N else K in
  bool_decide (nrowa <= LDA /\ LDA * ncola <= length a /\
               nrowb <= LDB /\ LDB * ncolb <= length b /\
               M <= LDC /\ LDC * N <= length c).

Definition Gemm (TRANSA TRANSB : ascii) (M N K : nat) (ALPHA : R)
    (A : loc) (LDA : nat) (B : loc) (LDB : nat) (BETA : R)
    (C : loc) (LDC : nat) : comp unit :=
  fun h => match h !! A, h !! B, h !! C with
           | Some (DBlock a), Some (DBlock b), Some (DBlock c) =>
               if gemm_fits TRANSA TRANSB M N K a LDA b LDB c LDC
               then Some (tt, <[C := DBlock (gemm_list TRANSA TRANSB M N K ALPHA
                                               a LDA b LDB BETA c LDC)]> h)
               else None
           | _, _, _ => None
           end.

(** *** The factorisation kernels of [cqlinalg/factorization.hpp]

    The header declares [Cholesky], [CholeskyInv], [LU] and (elsewhere)
    [HermetianEigen] as wrappers of LAPACK's xPOTRF, xPOTRI, xGETRF and
    xSYEV; their bodies are not part of the sources at hand.  A kernel is
    therefore a parameter: it maps the contents of the buffer it is handed
    to a status [INFO] and the new contents.  A wrapper hands its
    arguments on to the routine, which accesses the [M] by [N] matrix
    [A(LDA,N)] through the pointer: the computation faults when the
    buffer behind the pointer is smaller than that. *)
Class LinAlg : Type := {
  potrf : ascii -> nat -> (nat -> R) -> nat -> Z * (nat -> R);
  potri : ascii -> nat -> (nat -> R) -> nat -> Z * (nat -> R);
  getrf : nat -> nat -> (nat -> R) -> nat -> Z * (nat -> R) * (nat -> Z);
  syev : ascii -> ascii -> nat -> (nat -> R) -> nat ->
         Z * (nat -> R) * (nat -> R)
}.

(** The extent of the matrix argument [A(LDA,N)] with [M] rows: a column
    fits the leading dimension and the buffer holds [N] columns. *)
Definition mat_fits (M N : nat) (a : list R) (LDA : nat) : bool :=
  bool_decide (M <= LDA /\ LDA * N <= length a).

(** The kernels on whole buffers. *)
Definition potrf_list `{LinAlg} (UPLO : ascii) (N : nat) (a : list R) (LDA : nat)
  : Z * list R :=
  let '(info, f) := potrf UPLO N (content a) LDA in (info, refill a f).

Definition potri_list `{LinAlg} (UPLO : ascii) (N : nat) (a : list R) (LDA : nat)
  : Z * list R :=
  let '(info, f) := potri UPLO N (content a) LDA in (info, refill a f).

(** [int Cholesky(char UPLO, int N, _F *A, int LDA)] *)
Definition Cholesky `{LinAlg} (UPLO : ascii) (N : nat) (A : loc) (LDA : nat) : comp Z :=
  fun h => match h !! A with
           | Some (DBlock a) =>
               if mat_fits N N a LDA then
                 let '(info, a') := potrf_list UPLO N a LDA in
                 Some (info, <[A := DBlock a']> h)
               else None
           | _ => None
           end.

(** [int CholeskyInv(char UPLO, int N, _F *A, int LDA)] *)
Definition CholeskyInv `{LinAlg} (UPLO : ascii) (N : nat) (A : loc) (LDA : nat) : comp Z :=
  fun h => match h !! A with
           | Some (DBlock a) =>
               if mat_fits N N a LDA then
                 let '(info, a') := potri_list UPLO N a LDA in
                 Some (info, <[A := DBlock a']> h)
               else None
           | _ => None
           end.

(** [int LU(int M, int N, _F *A, int LDA, int *IPIV)]: the pivot array
    receives [min(M,N)] indices. *)
Definition LU `{LinAlg} (M N : nat) (A : loc) (LDA : nat) (IPIV : loc) : comp Z :=
  fun h => match h !! A, h !! IPIV with
           | Some (DBlock a), Some (IBlock z) =>
               if mat_fits M N a LDA && bool_decide (Nat.min M N <= length z) then
                 let '(info, f, piv) := getrf M N (content a) LDA in
                 Some (info,
                       <[IPIV := IBlock (map piv (seq 0 (Nat.min M N))
                                         ++ drop (Nat.min M N) z)]>
                         (<[A := DBlock (refill a f)]> h))
               else None
           | _, _ => None
           end.

(** [int LU(int M, int N, _F *A, int LDA, CQMemManager &mem)] *)
Definition LU_mem `{Allocator} `{LinAlg} (M N : nat) (A : loc) (LDA : nat) : comp Z :=
  IPIV <- malloc_int (Nat.min M N) ;;
  INFO <- LU M N A LDA IPIV ;;
  free IPIV ;;;
  ret INFO.

(** [HermetianEigen(JOBZ, UPLO, N, A, LDA, W, mem)]: eigenvectors overwrite
    [A], the [N] eigenvalues go to [W]; the work space taken from [mem] is
    returned before the call ends. *)
Definition HermetianEigen `{LinAlg} (JOBZ UPLO : ascii) (N : nat) (A : loc)
    (LDA : nat) (W : loc) : comp Z :=
  fun h => match h !! A, h !! W with
           | Some (DBlock a), Some (DBlock w) =>
               if mat_fits N N a LDA && bool_decide (N <= length w) then
                 let '(info, f, ev) := syev JOBZ UPLO N (content a) LDA in
                 Some (info,
                       <[W := DBlock (map ev (seq 0 N) ++ drop N w)]>
                         (<[A := DBlock (refill a f)]> h))
               else None
           | _, _ => None
           end.

(** ** The integral engine and the basis

    [libint2::Shell], [libint2::Operator] and [libint2::Engine] belong to
    Libint2, not to the sources at hand.  Of a shell the driver reads the
    primitive exponents, the contractions and its size; the engine is a
    parameter. *)
Record Contraction : Type := {
  contr_l : nat;
  contr_pure : bool;
  contr_coeff : list R
}.

Record Shell : Type := {
  Shell_alpha : list R;
  Shell_contr : list Contraction;
  Shell_O : R * R * R
}.

(** [Contraction::size()]: solid harmonics or Cartesian functions. *)
Definition Contraction_size (c : Contraction) : nat :=
  if contr_pure c then 2 * contr_l c + 1
  else (contr_l c + 1) * (contr_l c + 2) / 2.

(** [Shell::size()] *)
Definition Shell_size (sh : Shell) : nat :=
  fold_left (fun n c => n + Contraction_size c) (Shell_contr sh) 0.

Inductive Operator : Type :=
| Operator_emultipole3
| Operator_kinetic
| Operator_nuclear.

Class Libint : Type := {
  Engine : Type;
  (** [Engine(op, max_nprim, max_l, deriv_order)] *)
  Engine_new : Operator -> nat -> nat -> nat -> Engine;
  set_precision : Engine -> R -> Engine;
  set_params : Engine -> list (R * (R * R * R)) -> Engine;
  (** [results().size()] *)
  results_size : Engine -> nat;
  (** [compute(s1, s2)] followed by a look at [results()]: one pointer per
      component, null when the pair was screened; a block is row-major,
      [size(s1)] by [size(s2)]. *)
  compute : Engine -> Shell -> Shell -> list (option (nat -> R))
}.

Record Atom : Type := {
  atomicNumber : nat;
  coord : R * R * R
}.

Record Molecule : Type := {
  atoms : list Atom
}.

Record BasisSet : Type := {
  shells : list Shell;
  nBasis : nat
}.

(** Modelled from the spec: the declaration of the enumeration is not part
    of the sources at hand; the variants are "[LOWDIN] or [CHOLESKY]". *)
Inductive ORTHO_TYPE : Type :=
| LOWDIN
| CHOLESKY.

(** The members of [AOIntegrals] the builders touch ([memManager_] is the
    heap the computations thread). *)
Record AOIntegrals : Type := {
  basisSet_ : BasisSet;
  molecule_ : Molecule;
  nSQ_ : nat;
  orthoType_ : ORTHO_TYPE;
  overlap : loc;
  kinetic : loc;
  potential : loc;
  ortho1 : loc;
  ortho2 : loc;
  lenElecDipole : list loc;
  lenElecQuadrupole : list loc;
  lenElecOctupole : list loc;
  coreH : list loc
}.

Definition set_ortho (ao : AOIntegrals) (o1 o2 : loc) : AOIntegrals :=
  {| basisSet_ := basisSet_ ao; molecule_ := molecule_ ao; nSQ_ := nSQ_ ao;
     orthoType_ := orthoType_ ao; overlap := overlap ao;
     kinetic := kinetic ao; potential := potential ao;
     ortho1 := o1; ortho2 := o2;
     lenElecDipole := lenElecDipole ao;
     lenElecQuadrupole := lenElecQuadrupole ao;
     lenElecOctupole := lenElecOctupole ao; coreH := coreH ao |}.

Definition set_orthoType (ao : AOIntegrals) (t : ORTHO_TYPE) : AOIntegrals :=
  {| basisSet_ := basisSet_ ao; molecule_ := molecule_ ao; nSQ_ := nSQ_ ao;
     orthoType_ := t; overlap := overlap ao;
     kinetic := kinetic ao; potential := potential ao;
     ortho1 := ortho1 ao; ortho2 := ortho2 ao;
     lenElecDipole := lenElecDipole ao;
     lenElecQuadrupole := lenElecQuadrupole ao;
     lenElecOctupole := lenElecOctupole ao; coreH := coreH ao |}.

Definition set_oneE (ao : AOIntegrals) (ov : loc) (dip quad oct : list loc)
    (kin pot : loc) (cH : list loc) : AOIntegrals :=
  {| basisSet_ := basisSet_ ao; molecule_ := molecule_ ao; nSQ_ := nSQ_ ao;
     orthoType_ := orthoType_ ao; overlap := ov;
     kinetic := kin; potential := pot;
     ortho1 := ortho1 ao; ortho2 := ortho2 ao;
     lenElecDipole := dip; lenElecQuadrupole := quad;
     lenElecOctupole := oct; coreH := cH |}.

(** ** [AOIntegrals::computeOrtho] *)

(** The [LOWDIN] branch; [SCR1] holds a copy of the overlap. *)
Definition computeOrtho_lowdin `{Allocator} `{LinAlg} (ao : AOIntegrals) (SCR1 : loc)
  : comp unit :=
  let nB := nBasis (basisSet_ ao) in
  sE <- malloc_double nB ;;
  SCR2 <- malloc_double (nSQ_ ao) ;;
  (* Diagonalize the overlap in scratch S = V * s * V**T *)
  _ <- HermetianEigen "V" "U" nB SCR1 nB sE ;;
  (* Compute X = V * s^{-1/2} *)
  for_range 0 nB (fun j =>
    for_range 0 nB (fun i =>
      v <- load SCR1 (i + j * nB) ;;
      s <- load sE j ;;
      store SCR2 (i + j * nB) (v / sqrt s)%R)) ;;;
  (* Compute O1 = X * V**T *)
  Gemm "N" "T" nB nB nB 1%R SCR2 nB SCR1 nB 0%R (ortho1 ao) nB ;;;
  (* Compute X = V * s^{1/2} in place (by multiplying by s) *)
  for_range 0 nB (fun j =>
    for_range 0 nB (fun i =>
      x <- load SCR2 (i + j * nB) ;;
      s <- load sE j ;;
      store SCR2 (i + j * nB) (x * s)%R)) ;;;
  (* Compute O2 = X * V**T *)
  Gemm "N" "T" nB nB nB 1%R SCR2 nB SCR1 nB 0%R (ortho2 ao) nB ;;;
  (* Free Scratch Space *)
  free sE ;;;
  free SCR2.

(** The [CHOLESKY] branch.  The status codes the kernels return are not
    looked at. *)
Definition computeOrtho_cholesky `{LinAlg} (ao : AOIntegrals) (SCR1 : loc)
  : comp unit :=
  let nB := nBasis (basisSet_ ao) in
  (* Compute the Cholesky factorization of the overlap S = L * L**T *)
  _ <- Cholesky "L" nB SCR1 nB ;;
  (* Copy the lower triangle to ortho2 (O2 = L) *)
  for_range 0 nB (fun j =>
    for_range j nB (fun i =>
      x <- load SCR1 (i + j * nB) ;;
      store (ortho2 ao) (i + j * nB) x)) ;;;
  (* Compute the inverse of the overlap using the Cholesky factors *)
  _ <- CholeskyInv "L" nB SCR1 nB ;;
  (* O1 = O2**T * S^{-1} *)
  Gemm "T" "N" nB nB nB 1%R (ortho2 ao) nB SCR1 nB 0%R (ortho1 ao) nB ;;;
  (* Remove upper triangle junk from O1 *)
  for_range 0 nB (fun j =>
    for_range 0 j (fun i =>
      store (ortho1 ao) (i + j * nB) 0%R)).

Definition computeOrtho `{Allocator} `{LinAlg} (ao : AOIntegrals)
  : comp AOIntegrals :=
  (* Allocate orthogonalization matricies *)
  o1 <- malloc_double (nSQ_ ao) ;;
  o2 <- malloc_double (nSQ_ ao) ;;
  let ao := set_ortho ao o1 o2 in
  fill_n (ortho1 ao) (nSQ_ ao) 0%R ;;;
  fill_n (ortho2 ao) (nSQ_ ao) 0%R ;;;
  (* Allocate scratch *)
  SCR1 <- malloc_double (nSQ_ ao) ;;
  (* Copy the overlap over to scratch space *)
  copy_n (overlap ao) (nSQ_ ao) SCR1 ;;;
  let ao := set_orthoType ao CHOLESKY in
  match orthoType_ ao with
  | LOWDIN => computeOrtho_lowdin ao SCR1
  | CHOLESKY => computeOrtho_cholesky ao SCR1
  end ;;;
  free SCR1 ;;;
  ret ao.

(** ** [AOIntegrals::OneEDriver] *)

(** [std::max_element(first, last, less)]: the first largest element;
    [None] stands for [last] (empty range) and for a comparison that could
    not be evaluated. *)
Fixpoint max_element_from {A} (less : A -> A -> option bool)
    (largest : A) (rest : list A) : option A :=
  match rest with
  | [] => Some largest
  | x :: rest' =>
      match less largest x with
      | Some true => max_element_from less x rest'
      | Some false => max_element_from less largest rest'
      | None => None
      end
  end.

Definition max_element {A} (less : A -> A -> option bool) (l : list A) : option A :=
  match l with
  | [] => None
  | x :: rest => max_element_from less x rest
  end.

(** [sh.contr[0].l] *)
Definition contr0_l (sh : Shell) : option nat :=
  match Shell_contr sh with
  | c :: _ => Some (contr_l c)
  | [] => None
  end.

Definition less_l (sh1 sh2 : Shell) : option bool :=
  match contr0_l sh1, contr0_l sh2 with
  | Some l1, Some l2 => Some (bool_decide (l1 < l2))
  | _, _ => None
  end.

Definition less_nprim (sh1 sh2 : Shell) : option bool :=
  Some (bool_decide (length (Shell_alpha sh1) < length (Shell_alpha sh2))).

(** The result buffers: [malloc], then [std::fill_n(.., 0.)], one after the
    other. *)
Fixpoint alloc_mats `{Allocator} (count NBSQ : nat) : comp (list loc) :=
  match count with
  | 0 => ret []
  | S count' =>
      p <- malloc_double NBSQ ;;
      fill_n p NBSQ 0%R ;;;
      rest <- alloc_mats count' NBSQ ;;
      ret (p :: rest)
  end.

(** [matMaps[iMat].block(bf1_s,bf2_s,n1,n2) = bufMat]: the destination is
    column-major with [NB] rows, the source row-major [n1] by [n2]. *)
Definition place_block (p : loc) (NB bf1_s bf2_s n1 n2 : nat) (buf : nat -> R)
  : comp unit :=
  for_range 0 n2 (fun b =>
    for_range 0 n1 (fun a =>
      store p ((bf1_s + a) + (bf2_s + b) * NB) (buf (a * n2 + b)))).

(** The body of the loop over shell pairs. *)
Definition pair_body `{Libint} (e : Engine) (mats : list loc)
    (NB : nat) (sh1 sh2 : Shell) (bf1_s bf2_s : nat) : comp unit :=
  let n1 := Shell_size sh1 in
  let n2 := Shell_size sh2 in
  (* Compute the integrals *)
  let buf_vec := compute e sh1 sh2 in
  match buf_vec with
  | [] => fault
  | None :: _ =>
      (* If the integrals were screened, move on to the next batch *)
      ret tt
  | Some _ :: _ =>
      (* Place integral blocks into their respective matricies *)
      for_range 0 (length buf_vec) (fun iMat =>
        buf <- lift (mjoin (buf_vec !! iMat)) ;;
        p <- lift (mats !! iMat) ;;
        place_block p NB bf1_s bf2_s n1 n2 buf)
  end.

(** [for(s2(0), bf2_s(0); s2 <= s1; bf2_s+=n2, s2++)]; [todo] are the shells
    [s2 .. s1]. *)
Fixpoint loop_s2 `{Libint} (e : Engine) (mats : list loc) (NB : nat)
    (sh1 : Shell) (bf1_s : nat) (todo : list Shell) (bf2_s : nat) : comp unit :=
  match todo with
  | [] => ret tt
  | sh2 :: todo' =>
      pair_body e mats NB sh1 sh2 bf1_s bf2_s ;;;
      loop_s2 e mats NB sh1 bf1_s todo' (bf2_s + Shell_size sh2)
  end.

(** [for(s1(0), bf1_s(0); s1 < shells.size(); bf1_s+=n1, s1++)]; [todo] are
    the shells [s1 ..]. *)
Fixpoint loop_s1 `{Libint} (e : Engine) (mats : list loc) (NB : nat)
    (shells : list Shell) (todo : list Shell) (s1 bf1_s : nat) : comp unit :=
  match todo with
  | [] => ret tt
  | sh1 :: todo' =>
      loop_s2 e mats NB sh1 bf1_s (take (S s1) shells) 0 ;;;
      loop_s1 e mats NB shells todo' (S s1) (bf1_s + Shell_size sh1)
  end.

(** [m = m.selfadjointView<Eigen::Lower>()] on the [NB] by [NB] map over
    [p]: every entry above the diagonal receives its mirror image from
    below. *)
Definition symmetrize (p : loc) (NB : nat) : comp unit :=
  for_range 0 NB (fun j =>
    for_range (S j) NB (fun i =>
      x <- load p (i + j * NB) ;;
      store p (j + i * NB) x)).

(** [engines[0]]: constructed, precision set, and for the nuclear
    attraction operator handed the point charges of the molecule. *)
Definition first_engine `{Libint} (ao : AOIntegrals) (op : Operator)
    (maxPrim maxL : nat) : Engine :=
  (* Initialize the first engine for the integral evaluation *)
  let e := set_precision (Engine_new op maxPrim maxL 0) 0%R in
  (* If engine is V, define nuclear charges *)
  match op with
  | Operator_nuclear =>
      set_params e (map (fun atom => (INR (atomicNumber atom), coord atom))
                        (atoms (molecule_ ao)))
  | _ => e
  end.

(** [std::accumulate(shells.begin(), shells.end(), 0, ...)]: the number of
    basis functions. *)
Definition basis_size (shells : list Shell) : nat :=
  fold_left (fun init sh => init + Shell_size sh) shells 0.

(** [OneEDriver] up to the end of the OpenMP region: the matrices hold the
    blocks of the lower triangle.  Inside the region every thread runs the
    whole loop nest with its own copy of the engine, so all of them store
    the same values; one execution of the nest is modelled. *)
Definition OneEDriver_assemble `{Allocator} `{Libint} (ao : AOIntegrals)
    (op : Operator) (shells : list Shell) : comp (list loc) :=
  (* Determine the number of basis functions for the passed shell set *)
  let NB := basis_size shells in
  let NBSQ := NB * NB in
  (* Determine the maximum angular momentum of the passed shell set *)
  maxL <- lift (A := nat) (max_element less_l shells ≫= contr0_l) ;;
  (* Determine the maximum contraction depth of the passed shell set *)
  maxPrim <- lift (A := nat) ((fun sh => length (Shell_alpha sh))
                     <$> max_element less_nprim shells) ;;
  let e := first_engine ao op maxPrim maxL in
  (* Determine the number of operators *)
  mats <- alloc_mats (results_size e) NBSQ ;;
  (* Loop over unique shell pairs *)
  loop_s1 e mats NB shells shells 0 0 ;;;
  ret mats.

Definition OneEDriver `{Allocator} `{Libint} (ao : AOIntegrals) (op : Operator)
    (shells : list Shell) : comp (list loc) :=
  mats <- OneEDriver_assemble ao op shells ;;
  (* Symmetrize the matricies *)
  for_list mats (fun p => symmetrize p (basis_size shells)) ;;;
  ret mats.

(** ** [AOIntegrals::computeAOOneE] *)

(** [std::copy_n(v.begin() + first, n, std::back_inserter(dst))] *)
Definition copy_n_back (v : list loc) (first n : nat) (dst : list loc)
  : option (list loc) :=
  if decide (first + n <= length v)
  then Some (dst ++ take n (drop first v))
  else None.

(** The loop [H = T + V] runs under
    [#pragma omp parallel for schedule(static,chunk)]: [order] is the order
    in which its iterations [0 .. nSQ_-1] get executed.  Without OpenMP
    that is [seq 0 nSQ_]. *)
Definition computeAOOneE `{Allocator} `{LinAlg} `{Libint} (order : list nat)
    (ao : AOIntegrals) : comp AOIntegrals :=
  (* Compute base 1-e integrals *)
  _multipole <- OneEDriver ao Operator_emultipole3 (shells (basisSet_ ao)) ;;
  _kinetic <- OneEDriver ao Operator_kinetic (shells (basisSet_ ao)) ;;
  _potential <- OneEDriver ao Operator_nuclear (shells (basisSet_ ao)) ;;
  (* Extract the pointers *)
  ov <- lift (_multipole !! 0) ;;
  dip <- lift (copy_n_back _multipole 1 3 (lenElecDipole ao)) ;;
  quad <- lift (copy_n_back _multipole 4 6 (lenElecQuadrupole ao)) ;;
  oct <- lift (copy_n_back _multipole 10 10 (lenElecOctupole ao)) ;;
  kin <- lift (_kinetic !! 0) ;;
  pot <- lift (_potential !! 0) ;;
  (* Allocate and compute the core Hamiltonian *)
  cH <- malloc_double (nSQ_ ao) ;;
  let ao := set_oneE ao ov dip quad oct kin pot (coreH ao ++ [cH]) in
  fill_n cH (nSQ_ ao) 0%R ;;;
  (* H = T + V *)
  for_list order (fun i =>
    t <- load (kinetic ao) i ;;
    v <- load (potential ao) i ;;
    store cH i (t + v)%R) ;;;
  (* Compute Orthonormalization trasformations *)
  computeOrtho ao.

(** OpenMP's [schedule(static,chunk)] on [T] threads, for a positive
    [chunk]: iteration [i] lies in chunk [i / chunk], and the chunks are
    dealt out round-robin; a thread runs its iterations in increasing
    order. *)
Definition omp_static_thread (T chunk n t : nat) : list nat :=
  filter (fun i => (i / chunk) mod T = t) (seq 0 n).

(** The iteration lists of the [T] threads.  OpenMP requires the chunk
    size of a schedule clause to be positive: with [chunk = 0] the loop is
    not a conforming program and has no defined schedule ([None]), and
    likewise without a thread to run it. *)
Definition omp_static (T chunk n : nat) : option (list (list nat)) :=
  if decide (0 < T /\ 0 < chunk)
  then Some (map (omp_static_thread T chunk n) (seq 0 T))
  else None.

(** [size_t chunk = 2*nSQ_ / omp_get_max_threads()]; it is [0] when there
    are more than [2*nSQ_] threads. *)
Definition omp_chunk (nSQ T : nat) : nat := 2 * nSQ / T.

(** The executions of concurrent threads: every interleaving of their
    iteration sequences. *)
Inductive interleave {A : Type} : list (list A) -> list A -> Prop :=
| interleave_done ls :
    Forall (fun l => l = []) ls -> interleave ls []
| interleave_step ls1 x xs ls2 out :
    interleave (ls1 ++ xs :: ls2) out ->
    interleave (ls1 ++ (x :: xs) :: ls2) (x :: out).

(** ** Views of the heap used in statements *)

(** The buffer a [double*] points to. *)
Definition buffer (h : heap) (p : loc) : option (list R) :=
  match h !! p with
  | Some (DBlock d) => Some d
  | _ => None
  end.

(** Entry (i,j) of the column-major matrix with [n] rows stored in [d]. *)
Definition entry (n : nat) (d : list R) (i j : nat) : R := content d (i + j * n).

(** The product of two [n] by [n] matrices given by their entries. *)
Definition mmul (n : nat) (X Y : nat -> nat -> R) : nat -> nat -> R :=
  fun i j => Rsum n (fun k => X i k * Y k j)%R.

Definition mtrans (X : nat -> nat -> R) : nat -> nat -> R := fun i j => X j i.

Definition mident : nat -> nat -> R :=
  fun i j => if decide (i = j) then 1%R else 0%R.

(** Equality of the leading [n] by [n] parts. *)
Definition meq (n : nat) (X Y : nat -> nat -> R) : Prop :=
  forall i j, i < n -> j < n -> X i j = Y i j.

(** ** A reference backend

    An instance of the kernel interface after the unblocked LAPACK
    routines (DPOTF2, DTRTI2 + DLAUUM, DGETF2), in exact arithmetic.  It
    serves to run the builders on concrete data; the theorems below hold
    for every backend. *)

Definition upd {V} (f : nat -> V) (i : nat) (x : V) : nat -> V :=
  fun k => if decide (k = i) then x else f k.

(** Offset of entry (i,j), i >= j, of the triangle a routine works on. *)
Definition tri_ix (lower : bool) (LDA i j : nat) : nat :=
  if lower then i + j * LDA else j + i * LDA.

Definition uplo_of (UPLO : ascii) : option bool :=
  if is_char UPLO "L" || is_char UPLO "l" then Some true
  else if is_char UPLO "U" || is_char UPLO "u" then Some false
  else None.

(** DPOTF2, columns [cols] still to do. *)
Fixpoint potf2 (lower : bool) (N LDA : nat) (cols : list nat) (a : nat -> R)
  : Z * (nat -> R) :=
  match cols with
  | [] => (0%Z, a)
  | j :: cols' =>
      let ix := tri_ix lower LDA in
      let ajj := (a (ix j j) - Rsum j (fun k => a (ix j k) * a (ix j k)))%R in
      if Rle_dec ajj 0 then (Z.of_nat (S j), upd a (ix j j) ajj)
      else
        let d := sqrt ajj in
        let a' :=
          fold_left (fun acc i =>
            upd acc (ix i j)
              ((a (ix i j) - Rsum j (fun k => a (ix i k) * a (ix j k))) / d)%R)
            (seq (S j) (N - S j)) (upd a (ix j j) d) in
        potf2 lower N LDA cols' a'
  end.

Definition potrf_ref (UPLO : ascii) (N : nat) (a : nat -> R) (LDA : nat)
  : Z * (nat -> R) :=
  match uplo_of UPLO with
  | None => ((-1)%Z, a)
  | Some lower =>
      if decide (LDA < Nat.max 1 N) then ((-4)%Z, a)
      else potf2 lower N LDA (seq 0 N) a
  end.

(** DTRTI2: the inverse of the triangular factor, last column first. *)
Definition trti2 (lower : bool) (N LDA : nat) (a : nat -> R) : nat -> R :=
  fold_left (fun acc j =>
    let ix := tri_ix lower LDA in
    let ajj := (/ (acc (ix j j)))%R in
    fold_left (fun acc' i =>
      upd acc' (ix i j)
        (- ajj * Rsum (i - j) (fun k => acc (ix i (S j + k)%nat) * acc (ix (S j + k)%nat j)))%R)
      (seq (S j) (N - S j)) (upd acc (ix j j) ajj))
    (rev (seq 0 N)) a.

(** DLAUUM: the product of the triangular factor [t] with its transpose,
    written over the same triangle. *)
Definition lauum (lower : bool) (N LDA : nat) (t : nat -> R) : nat -> R :=
  fold_left (fun acc j =>
    let ix := tri_ix lower LDA in
    fold_left (fun acc' i =>
      upd acc' (ix i j) (Rsum (N - i) (fun k => t (ix (i + k)%nat i) * t (ix (i + k)%nat j))%R))
      (seq j (N - j)) acc)
    (seq 0 N) t.

Fixpoint first_zero_diag (LDA : nat) (a : nat -> R) (rows : list nat) : option nat :=
  match rows with
  | [] => None
  | i :: rows' =>
      if Req_dec_T (a (i + i * LDA)) 0 then Some i
      else first_zero_diag LDA a rows'
  end.

Definition potri_ref (UPLO : ascii) (N : nat) (a : nat -> R) (LDA : nat)
  : Z * (nat -> R) :=
  match uplo_of UPLO with
  | None => ((-1)%Z, a)
  | Some lower =>
      if decide (LDA < Nat.max 1 N) then ((-4)%Z, a)
      else match first_zero_diag LDA a (seq 0 N) with
           | Some i => (Z.of_nat (S i), a)
           | None => (0%Z, lauum lower N LDA (trti2 lower N LDA a))
           end
  end.

(** IDAMAX over rows [j .. M-1] of column [j]. *)
Definition idamax (a : nat -> R) (LDA j M : nat) : nat :=
  fold_left (fun best i =>
    if Rlt_dec (Rabs (a (best + j * LDA))) (Rabs (a (i + j * LDA)))
    then i else best)
    (seq (S j) (M - S j)) j.

Definition swap_rows (N LDA r1 r2 : nat) (a : nat -> R) : nat -> R :=
  fold_left (fun acc k =>
    upd (upd acc (r1 + k * LDA) (a (r2 + k * LDA))) (r2 + k * LDA) (a (r1 + k * LDA)))
    (seq 0 N) a.

(** One column of DGETF2. *)
Definition getf2_step (M N LDA : nat) (st : Z * (nat -> R) * (nat -> Z)) (j : nat)
  : Z * (nat -> R) * (nat -> Z) :=
  let '(info, a, piv) := st in
  let jp := idamax a LDA j M in
  let '(info', a1) :=
    if Req_dec_T (a (jp + j * LDA)) 0
    then (if (info =? 0)%Z then Z.of_nat (S j) else info, a)
    else
      let sw := swap_rows N LDA j jp a in
      (info,
       fold_left (fun acc i =>
         upd acc (i + j * LDA) (sw (i + j * LDA)%nat / sw (j + j * LDA)%nat)%R)
         (seq (S j) (M - S j)) sw) in
  let a2 :=
    fold_left (fun acc k =>
      fold_left (fun acc' i =>
        upd acc' (i + k * LDA)
          (a1 (i + k * LDA)%nat - a1 (i + j * LDA)%nat * a1 (j + k * LDA)%nat)%R)
        (seq (S j) (M - S j)) acc)
      (seq (S j) (N - S j)) a1 in
  (info', a2, upd piv j (Z.of_nat (S jp))).

Definition getrf_ref (M N : nat) (a : nat -> R) (LDA : nat)
  : Z * (nat -> R) * (nat -> Z) :=
  if decide (LDA < Nat.max 1 M) then ((-4)%Z, a, fun _ => 0%Z)
  else fold_left (getf2_step M N LDA) (seq 0 (Nat.min M N)) (0%Z, a, fun _ => 0%Z).

(** The symmetric matrix a routine reads from one triangle. *)
Definition sym_view (upper : bool) (LDA : nat) (a : nat -> R) : nat -> nat -> R :=
  fun i j =>
    if upper then a (Nat.min i j + Nat.max i j * LDA)
    else a (Nat.max i j + Nat.min i j * LDA).

(** [V] holds orthonormal eigenvectors of [S] in its columns, [w] the
    eigenvalues in ascending order. *)
Definition eigensystem (N : nat) (S V : nat -> nat -> R) (w : nat -> R) : Prop :=
  meq N (mmul N (mtrans V) V) mident /\
  meq N (mmul N V (mtrans V)) mident /\
  meq N (mmul N V (fun k j => w k * V j k)%R) S /\
  (forall i j, i <= j -> j < N -> (w i <= w j)%R).

(** xSYEV has no closed form; the reference backend returns some
    eigensystem of the matrix it is given. *)
Definition syev_ref (JOBZ UPLO : ascii) (N : nat) (a : nat -> R) (LDA : nat)
  : Z * (nat -> R) * (nat -> R) :=
  epsilon (inhabits (0%Z, a, fun _ : nat => 0%R))
    (fun r => r.1.1 = 0%Z /\
              eigensystem N (sym_view (negb (is_char UPLO "L" || is_char UPLO "l")) LDA a)
                (fun i j => r.1.2 (i + j * LDA)) r.2).

Definition reference_backend : LinAlg :=
  {| potrf := potrf_ref; potri := potri_ref; getrf := getrf_ref; syev := syev_ref |}.

(** An allocator whose fresh storage holds sevens. *)
Definition sevens_alloc : Allocator :=
  {| uninit := fun _ _ => 7%R; uninitZ := fun _ _ => 7%Z |}.

(** An allocator whose fresh storage holds zeros. *)
Definition zeros_alloc : Allocator :=
  {| uninit := fun _ _ => 0%R; uninitZ := fun _ _ => 0%Z |}.

(** A stand-in for the integral engine: component [k] of every pair is the
    constant block [k+1]; a pair with a shell without primitives is
    screened.  The component counts are those the driver documents: 20
    for the multipole operator, 1 otherwise. *)
Definition toy_results (op : Operator) : nat :=
  match op with
  | Operator_emultipole3 => 20
  | _ => 1
  end.

Definition toy_compute (op : Operator) (sh1 sh2 : Shell) : list (option (nat -> R)) :=
  match Shell_alpha sh1, Shell_alpha sh2 with
  | _ :: _, _ :: _ => map (fun k => Some (fun _ : nat => INR (S k))) (seq 0 (toy_results op))
  | _, _ => replicate (toy_results op) None
  end.

Definition toy_engine : Libint :=
  {| Engine := Operator;
     Engine_new := fun op _ _ _ => op;
     set_precision := fun e _ => e;
     set_params := fun e _ => e;
     results_size := toy_results;
     compute := toy_compute |}.

(** ** Loops as buffer updates

    The stores of a loop, applied to the buffer they go to. *)
Definition writes {K} (idx : K -> nat) (val : K -> R) (l : list K) (d : list R)
  : list R :=
  fold_left (fun acc k => <[idx k := val k]> acc) l d.

(** The index pairs [(j, i)] of a loop nest
    [for j in [0,n): for i in [lo j, hi j)]. *)
Definition nest (n : nat) (lo hi : nat -> nat) : list (nat * nat) :=
  flat_map (fun j => map (fun i => (j, i)) (seq (lo j) (hi j - lo j))) (seq 0 n).

(** ** What the [CHOLESKY] branch computes

    [n] is [nBasis], [S] the contents of the scratch copy of the overlap. *)
Definition chol_factor `{LinAlg} (n : nat) (S : list R) : list R :=
  (potrf_list "L" n S n).2.

Definition chol_inverse `{LinAlg} (n : nat) (S : list R) : list R :=
  (potri_list "L" n (chol_factor n S) n).2.

(** [ortho2]: the lower triangle of the factor over zeros. *)
Definition cholesky_ortho2 `{LinAlg} (n : nat) (S : list R) : list R :=
  writes (fun ji => ji.2 + ji.1 * n)
         (fun ji => content (chol_factor n S) (ji.2 + ji.1 * n))
         (nest n (fun j => j) (fun _ => n))
         (replicate (n * n) 0%R).

(** [ortho1]: the product of [Gemm], entries above the diagonal zeroed. *)
Definition cholesky_ortho1 `{LinAlg} (n : nat) (S : list R) : list R :=
  writes (fun ji => ji.2 + ji.1 * n)
         (fun _ => 0%R)
         (nest n (fun _ => 0) (fun j => j))
         (gemm_list "T" "N" n n n 1%R (cholesky_ortho2 n S) n (chol_inverse n S) n
                    0%R (replicate (n * n) 0%R) n).

(** ** What the [LOWDIN] branch computes

    [S] is the contents of the scratch copy of the overlap, [u] what the
    second scratch buffer holds when it is handed out. *)
Definition lowdin_vectors `{LinAlg} (n : nat) (S : list R) : list R :=
  refill S (syev "V" "U" n (content S) n).1.2.

Definition lowdin_values `{LinAlg} (n : nat) (S : list R) : list R :=
  map (syev "V" "U" n (content S) n).2 (seq 0 n).

(** X = V * s^{-1/2} *)
Definition lowdin_X1 `{LinAlg} (n : nat) (S u : list R) : list R :=
  writes (fun ji => ji.2 + ji.1 * n)
         (fun ji => (content (lowdin_vectors n S) (ji.2 + ji.1 * n)
                     / sqrt (content (lowdin_values n S) ji.1))%R)
         (nest n (fun _ => 0) (fun _ => n)) u.

(** X = V * s^{1/2}, from the former by multiplying by s in place. *)
Definition lowdin_X2 `{LinAlg} (n : nat) (S u : list R) : list R :=
  fold_left (fun acc ji =>
               <[ji.2 + ji.1 * n :=
                   (content acc (ji.2 + ji.1 * n)
                    * content (lowdin_values n S) ji.1)%R]> acc)
            (nest n (fun _ => 0) (fun _ => n)) (lowdin_X1 n S u).

Definition lowdin_ortho1 `{LinAlg} (n : nat) (S u : list R) : list R :=
  gemm_list "N" "T" n n n 1%R (lowdin_X1 n S u) n (lowdin_vectors n S) n
            0%R (replicate (n * n) 0%R) n.

Definition lowdin_ortho2 `{LinAlg} (n : nat) (S u : list R) : list R :=
  gemm_list "N" "T" n n n 1%R (lowdin_X2 n S u) n (lowdin_vectors n S) n
            0%R (replicate (n * n) 0%R) n.

(** [V * diag(a) * V^T] *)
Definition spectral (n : nat) (V : nat -> nat -> R) (a : nat -> R)
  : nat -> nat -> R :=
  fun i j => Rsum n (fun k => V i k * a k * V j k)%R.

(** ** Footprints *)

(** [c] changes no block outside [X]. *)
Definition touches_only {A} (X : loc -> Prop) (c : comp A) : Prop :=
  forall h a h', c h = Some (a, h') -> forall p, ~ X p -> h' !! p = h !! p.

(** ** The kernels' contracts *)

(** [L] is the Cholesky factor of [A]: lower-triangular with a positive
    diagonal and [L * L^T = A]. *)
Definition cholesky_factor_of (n : nat) (A L : nat -> nat -> R) : Prop :=
  (forall i j, i < j -> L i j = 0%R) /\
  (forall i, i < n -> (0 < L i i)%R) /\
  meq n (mmul n L (mtrans L)) A.

Definition inverse_of (n : nat) (A Ainv : nat -> nat -> R) : Prop :=
  meq n (mmul n Ainv A) mident /\ meq n (mmul n A Ainv) mident.

(** The lower triangle of the buffer [d] is that of [X]. *)
Definition lower_holds (n : nat) (d : list R) (X : nat -> nat -> R) : Prop :=
  forall i j, j <= i -> i < n -> entry n d i j = X i j.

(** ** A concrete run: the overlap [[1, 1/2], [1/2, 1]] *)

Definition S_half : list R := [1; 1/2; 1/2; 1]%R.

(** Its Cholesky factor and its inverse. *)
Definition L_half (i j : nat) : R :=
  match i, j with
  | 0, 0 => 1%R
  | 1, 0 => (1/2)%R
  | 1, 1 => sqrt (3/4)
  | _, _ => 0%R
  end.

Definition Sinv_half (i j : nat) : R :=
  match i, j with
  | 0, 0 => (4/3)%R
  | 1, 0 => (-2/3)%R
  | 0, 1 => (-2/3)%R
  | 1, 1 => (4/3)%R
  | _, _ => 0%R
  end.

(** An [AOIntegrals] over two basis functions whose overlap lives at
    address 1; the Löwdin transform is asked for. *)
Definition ao_half : AOIntegrals :=
  {| basisSet_ := {| shells := []; nBasis := 2 |};
     molecule_ := {| atoms := [] |};
     nSQ_ := 4;
     orthoType_ := LOWDIN;
     overlap := 1%positive;
     kinetic := 1%positive;
     potential := 1%positive;
     ortho1 := 1%positive;
     ortho2 := 1%positive;
     lenElecDipole := [];
     lenElecQuadrupole := [];
     lenElecOctupole := [];
     coreH := [] |}.

Definition heap_half : heap := {[ 1%positive := DBlock S_half ]}.

(** Orthonormal eigenvectors of that overlap, column by column, and its
    eigenvalues. *)
Definition V_half : list R := [/ sqrt 2; - / sqrt 2; / sqrt 2; / sqrt 2]%R.

Definition s_half (k : nat) : R :=
  match k with
  | 0 => (1/2)%R
  | _ => (3/2)%R
  end.

(** The state in which the [LOWDIN] branch would start: the scratch copy
    of the overlap at address 1, the zeroed transforms at 2 and 3. *)
Definition ao_lowdin : AOIntegrals := set_ortho ao_half 2%positive 3%positive.

Definition heap_lowdin : heap :=
  <[3%positive := DBlock (replicate 4 0%R)]>
    (<[2%positive := DBlock (replicate 4 0%R)]> heap_half).


(** An overlap buffer that is one value short. *)
Definition heap_short : heap := {[ 1%positive := DBlock [1; 1/2; 1/2]%R ]}.

(** The same object with a recorded [nSQ_] of 3 instead of 4. *)
Definition ao_small : AOIntegrals :=
  {| basisSet_ := basisSet_ ao_half;
     molecule_ := molecule_ ao_half;
     nSQ_ := 3;
     orthoType_ := orthoType_ ao_half;
     overlap := overlap ao_half;
     kinetic := kinetic ao_half;
     potential := potential ao_half;
     ortho1 := ortho1 ao_half;
     ortho2 := ortho2 ao_half;
     lenElecDipole := lenElecDipole ao_half;
     lenElecQuadrupole := lenElecQuadrupole ao_half;
     lenElecOctupole := lenElecOctupole ao_half;
     coreH := coreH ao_half |}.

(** A singular overlap: two copies of one normalised function. *)
Definition S_ones : list R := [1; 1; 1; 1]%R.

Definition heap_ones : heap := {[ 1%positive := DBlock S_ones ]}.

(** The backend [B] with every status code replaced by [0]. *)
Definition silenced (B : LinAlg) : LinAlg :=
  {| potrf := fun u n a lda => (0%Z, (@potrf B u n a lda).2);
     potri := fun u n a lda => (0%Z, (@potri B u n a lda).2);
     getrf := fun m n a lda => (0%Z, (@getrf B m n a lda).1.2, (@getrf B m n a lda).2);
     syev := fun jz u n a lda => (0%Z, (@syev B jz u n a lda).1.2, (@syev B jz u n a lda).2) |}.

(** The addresses the allocator hands out for [ortho1] and [ortho2] when
    [computeOrtho] starts on heap [h]. *)
Definition ortho_locs `{Allocator} (nSQ : nat) (h : heap) : loc * loc :=
  let o1 := fresh (dom h) in
  let h1 := <[o1 := DBlock (map (uninit o1) (seq 0 nSQ))]> h in
  (o1, fresh (dom h1)).

(** ** Concrete calls of [LU]

    The singular matrix [[1, 2], [2, 4]], stored by columns at address 1,
    and an external pivot array of two entries at address 2. *)
Definition A_sing : list R := [1; 2; 2; 4]%R.

Definition heap_lu : heap :=
  <[1%positive := DBlock A_sing]> {[ 2%positive := IBlock [0%Z; 0%Z] ]}.

(** What partial pivoting leaves of it: the rows swapped, the multiplier
    [1/2] below the diagonal, and a zero pivot in the second column. *)
Definition LU_sing : list R := [2; 1/2; 4; 0]%R.

(** The same call with a buffer of one value behind the pointer. *)
Definition heap_lu_short : heap :=
  <[1%positive := DBlock [4%R]]> {[ 2%positive := IBlock [0%Z; 0%Z] ]}.

(** ** Blocks of the assembled matrices *)

(** First basis function of shell [s]. *)
Definition offset (shells : list Shell) (s : nat) : nat :=
  basis_size (take s shells).

(** The engine the driver works with, as a function of the operator. *)
Definition driver_engine `{Libint} (ao : AOIntegrals) (op : Operator)
    (shells : list Shell) : option Engine :=
  maxL ← max_element less_l shells ≫= contr0_l;
  maxPrim ← (fun sh => length (Shell_alpha sh)) <$> max_element less_nprim shells;
  Some (first_engine ao op maxPrim maxL).

(** The pair was not screened: the first result pointer is not null. *)
Definition unscreened `{Libint} (e : Engine) (sh1 sh2 : Shell) : Prop :=
  exists b0 rest, compute e sh1 sh2 = Some b0 :: rest.

Definition screened `{Libint} (e : Engine) (sh1 sh2 : Shell) : Prop :=
  exists rest, compute e sh1 sh2 = None :: rest.

(** Offset [idx] lies in the block of rows [bf1 .. bf1+n1) and columns
    [bf2 .. bf2+n2). *)
Definition in_block (NB bf1 n1 bf2 n2 idx : nat) : Prop :=
  exists a b, a < n1 /\ b < n2 /\ idx = (bf1 + a) + (bf2 + b) * NB.

(** The buffer [m.selfadjointView<Lower>()] leaves in place of [d]. *)
Definition sym_block (NB : nat) (d : list R) : list R :=
  writes (fun ji => ji.1 + ji.2 * NB)
         (fun ji => content d (ji.2 + ji.1 * NB))
         (nest NB (fun j => S j) (fun _ => NB)) d.

(** What [place_block] leaves in place of [d]. *)
Definition placed (NB bf1 bf2 n1 n2 : nat) (buf : nat -> R) (d : list R) : list R :=
  writes (fun ba => (bf1 + ba.2) + (bf2 + ba.1) * NB)
         (fun ba => buf (ba.2 * n2 + ba.1))
         (nest n2 (fun _ => 0) (fun _ => n1)) d.

(** Block [k] of the collection after the pairs in [done] have been
    processed: an unscreened pair's block holds component [k] of the
    engine's result, and everything outside such blocks is zero. *)
Definition block_ok `{Libint} (e : Engine) (shells : list Shell) (k : nat)
    (done : nat -> nat -> Prop) (d : list R) : Prop :=
  let NB := basis_size shells in
  length d = NB * NB /\
  (forall s1 s2 sh1 sh2 buf a b,
     done s1 s2 -> s2 <= s1 ->
     shells !! s1 = Some sh1 -> shells !! s2 = Some sh2 ->
     unscreened e sh1 sh2 ->
     compute e sh1 sh2 !! k = Some (Some buf) ->
     a < Shell_size sh1 -> b < Shell_size sh2 ->
     content d ((offset shells s1 + a) + (offset shells s2 + b) * NB)
     = buf (a * Shell_size sh2 + b)) /\
  (forall idx,
     (forall s1 s2 sh1 sh2,
        done s1 s2 -> s2 <= s1 ->
        shells !! s1 = Some sh1 -> shells !! s2 = Some sh2 ->
        unscreened e sh1 sh2 ->
        ~ in_block NB (offset shells s1) (Shell_size sh1)
                      (offset shells s2) (Shell_size sh2) idx) ->
     content d idx = 0%R).

Definition assembled `{Libint} (e : Engine) (shells : list Shell) (mats : list loc)
    (done : nat -> nat -> nat -> Prop) (h : heap) : Prop :=
  forall k p, mats !! k = Some p ->
    exists d, h !! p = Some (DBlock d) /\ block_ok e shells k (done k) d.

(** The engine's answer for a pair can be used: the pair is screened, or
    every result pointer is set and there are no more of them than
    matrices. *)
Definition delivers `{Libint} (e : Engine) (sh1 sh2 : Shell) : Prop :=
  screened e sh1 sh2 \/
  (unscreened e sh1 sh2 /\
   length (compute e sh1 sh2) <= results_size e /\
   forall k, k < length (compute e sh1 sh2) ->
     exists buf, compute e sh1 sh2 !! k = Some (Some buf)).

Definition engine_delivers `{Libint} (e : Engine) (shells : list Shell) : Prop :=
  forall s1 s2 sh1 sh2,
    s2 <= s1 -> shells !! s1 = Some sh1 -> shells !! s2 = Some sh2 ->
    delivers e sh1 sh2.

(** Every matrix of the collection is a live [NB] by [NB] buffer. *)
Definition sized (mats : list loc) (NB : nat) (h : heap) : Prop :=
  forall p, In p mats -> exists d, h !! p = Some (DBlock d) /\ length d = NB * NB.

(** The number of matrices [OneEDriver] documents for an operator: 20 for
    the combined overlap and multipoles, 1 otherwise. *)
Definition components (op : Operator) : nat :=
  match op with
  | Operator_emultipole3 => 20
  | _ => 1
  end.

(** The engine for [op] can be set up on the basis of [ao], its answers can
    be used, and it has the documented number of components. *)
Definition engine_ready `{Libint} (ao : AOIntegrals) (op : Operator) : Prop :=
  exists e,
    driver_engine ao op (shells (basisSet_ ao)) = Some e /\
    engine_delivers e (shells (basisSet_ ao)) /\
    results_size e = components op.

(** The sizes recorded in the object are those of its basis, and the
    engines are ready. *)
Definition oneE_ready `{Libint} (ao : AOIntegrals) : Prop :=
  basis_size (shells (basisSet_ ao)) = nBasis (basisSet_ ao) /\
  nSQ_ ao = nBasis (basisSet_ ao) * nBasis (basisSet_ ao) /\
  forall op, engine_ready ao op.

(** Partial correctness of a computation. *)
Definition hoare {A} (P : heap -> Prop) (c : comp A) (Q : A -> heap -> Prop) : Prop :=
  forall h a h', c h = Some (a, h') -> P h -> Q a h'.

(** ** The core Hamiltonian *)

(** What the loop [H = T + V], run in the order [order], leaves in place
    of [dh]. *)
Definition core_sum (dk dp : list R) (order : list nat) (dh : list R) : list R :=
  writes (fun i => i) (fun i => (content dk i + content dp i)%R) order dh.

(** Every iteration finds its operands. *)
Definition core_fits (dk dp dh : list R) (order : list nat) : bool :=
  forallb (fun i => bool_decide (i < length dk /\ i < length dp /\ i < length dh)) order.

(** ** A concrete basis for the driver *)

(** An s-type shell with one primitive, and a shell without primitives
    (which the stand-in engine screens). *)
Definition s_shell : Shell :=
  {| Shell_alpha := [1%R];
     Shell_contr := [{| contr_l := 0; contr_pure := false; contr_coeff := [1%R] |}];
     Shell_O := (0%R, 0%R, 0%R) |}.

Definition bare_shell : Shell :=
  {| Shell_alpha := [];
     Shell_contr := [{| contr_l := 0; contr_pure := false; contr_coeff := [] |}];
     Shell_O := (0%R, 0%R, 1%R) |}.

Definition toy_shells : list Shell := [s_shell; bare_shell].

Definition ao_toy : AOIntegrals :=
  {| basisSet_ := {| shells := toy_shells; nBasis := 2 |};
     molecule_ := {| atoms := [{| atomicNumber := 1; coord := (0%R, 0%R, 0%R) |}] |};
     nSQ_ := 4;
     orthoType_ := CHOLESKY;
     overlap := 1%positive;
     kinetic := 1%positive;
     potential := 1%positive;
     ortho1 := 1%positive;
     ortho2 := 1%positive;
     lenElecDipole := [];
     lenElecQuadrupole := [];
     lenElecOctupole := [];
     coreH := [] |}.

(** A basis of two shells the engine does not screen: a second s-type
    shell, with two primitives.  The stand-in engine below tells the
    operators and the pairs apart: the first component of a pair of shells
    with equally many primitives is [1], [2], [-5] for the overlap, the
    kinetic and the nuclear operator, that of another pair [1/2], [1],
    [-2]; component [k > 0] is the constant block [k]. *)
Definition s2_shell : Shell :=
  {| Shell_alpha := [1%R; 3%R];
     Shell_contr := [{| contr_l := 0; contr_pure := false; contr_coeff := [1%R; 1%R] |}];
     Shell_O := (0%R, 0%R, 1%R) |}.

Definition pair_shells : list Shell := [s_shell; s2_shell].

Definition pair_entry (op : Operator) (same : bool) : R :=
  match op, same with
  | Operator_emultipole3, true => 1%R
  | Operator_emultipole3, false => (1/2)%R
  | Operator_kinetic, true => 2%R
  | Operator_kinetic, false => 1%R
  | Operator_nuclear, true => (-5)%R
  | Operator_nuclear, false => (-2)%R
  end.

Definition pair_compute (op : Operator) (sh1 sh2 : Shell) : list (option (nat -> R)) :=
  match Shell_alpha sh1, Shell_alpha sh2 with
  | _ :: _, _ :: _ =>
      map (fun k => Some (fun _ : nat =>
                     match k with
                     | 0 => pair_entry op (length (Shell_alpha sh1)
                                           =? length (Shell_alpha sh2))
                     | S _ => INR k
                     end))
          (seq 0 (toy_results op))
  | _, _ => replicate (toy_results op) None
  end.

Definition pair_engine : Libint :=
  {| Engine := Operator;
     Engine_new := fun op _ _ _ => op;
     set_precision := fun e _ => e;
     set_params := fun e _ => e;
     results_size := toy_results;
     compute := pair_compute |}.

Definition ao_pair : AOIntegrals :=
  {| basisSet_ := {| shells := pair_shells; nBasis := 2 |};
     molecule_ := {| atoms := [{| atomicNumber := 1; coord := (0%R, 0%R, 0%R) |}] |};
     nSQ_ := 4;
     orthoType_ := CHOLESKY;
     overlap := 1%positive;
     kinetic := 1%positive;
     potential := 1%positive;
     ortho1 := 1%positive;
     ortho2 := 1%positive;
     lenElecDipole := [];
     lenElecQuadrupole := [];
     lenElecOctupole := [];
     coreH := [] |}.

(** Four threads and the four iterations of [H = T + V]: the chunk size
    is [2*4/4 = 2], thread 0 gets iterations 0 and 1, thread 1 gets 2 and
    3; one way the two may interleave. *)
Definition toy_order : list nat := [0; 2; 1; 3].

(** ** The [HartreeFock] constructors ([singleslater/hartreefock.hpp])

    The members the constructor bodies read and write ([nC], [iCS],
    [refLongName_], [refShortName_]) belong to the base classes, whose
    declarations are not part of the sources at hand; a reference is the
    record of these members, in the state the base-class constructors
    leave them in. *)
Record Reference : Type := {
  nC : nat;
  iCS : bool;
  refLongName_ : string;
  refShortName_ : string
}.

(** [HartreeFock(AOIntegrals &aoi, Args... args)] *)
Definition HartreeFock (base : Reference) : Reference :=
  (* Append HF tags to reference names *)
  if decide (nC base = 1) then
    if iCS base then
      {| nC := nC base; iCS := iCS base;
         refLongName_ := refLongName_ base +:+ "Restricted Hartree-Fock";
         refShortName_ := refShortName_ base +:+ "RHF" |}
    else
      {| nC := nC base; iCS := iCS base;
         refLongName_ := refLongName_ base +:+ "Unrestricted Hartree-Fock";
         refShortName_ := refShortName_ base +:+ "UHF" |}
  else
    {| nC := nC base; iCS := iCS base;
       refLongName_ := refLongName_ base +:+ "Generalized Hartree-Fock";
       refShortName_ := refShortName_ base +:+ "GHF" |}.

(** [HartreeFock(std::string rL, std::string rS, AOIntegrals &aoi,
    Args... args)]: allow for reference name specification. *)
Definition HartreeFock_named (rL rS : string) (base : Reference) : Reference :=
  {| nC := nC base; iCS := iCS base; refLongName_ := rL; refShortName_ := rS |}.

(** A restricted and an unrestricted reference whose base classes left the
    short name ["R"] (for a real wave function). *)
Definition ref_restricted : Reference :=
  {| nC := 1; iCS := true; refLongName_ := "Real "; refShortName_ := "R" |}.

Definition ref_unrestricted : Reference :=
  {| nC := 1; iCS := false; refLongName_ := "Real "; refShortName_ := "R" |}.

(** Two references of two components that differ in [iCS] only. *)
Definition ref_two_component (cs : bool) : Reference :=
  {| nC := 2; iCS := cs; refLongName_ := "Real "; refShortName_ := "R" |}.

(** * Properties *)

(** ** The computation monad *)

Lemma bind_Some {A B} (c : comp A) (k : A -> comp B) h a h' :
  c h = Some (a, h') -> bind c k h = k a h'.
Proof. intros E. unfold bind. now rewrite E. Qed.

Lemma bind_inv {A B} (c : comp A) (k : A -> comp B) h r :
  bind c k h = Some r ->
  exists a h', c h = Some (a, h') /\ k a h' = Some r.
Proof.
  unfold bind. destruct (c h) as [[a h']|] eqn:E; [|discriminate].
  intros Hk. now exists a, h'.
Qed.

Lemma for_list_app {K} (l1 l2 : list K) body h :
  for_list (l1 ++ l2) body h =
  match for_list l1 body h with
  | Some (_, h') => for_list l2 body h'
  | None => None
  end.
Proof.
  revert h. induction l1 as [|k l1 IH]; intros h; simpl; [reflexivity|].
  unfold bind. destruct (body k h) as [[[] h1]|]; [apply IH | reflexivity].
Qed.

(** A loop whose every iteration rewrites the one block [p]. *)
Lemma for_list_block {K} (p : loc) (P : list R -> Prop)
    (step : K -> list R -> list R) (l : list K) (body : K -> comp unit) (h0 : heap) :
  (forall k d, In k l -> P d ->
     body k (<[p := DBlock d]> h0) = Some (tt, <[p := DBlock (step k d)]> h0)
     /\ P (step k d)) ->
  forall d, P d ->
    for_list l body (<[p := DBlock d]> h0)
    = Some (tt, <[p := DBlock (fold_left (fun acc k => step k acc) l d)]> h0)
    /\ P (fold_left (fun acc k => step k acc) l d).
Proof.
  induction l as [|k l IH]; intros Hbody d Hd; simpl; [now split|].
  destruct (Hbody k d (or_introl eq_refl) Hd) as [E HP].
  rewrite (bind_Some _ _ _ _ _ E).
  apply IH; [|exact HP]. intros k' d' Hin. apply Hbody. now right.
Qed.

Lemma store_block p i x d (h0 : heap) :
  i < length d ->
  store p i x (<[p := DBlock d]> h0) = Some (tt, <[p := DBlock (<[i := x]> d)]> h0).
Proof.
  intros Hi. unfold store. rewrite lookup_insert_eq.
  destruct (decide (i < length d)); [|lia].
  now rewrite insert_insert_eq.
Qed.

Lemma load_block_same p i d (h0 : heap) :
  i < length d ->
  load p i (<[p := DBlock d]> h0) = Some (content d i, <[p := DBlock d]> h0).
Proof.
  intros Hi. unfold load. rewrite lookup_insert_eq.
  destruct (d !! i) as [x|] eqn:E.
  - unfold content. now rewrite (nth_lookup_Some _ _ _ _ E).
  - apply lookup_ge_None in E. lia.
Qed.

Lemma load_block_other p q i d s (h0 : heap) :
  q <> p -> h0 !! q = Some (DBlock s) -> i < length s ->
  load q i (<[p := DBlock d]> h0) = Some (content s i, <[p := DBlock d]> h0).
Proof.
  intros Hne Hq Hi. unfold load. rewrite lookup_insert_ne by congruence. rewrite Hq.
  destruct (s !! i) as [x|] eqn:E.
  - unfold content. now rewrite (nth_lookup_Some _ _ _ _ E).
  - apply lookup_ge_None in E. lia.
Qed.

(** ** Stores of a loop *)

Lemma length_writes {K} (idx : K -> nat) val l d :
  length (writes idx val l d) = length d.
Proof.
  unfold writes. revert d. induction l as [|k l IH]; intros d; simpl; [reflexivity|].
  rewrite IH. apply length_insert.
Qed.

Lemma content_insert_eq i x (d : list R) :
  i < length d -> content (<[i := x]> d) i = x.
Proof.
  intros Hi. unfold content. apply nth_lookup_Some with (d := 0%R).
  now apply list_lookup_insert_eq.
Qed.

Lemma content_insert_ne i i' x (d : list R) :
  i <> i' -> content (<[i := x]> d) i' = content d i'.
Proof.
  intros Hne. unfold content. rewrite !nth_lookup.
  now rewrite list_lookup_insert_ne.
Qed.

Lemma content_writes_other {K} (idx : K -> nat) val l d i :
  (forall k, In k l -> idx k <> i) ->
  content (writes idx val l d) i = content d i.
Proof.
  unfold writes. revert d. induction l as [|k l IH]; intros d Hl; simpl; [reflexivity|].
  rewrite IH by (intros k' Hk'; apply Hl; now right).
  apply content_insert_ne. apply Hl. now left.
Qed.

Lemma content_writes_hit {K} (idx : K -> nat) val l d k :
  In k l -> idx k < length d ->
  (forall k', In k' l -> idx k' = idx k -> val k' = val k) ->
  content (writes idx val l d) (idx k) = val k.
Proof.
  intros Hin Hlen. revert Hin.
  induction l as [|k0 l IH] using rev_ind; intros Hin Hval; [destruct Hin|].
  unfold writes. rewrite fold_left_app. simpl. fold (writes idx val l d).
  destruct (decide (idx k0 = idx k)) as [E|Hne].
  - rewrite E, content_insert_eq by now rewrite length_writes.
    apply Hval; [apply in_or_app; right; now left | exact E].
  - rewrite content_insert_ne by exact Hne.
    apply IH.
    + apply in_app_or in Hin as [Hin|[->|[]]]; [exact Hin | congruence].
    + intros k' Hk'. apply Hval. apply in_or_app. now left.
Qed.

Lemma fold_left_map_l {A B C} (f : A -> C -> A) (g : B -> C) l a :
  fold_left f (map g l) a = fold_left (fun acc x => f acc (g x)) l a.
Proof. revert a. induction l as [|x l IH]; intros a; simpl; [reflexivity | apply IH]. Qed.

Lemma fold_nest (idx : nat * nat -> nat) val n lo hi d :
  fold_left (fun acc j =>
    fold_left (fun acc' i => <[idx (j, i) := val (j, i)]> acc')
      (seq (lo j) (hi j - lo j)) acc) (seq 0 n) d
  = writes idx val (nest n lo hi) d.
Proof.
  unfold writes, nest. generalize (seq 0 n) as js. intros js. revert d.
  induction js as [|j js IH]; intros d; simpl; [reflexivity|].
  rewrite fold_left_app, fold_left_map_l. apply IH.
Qed.

Lemma in_nest n lo hi j i :
  In (j, i) (nest n lo hi) <-> j < n /\ lo j <= i < hi j.
Proof.
  unfold nest. rewrite in_flat_map. split.
  - intros (j' & Hj' & Hin). apply in_map_iff in Hin as (i' & E & Hi').
    inversion E; subst. apply in_seq in Hj', Hi'. lia.
  - intros [Hj Hi]. exists j. split; [apply in_seq; lia|].
    apply in_map_iff. exists i. split; [reflexivity | apply in_seq; lia].
Qed.

(** A single loop storing into block [p]. *)
Lemma for_range_block p (idx : nat -> nat) (val : nat -> R) lo hi
    (body : nat -> comp unit) (h0 : heap) d :
  (forall i d', lo <= i < hi -> length d' = length d ->
     body i (<[p := DBlock d']> h0)
     = Some (tt, <[p := DBlock (<[idx i := val i]> d')]> h0)) ->
  for_range lo hi body (<[p := DBlock d]> h0)
  = Some (tt, <[p := DBlock (writes idx val (seq lo (hi - lo)) d)]> h0).
Proof.
  intros Hbody. unfold for_range, writes.
  apply (for_list_block p (fun d' => length d' = length d)
           (fun i d' => <[idx i := val i]> d')); [|reflexivity].
  intros i d' Hin Hd'. apply in_seq in Hin. split.
  - apply Hbody; [lia | exact Hd'].
  - now rewrite length_insert.
Qed.

(** A loop nest storing into block [p]. *)
Lemma for_nest_block p (idx : nat * nat -> nat) (val : nat * nat -> R) n lo hi
    (body : nat -> nat -> comp unit) (h0 : heap) d :
  (forall j i d', j < n -> lo j <= i < hi j -> length d' = length d ->
     body j i (<[p := DBlock d']> h0)
     = Some (tt, <[p := DBlock (<[idx (j, i) := val (j, i)]> d')]> h0)) ->
  for_range 0 n (fun j => for_range (lo j) (hi j) (body j)) (<[p := DBlock d]> h0)
  = Some (tt, <[p := DBlock (writes idx val (nest n lo hi) d)]> h0).
Proof.
  intros Hbody. rewrite <- fold_nest. unfold for_range at 1. rewrite Nat.sub_0_r.
  apply (for_list_block p (fun d' => length d' = length d)
           (fun j d' => fold_left (fun acc' i => <[idx (j, i) := val (j, i)]> acc')
                          (seq (lo j) (hi j - lo j)) d')); [|reflexivity].
  intros j d' Hin Hd'. apply in_seq in Hin.
  pose proof (for_range_block p (fun i => idx (j, i)) (fun i => val (j, i))
                (lo j) (hi j) (body j) h0 d') as E.
  unfold writes in E. split.
  - apply E. intros i d'' Hi Hd''. apply Hbody; [lia | exact Hi | congruence].
  - fold (writes (fun i => idx (j, i)) (fun i => val (j, i)) (seq (lo j) (hi j - lo j)) d').
    now rewrite length_writes.
Qed.

(** ** Heap operations as equations *)

Lemma list_eq_content (d1 d2 : list R) :
  length d1 = length d2 ->
  (forall i, i < length d1 -> content d1 i = content d2 i) ->
  d1 = d2.
Proof.
  intros Hlen Hc. apply (nth_ext _ _ 0%R 0%R Hlen). exact Hc.
Qed.

Lemma content_replicate n x i : i < n -> content (replicate n x) i = x.
Proof.
  intros Hi. unfold content. apply nth_lookup_Some with (d := 0%R).
  now apply lookup_replicate_2.
Qed.

Lemma content_ge (d : list R) i : length d <= i -> content d i = 0%R.
Proof. intros Hi. unfold content. now apply nth_overflow. Qed.

Lemma content_take n (s : list R) i : i < n -> content (take n s) i = content s i.
Proof.
  intros Hi. unfold content. rewrite !nth_lookup. now rewrite lookup_take_lt.
Qed.

Lemma in_seq_id_ne lo len i k : In k (seq lo len) -> ~ (lo <= i < lo + len) -> k <> i.
Proof. intros Hin Hi ->. apply in_seq in Hin. lia. Qed.

Lemma writes_fill n x (d : list R) :
  length d = n ->
  writes (fun i => i) (fun _ => x) (seq 0 n) d = replicate n x.
Proof.
  intros Hlen. apply list_eq_content.
  - now rewrite length_writes, length_replicate.
  - intros i Hi. rewrite length_writes in Hi.
    rewrite content_replicate by lia.
    apply (content_writes_hit (fun i => i) (fun _ => x) (seq 0 n) d i);
      [apply in_seq; lia | lia | reflexivity].
Qed.

Lemma writes_copy n (s d : list R) :
  length d = n -> n <= length s ->
  writes (fun i => i) (content s) (seq 0 n) d = take n s.
Proof.
  intros Hlen Hs. apply list_eq_content.
  - rewrite length_writes, length_take. lia.
  - intros i Hi. rewrite length_writes in Hi.
    rewrite content_take by lia.
    apply (content_writes_hit (fun i => i) (content s) (seq 0 n) d i);
      [apply in_seq; lia | lia | now intros k' _ ->].
Qed.

Lemma heap_self (h : heap) p b : h !! p = Some b -> <[p := b]> h = h.
Proof. apply insert_id. Qed.

Lemma fill_n_eq p n x d (h : heap) :
  h !! p = Some (DBlock d) -> length d = n ->
  fill_n p n x h = Some (tt, <[p := DBlock (replicate n x)]> h).
Proof.
  intros Hp Hlen. rewrite <- (writes_fill n x d Hlen).
  rewrite <- (heap_self h p _ Hp) at 1. unfold fill_n.
  rewrite (for_range_block p (fun i => i) (fun _ => x) 0 n _ h d).
  - now rewrite Nat.sub_0_r.
  - intros i d' Hi Hd'. apply store_block. lia.
Qed.

Lemma copy_n_eq src dst n s d (h : heap) :
  h !! src = Some (DBlock s) -> h !! dst = Some (DBlock d) -> src <> dst ->
  length d = n -> n <= length s ->
  copy_n src n dst h = Some (tt, <[dst := DBlock (take n s)]> h).
Proof.
  intros Hs Hd Hne Hlen Hn. rewrite <- (writes_copy n s d Hlen Hn).
  rewrite <- (heap_self h dst _ Hd) at 1. unfold copy_n.
  rewrite (for_range_block dst (fun i => i) (content s) 0 n _ h d).
  - now rewrite Nat.sub_0_r.
  - intros i d' Hi Hd'.
    rewrite (bind_Some _ _ _ _ _ (load_block_other dst src i d' s h Hne Hs ltac:(lia))).
    apply store_block. lia.
Qed.

Lemma free_eq p b (h : heap) :
  h !! p = Some b -> free p h = Some (tt, delete p h).
Proof. intros Hp. unfold free. now rewrite Hp. Qed.

Lemma length_refill d f : length (refill d f) = length d.
Proof. unfold refill. now rewrite length_map, length_seq. Qed.

Lemma content_refill d f i : i < length d -> content (refill d f) i = f i.
Proof.
  intros Hi. unfold content, refill.
  rewrite (nth_indep _ 0%R (f 0)) by now rewrite length_map, length_seq.
  rewrite map_nth. now rewrite seq_nth.
Qed.

Lemma mat_fits_square n (a : list R) : length a = n * n -> mat_fits n n a n = true.
Proof. intros Ha. apply bool_decide_eq_true. lia. Qed.

Section Kernels.
Context `{LinAlg}.

Lemma length_potrf_list u n a lda : length (potrf_list u n a lda).2 = length a.
Proof.
  unfold potrf_list. destruct (potrf u n (content a) lda) as [info f]. apply length_refill.
Qed.

Lemma length_potri_list u n a lda : length (potri_list u n a lda).2 = length a.
Proof.
  unfold potri_list. destruct (potri u n (content a) lda) as [info f]. apply length_refill.
Qed.

Lemma Cholesky_eq u n A lda a (h : heap) :
  h !! A = Some (DBlock a) -> mat_fits n n a lda = true ->
  Cholesky u n A lda h
  = Some ((potrf_list u n a lda).1, <[A := DBlock (potrf_list u n a lda).2]> h).
Proof.
  intros HA Hfit. unfold Cholesky. rewrite HA, Hfit. now destruct (potrf_list u n a lda).
Qed.

Lemma CholeskyInv_eq u n A lda a (h : heap) :
  h !! A = Some (DBlock a) -> mat_fits n n a lda = true ->
  CholeskyInv u n A lda h
  = Some ((potri_list u n a lda).1, <[A := DBlock (potri_list u n a lda).2]> h).
Proof.
  intros HA Hfit. unfold CholeskyInv. rewrite HA, Hfit. now destruct (potri_list u n a lda).
Qed.

(** A buffer that is too small makes the kernels fault. *)
Lemma Cholesky_short u n A lda a (h : heap) :
  h !! A = Some (DBlock a) -> mat_fits n n a lda = false ->
  Cholesky u n A lda h = None.
Proof. intros HA Hfit. unfold Cholesky. now rewrite HA, Hfit. Qed.

End Kernels.

Lemma Gemm_eq ta tb m n k alpha A lda B ldb beta C ldc a b c (h : heap) :
  h !! A = Some (DBlock a) -> h !! B = Some (DBlock b) -> h !! C = Some (DBlock c) ->
  gemm_fits ta tb m n k a lda b ldb c ldc = true ->
  Gemm ta tb m n k alpha A lda B ldb beta C ldc h
  = Some (tt, <[C := DBlock (gemm_list ta tb m n k alpha a lda b ldb beta c ldc)]> h).
Proof.
  intros HA HB HC Hfit. unfold Gemm. now rewrite HA, HB, HC, Hfit.
Qed.

(** ** [Gemm] entry by entry *)

Lemma fold_left_ext_eq {A B} (f g : A -> B -> A) l a :
  (forall acc x, f acc x = g acc x) -> fold_left f l a = fold_left g l a.
Proof.
  intros E. revert a. induction l as [|x l IH]; intros a; simpl; [reflexivity|].
  now rewrite E, IH.
Qed.

Lemma gemm_list_writes ta tb m n k alpha a lda b ldb beta c ldc :
  gemm_list ta tb m n k alpha a lda b ldb beta c ldc
  = writes (fun ji => ji.2 + ji.1 * ldc)
      (fun ji => gemm_entry ta tb k alpha a lda b ldb beta c ldc ji.2 ji.1)
      (nest n (fun _ => 0) (fun _ => m)) c.
Proof.
  unfold gemm_list. rewrite <- fold_nest. simpl.
  apply fold_left_ext_eq. intros acc j. now rewrite Nat.sub_0_r.
Qed.

Lemma length_gemm_list ta tb m n k alpha a lda b ldb beta c ldc :
  length (gemm_list ta tb m n k alpha a lda b ldb beta c ldc) = length c.
Proof. rewrite gemm_list_writes. apply length_writes. Qed.

Lemma colmajor_inj ld i j i' j' :
  i < ld -> i' < ld -> i + j * ld = i' + j' * ld -> i = i' /\ j = j'.
Proof.
  intros Hi Hi' E.
  assert (j = j').
  { destruct (Nat.lt_trichotomy j j') as [Hlt|[Heq|Hgt]]; [|exact Heq|]; nia. }
  subst. lia.
Qed.

Lemma content_gemm_list ta tb m n k alpha a lda b ldb beta c ldc i j :
  i < m -> j < n -> m <= ldc -> ldc * n <= length c ->
  content (gemm_list ta tb m n k alpha a lda b ldb beta c ldc) (i + j * ldc)
  = gemm_entry ta tb k alpha a lda b ldb beta c ldc i j.
Proof.
  intros Hi Hj Hm Hc. rewrite gemm_list_writes.
  apply (content_writes_hit (fun ji => ji.2 + ji.1 * ldc)
           (fun ji => gemm_entry ta tb k alpha a lda b ldb beta c ldc ji.2 ji.1)
           _ c (j, i)).
  - apply in_nest. lia.
  - simpl. nia.
  - intros [j' i'] Hin E. apply in_nest in Hin. simpl in *.
    destruct (colmajor_inj ldc i' j' i j) as [-> ->]; [lia | lia | exact E | reflexivity].
Qed.

Ltac heap_lookup :=
  repeat first [ rewrite lookup_insert_eq | rewrite lookup_insert_ne by congruence ];
  try eassumption; try reflexivity.

Section CholBranch.
Context `{LinAlg}.

Lemma computeOrtho_cholesky_eq ao SCR1 (h : heap) S :
  let n := nBasis (basisSet_ ao) in
  h !! SCR1 = Some (DBlock S) -> length S = n * n ->
  h !! ortho1 ao = Some (DBlock (replicate (n * n) 0%R)) ->
  h !! ortho2 ao = Some (DBlock (replicate (n * n) 0%R)) ->
  ortho1 ao <> ortho2 ao -> ortho1 ao <> SCR1 -> ortho2 ao <> SCR1 ->
  computeOrtho_cholesky ao SCR1 h
  = Some (tt, <[ortho1 ao := DBlock (cholesky_ortho1 n S)]>
                (<[SCR1 := DBlock (chol_inverse n S)]>
                   (<[ortho2 ao := DBlock (cholesky_ortho2 n S)]>
                      (<[SCR1 := DBlock (chol_factor n S)]> h)))).
Proof.
  intros n HS HlenS H1 H2 N12 N1S N2S. unfold computeOrtho_cholesky. fold n.
  rewrite (bind_Some _ _ _ _ _ (Cholesky_eq "L" n SCR1 n S h HS
             (mat_fits_square n S HlenS))).
  fold (chol_factor n S).
  set (h1 := <[SCR1 := DBlock (chol_factor n S)]> h).
  assert (E2 : for_range 0 n (fun j => for_range j n (fun i =>
            x <- load SCR1 (i + j * n) ;; store (ortho2 ao) (i + j * n) x)) h1
          = Some (tt, <[ortho2 ao := DBlock (cholesky_ortho2 n S)]> h1)).
  { rewrite <- (heap_self h1 (ortho2 ao) (DBlock (replicate (n * n) 0%R))) at 1
      by (subst h1; heap_lookup).
    apply (for_nest_block (ortho2 ao) (fun ji => ji.2 + ji.1 * n)
             (fun ji => content (chol_factor n S) (ji.2 + ji.1 * n))
             n (fun j => j) (fun _ => n)).
    intros j i d' Hj Hi Hd'. rewrite length_replicate in Hd'. simpl.
    assert (i + j * n < n * n) by nia.
    rewrite (bind_Some _ _ _ _ _
      (load_block_other (ortho2 ao) SCR1 (i + j * n) d' (chol_factor n S) h1
         ltac:(congruence) ltac:(subst h1; heap_lookup)
         ltac:(unfold chol_factor; rewrite length_potrf_list; lia))).
    apply store_block. lia. }
  rewrite (bind_Some _ _ _ _ _ E2).
  set (h2 := <[ortho2 ao := DBlock (cholesky_ortho2 n S)]> h1).
  rewrite (bind_Some _ _ _ _ _ (CholeskyInv_eq "L" n SCR1 n (chol_factor n S) h2
             ltac:(subst h2 h1; heap_lookup)
             ltac:(apply mat_fits_square; unfold chol_factor;
                   now rewrite length_potrf_list))).
  fold (chol_inverse n S).
  set (h3 := <[SCR1 := DBlock (chol_inverse n S)]> h2).
  assert (Hlen2 : length (cholesky_ortho2 n S) = n * n).
  { unfold cholesky_ortho2. now rewrite length_writes, length_replicate. }
  assert (HlenI : length (chol_inverse n S) = n * n).
  { unfold chol_inverse, chol_factor. now rewrite length_potri_list, length_potrf_list. }
  rewrite (bind_Some _ _ _ _ _
    (Gemm_eq "T" "N" n n n 1%R (ortho2 ao) n SCR1 n 0%R (ortho1 ao) n
       (cholesky_ortho2 n S) (chol_inverse n S) (replicate (n * n) 0%R) h3
       ltac:(subst h3 h2; heap_lookup) ltac:(subst h3; heap_lookup)
       ltac:(subst h3 h2 h1; heap_lookup)
       ltac:(unfold gemm_fits; simpl; apply bool_decide_eq_true;
             rewrite Hlen2, HlenI, length_replicate; lia))).
  set (g := gemm_list _ _ _ _ _ _ _ _ _ _ _ _ _).
  rewrite (for_nest_block (ortho1 ao) (fun ji => ji.2 + ji.1 * n) (fun _ => 0%R)
             n (fun _ => 0) (fun j => j) _ h3 g).
  - reflexivity.
  - intros j i d' Hj Hi Hd'. simpl. apply store_block.
    subst g. rewrite length_gemm_list, length_replicate in Hd'. nia.
Qed.
End CholBranch.

Section Ortho.
Context `{Allocator} `{LinAlg}.

Lemma malloc_double_eq n (h : heap) :
  malloc_double n h
  = Some (fresh (dom h), <[fresh (dom h) := DBlock (map (uninit (fresh (dom h))) (seq 0 n))]> h).
Proof. reflexivity. Qed.

Lemma fresh_None (h : heap) : h !! fresh (dom h) = None.
Proof. apply not_elem_of_dom. apply (is_fresh (dom h)). Qed.

Lemma computeOrtho_eq_locs ao (h : heap) S :
  let n := nBasis (basisSet_ ao) in
  let o1 := (ortho_locs (n * n) h).1 in
  let o2 := (ortho_locs (n * n) h).2 in
  h !! overlap ao = Some (DBlock S) -> nSQ_ ao = n * n -> n * n <= length S ->
    h !! o1 = None /\ h !! o2 = None /\ o1 <> o2 /\
    computeOrtho ao h
    = Some (set_orthoType (set_ortho ao o1 o2) CHOLESKY,
            <[o1 := DBlock (cholesky_ortho1 n (take (n * n) S))]>
              (<[o2 := DBlock (cholesky_ortho2 n (take (n * n) S))]> h)).
Proof.
  intros n o1' o2' HS HnSQ HlenS. subst o1' o2'. unfold ortho_locs. cbn [fst snd].
  set (o1 := fresh (dom h)).
  set (h1 := <[o1 := DBlock (map (uninit o1) (seq 0 (n * n)))]> h).
  set (o2 := fresh (dom h1)).
  set (h2 := <[o2 := DBlock (map (uninit o2) (seq 0 (n * n)))]> h1).
  assert (F1 : h !! o1 = None) by apply fresh_None.
  assert (F2 : h1 !! o2 = None) by apply fresh_None.
  assert (N12 : o1 <> o2).
  { intros E. subst h1. rewrite <- E, lookup_insert_eq in F2. discriminate. }
  assert (F2' : h !! o2 = None).
  { subst h1. now rewrite lookup_insert_ne in F2 by exact N12. }
  repeat split; try assumption.
  unfold computeOrtho. rewrite HnSQ.
  rewrite (bind_Some _ _ _ _ _ (malloc_double_eq (n * n) h)). fold o1 h1.
  rewrite (bind_Some _ _ _ _ _ (malloc_double_eq (n * n) h1)). fold o2 h2.
  cbn [ortho1 ortho2 set_ortho nSQ_ overlap orthoType_ set_orthoType].
  rewrite !HnSQ.
  rewrite (bind_Some _ _ _ _ _ (fill_n_eq o1 (n * n) 0%R _ h2
     ltac:(subst h2 h1; heap_lookup) ltac:(now rewrite length_map, length_seq))).
  set (h3 := <[o1 := _]> h2).
  rewrite (bind_Some _ _ _ _ _ (fill_n_eq o2 (n * n) 0%R _ h3
     ltac:(subst h3 h2 h1; heap_lookup) ltac:(now rewrite length_map, length_seq))).
  set (h4 := <[o2 := _]> h3).
  rewrite (bind_Some _ _ _ _ _ (malloc_double_eq (n * n) h4)).
  set (SCR1 := fresh (dom h4)).
  set (h5 := <[SCR1 := _]> h4).
  assert (F3 : h4 !! SCR1 = None) by apply fresh_None.
  assert (NS1 : o1 <> SCR1).
  { intros E. subst h4 h3. rewrite <- E in F3.
    rewrite lookup_insert_ne, lookup_insert_eq in F3 by congruence. discriminate. }
  assert (NS2 : o2 <> SCR1).
  { intros E. subst h4. rewrite <- E, lookup_insert_eq in F3. discriminate. }
  assert (FS : h !! SCR1 = None).
  { subst h4 h3 h2 h1. now rewrite !lookup_insert_ne in F3 by congruence. }
  assert (NSO : overlap ao <> SCR1) by (intros E; rewrite E in HS; congruence).
  assert (NO1 : overlap ao <> o1) by (intros E; rewrite E in HS; congruence).
  assert (NO2 : overlap ao <> o2) by (intros E; rewrite E in HS; congruence).
  rewrite (bind_Some _ _ _ _ _ (copy_n_eq (overlap ao) SCR1 (n * n) S _ h5
     ltac:(subst h5 h4 h3 h2 h1; heap_lookup) ltac:(subst h5; heap_lookup)
     NSO ltac:(now rewrite length_map, length_seq) HlenS)).
  set (h6 := <[SCR1 := _]> h5).
  set (S' := take (n * n) S).
  assert (HlenS' : length S' = n * n) by (subst S'; rewrite length_take; lia).
  rewrite (bind_Some _ _ _ _ _
    (computeOrtho_cholesky_eq (set_orthoType (set_ortho ao o1 o2) CHOLESKY) SCR1 h6 S'
       ltac:(subst h6; heap_lookup) HlenS'
       ltac:(subst h6 h5 h4 h3; cbn [ortho1 set_orthoType set_ortho]; heap_lookup)
       ltac:(subst h6 h5 h4; cbn [ortho2 set_orthoType set_ortho]; heap_lookup)
       N12 NS1 NS2)).
  cbn [ortho1 ortho2 set_ortho set_orthoType basisSet_]. fold n.
  set (h7 := <[o1 := _]> (<[SCR1 := _]> _)).
  rewrite (bind_Some _ _ _ _ _ (free_eq SCR1 (DBlock (chol_inverse n S')) h7
             ltac:(subst h7; heap_lookup))).
  unfold ret. do 2 f_equal. subst h7.
  apply map_eq. intros q.
  destruct (decide (q = SCR1)) as [->|NqS].
  - rewrite lookup_delete_eq. now rewrite !lookup_insert_ne by congruence.
  - rewrite lookup_delete_ne by congruence.
    destruct (decide (q = o1)) as [->|Nq1]; [now rewrite !lookup_insert_eq|].
    rewrite !(lookup_insert_ne _ o1) by congruence.
    rewrite (lookup_insert_ne _ SCR1) by congruence.
    destruct (decide (q = o2)) as [->|Nq2]; [now rewrite !lookup_insert_eq|].
    subst h6 h5 h4 h3 h2 h1. now rewrite !lookup_insert_ne by congruence.
Qed.
Lemma computeOrtho_eq ao (h : heap) S :
  let n := nBasis (basisSet_ ao) in
  h !! overlap ao = Some (DBlock S) -> nSQ_ ao = n * n -> n * n <= length S ->
  exists o1 o2,
    h !! o1 = None /\ h !! o2 = None /\ o1 <> o2 /\
    computeOrtho ao h
    = Some (set_orthoType (set_ortho ao o1 o2) CHOLESKY,
            <[o1 := DBlock (cholesky_ortho1 n (take (n * n) S))]>
              (<[o2 := DBlock (cholesky_ortho2 n (take (n * n) S))]> h)).
Proof.
  intros n HS HnSQ HlenS.
  exists (ortho_locs (n * n) h).1, (ortho_locs (n * n) h).2.
  now apply computeOrtho_eq_locs.
Qed.

End Ortho.

(** ** Footprints of the operations *)

Lemma touches_weaken {A} (X Y : loc -> Prop) (c : comp A) :
  (forall p, X p -> Y p) -> touches_only X c -> touches_only Y c.
Proof. intros HXY Hc h a h' E p Hp. apply (Hc h a h' E). auto. Qed.

Lemma touches_ret {A} X (a : A) : touches_only X (ret a).
Proof. intros h a' h' E p _. unfold ret in E. now inversion E. Qed.

Lemma touches_lift {A} X (o : option A) : touches_only X (lift o).
Proof. intros h a h' E p _. unfold lift in E. destruct o; now inversion E. Qed.

Lemma touches_fault {A} X : touches_only X (@fault A).
Proof. intros h a h' E. discriminate. Qed.

Lemma touches_bind {A B} X (c : comp A) (k : A -> comp B) :
  touches_only X c -> (forall a, touches_only X (k a)) -> touches_only X (bind c k).
Proof.
  intros Hc Hk h b h' E p Hp.
  apply bind_inv in E as (a & h1 & E1 & E2).
  rewrite (Hk a h1 b h' E2 p Hp). apply (Hc h a h1 E1 p Hp).
Qed.

Lemma touches_for_list {K} X (l : list K) body :
  (forall k, In k l -> touches_only X (body k)) -> touches_only X (for_list l body).
Proof.
  induction l as [|k l IH]; intros Hb; simpl.
  - apply touches_ret.
  - apply touches_bind; [apply Hb; now left|].
    intros _. apply IH. intros k' Hk'. apply Hb. now right.
Qed.

Lemma touches_for_range X lo hi body :
  (forall i, lo <= i < hi -> touches_only X (body i)) ->
  touches_only X (for_range lo hi body).
Proof.
  intros Hb. apply touches_for_list. intros i Hi. apply in_seq in Hi. apply Hb. lia.
Qed.

Lemma touches_load X p i : touches_only X (load p i).
Proof.
  intros h a h' E q _. unfold load in E.
  destruct (h !! p) as [[d|z]|]; try discriminate.
  destruct (d !! i); now inversion E.
Qed.

Lemma touches_store (X : loc -> Prop) p i x : X p -> touches_only X (store p i x).
Proof.
  intros HX h a h' E q Hq. unfold store in E.
  destruct (h !! p) as [[d|z]|]; try discriminate.
  destruct (decide (i < length d)); inversion E; subst.
  apply lookup_insert_ne. congruence.
Qed.

Lemma touches_fill_n (X : loc -> Prop) p n x : X p -> touches_only X (fill_n p n x).
Proof. intros HX. apply touches_for_range. intros i _. now apply touches_store. Qed.

Lemma touches_copy_n (X : loc -> Prop) src n dst :
  X dst -> touches_only X (copy_n src n dst).
Proof.
  intros HX. apply touches_for_range. intros i _.
  apply touches_bind; [apply touches_load | intros v; now apply touches_store].
Qed.

Lemma touches_free (X : loc -> Prop) p : X p -> touches_only X (free p).
Proof.
  intros HX h a h' E q Hq. unfold free in E.
  destruct (h !! p); inversion E; subst. apply lookup_delete_ne. congruence.
Qed.

Lemma touches_Gemm (X : loc -> Prop) ta tb m n k alpha A lda B ldb beta C ldc :
  X C -> touches_only X (Gemm ta tb m n k alpha A lda B ldb beta C ldc).
Proof.
  intros HX h a h' E q Hq. unfold Gemm in E.
  destruct (h !! A) as [[da|?]|]; try discriminate.
  destruct (h !! B) as [[db|?]|]; try discriminate.
  destruct (h !! C) as [[dc|?]|]; try discriminate.
  destruct (gemm_fits _ _ _ _ _ _ _ _ _ _ _); inversion E; subst.
  apply lookup_insert_ne. congruence.
Qed.

Section KernelFootprints.
Context `{LinAlg}.

Lemma touches_Cholesky (X : loc -> Prop) u n A lda :
  X A -> touches_only X (Cholesky u n A lda).
Proof.
  intros HX h a h' E q Hq. unfold Cholesky in E.
  destruct (h !! A) as [[d|?]|]; try discriminate.
  destruct (mat_fits n n d lda); [|discriminate].
  destruct (potrf_list u n d lda). inversion E; subst.
  apply lookup_insert_ne. congruence.
Qed.

Lemma touches_CholeskyInv (X : loc -> Prop) u n A lda :
  X A -> touches_only X (CholeskyInv u n A lda).
Proof.
  intros HX h a h' E q Hq. unfold CholeskyInv in E.
  destruct (h !! A) as [[d|?]|]; try discriminate.
  destruct (mat_fits n n d lda); [|discriminate].
  destruct (potri_list u n d lda). inversion E; subst.
  apply lookup_insert_ne. congruence.
Qed.

Lemma touches_computeOrtho_cholesky ao SCR1 :
  touches_only (fun p => p = ortho1 ao \/ p = ortho2 ao \/ p = SCR1)
    (computeOrtho_cholesky ao SCR1).
Proof.
  unfold computeOrtho_cholesky.
  apply touches_bind; [apply touches_Cholesky; auto | intros _].
  apply touches_bind.
  { apply touches_for_range. intros j _. apply touches_for_range. intros i _.
    apply touches_bind; [apply touches_load | intros x; apply touches_store; auto]. }
  intros _. apply touches_bind; [apply touches_CholeskyInv; auto | intros _].
  apply touches_bind; [apply touches_Gemm; auto | intros _].
  apply touches_for_range. intros j _. apply touches_for_range. intros i _.
  apply touches_store; auto.
Qed.

End KernelFootprints.

Section Alloc.
Context `{Allocator}.

Lemma malloc_double_inv n (h : heap) p h' :
  malloc_double n h = Some (p, h') ->
  h !! p = None /\ forall q, q <> p -> h' !! q = h !! q.
Proof.
  rewrite malloc_double_eq. intros E. inversion E; subst. split.
  - apply fresh_None.
  - intros q Hq. apply lookup_insert_ne. congruence.
Qed.

End Alloc.

Section Frame.
Context `{Allocator} `{LinAlg}.

(** [computeOrtho] allocates its two result buffers, records them and the
    type [CHOLESKY] in the object, and leaves every block that is live
    when it starts as it finds it. *)
Lemma computeOrtho_frame ao (h : heap) ao' h' :
  computeOrtho ao h = Some (ao', h') ->
  (exists o1 o2, ao' = set_orthoType (set_ortho ao o1 o2) CHOLESKY) /\
  (h !! ortho1 ao' = None /\ h !! ortho2 ao' = None) /\
  forall p b, h !! p = Some b -> h' !! p = Some b.
Proof.
  intros E. unfold computeOrtho in E.
  apply bind_inv in E as (o1 & h1 & E1 & E).
  apply bind_inv in E as (o2 & h2 & E2 & E).
  cbn [ortho1 ortho2 set_ortho nSQ_ overlap orthoType_ set_orthoType] in E.
  apply bind_inv in E as ([] & h3 & E3 & E).
  apply bind_inv in E as ([] & h4 & E4 & E).
  apply bind_inv in E as (SCR1 & h5 & E5 & E).
  apply bind_inv in E as ([] & h6 & E6 & E).
  apply bind_inv in E as ([] & h7 & E7 & E).
  apply bind_inv in E as ([] & h8 & E8 & E).
  unfold ret in E. inversion E; subst ao' h'. clear E.
  apply malloc_double_inv in E1 as [F1 K1].
  apply malloc_double_inv in E2 as [F2 K2].
  apply malloc_double_inv in E5 as [F5 K5].
  cbn [ortho1 ortho2 set_ortho set_orthoType].
  split; [now exists o1, o2|].
  split.
  { split; [exact F1|].
    destruct (decide (o2 = o1)) as [->|N]; [exact F1 | now rewrite <- K1]. }
  intros p b Hp.
  assert (N1 : p <> o1) by congruence.
  assert (P1 : h1 !! p = Some b) by (rewrite K1; assumption).
  assert (N2 : p <> o2) by congruence.
  assert (P2 : h2 !! p = Some b) by (rewrite K2; assumption).
  assert (P3 : h3 !! p = Some b).
  { rewrite (touches_fill_n (fun q => q = o1) o1 _ _ eq_refl _ _ _ E3 p N1). exact P2. }
  assert (P4 : h4 !! p = Some b).
  { rewrite (touches_fill_n (fun q => q = o2) o2 _ _ eq_refl _ _ _ E4 p N2). exact P3. }
  assert (N5 : p <> SCR1) by congruence.
  assert (P5 : h5 !! p = Some b) by (rewrite K5; assumption).
  assert (P6 : h6 !! p = Some b).
  { rewrite (touches_copy_n (fun q => q = SCR1) _ _ SCR1 eq_refl _ _ _ E6 p N5).
    exact P5. }
  assert (P7 : h7 !! p = Some b).
  { rewrite (touches_computeOrtho_cholesky _ SCR1 _ _ _ E7 p); [exact P6|].
    cbn [ortho1 ortho2 set_ortho set_orthoType]. intros [?|[?|?]]; congruence. }
  rewrite (touches_free (fun q => q = SCR1) SCR1 eq_refl _ _ _ E8 p N5). exact P7.
Qed.


(** C10.  [computeOrtho] leaves every block that is live when it starts
    as it finds it: the overlap it reads, and with it the kinetic,
    potential and core-Hamiltonian buffers, hold the same values after
    the call as before; all its work goes to storage it allocates, the two
    result buffers included. *)
Theorem computeOrtho_preserves_live_blocks ao (h : heap) ao' h' :
  computeOrtho ao h = Some (ao', h') ->
  (overlap ao' = overlap ao /\ kinetic ao' = kinetic ao /\
   potential ao' = potential ao /\ coreH ao' = coreH ao) /\
  (h !! ortho1 ao' = None /\ h !! ortho2 ao' = None) /\
  (forall p b, h !! p = Some b -> h' !! p = Some b) /\
  (forall p d, In p (overlap ao :: kinetic ao :: potential ao :: coreH ao) ->
     buffer h p = Some d -> buffer h' p = Some d).
Proof.
  intros E.
  destruct (computeOrtho_frame ao h ao' h' E) as ((o1 & o2 & ->) & Hnew & Hkeep).
  split; [now repeat split|]. split; [exact Hnew|]. split; [exact Hkeep|].
  intros p d _ Hd. unfold buffer in *.
  destruct (h !! p) as [[d0|z]|] eqn:Hp; try discriminate.
  now rewrite (Hkeep p _ Hp).
Qed.

End Frame.

(** ** Sums and matrix products *)

Lemma Rsum_ext n f g :
  (forall k, k < n -> f k = g k) -> Rsum n f = Rsum n g.
Proof.
  induction n as [|n IH]; intros E; simpl; [reflexivity|].
  rewrite IH by (intros k Hk; apply E; lia). now rewrite E by lia.
Qed.

Lemma Rsum_zero n f : (forall k, k < n -> f k = 0%R) -> Rsum n f = 0%R.
Proof.
  induction n as [|n IH]; intros E; simpl; [reflexivity|].
  rewrite IH by (intros k Hk; apply E; lia). rewrite E by lia. lra.
Qed.

Lemma Rsum_plus n f g :
  Rsum n (fun k => f k + g k)%R = (Rsum n f + Rsum n g)%R.
Proof. induction n as [|n IH]; simpl; [lra | rewrite IH; lra]. Qed.

Lemma Rsum_minus n f g :
  Rsum n (fun k => f k - g k)%R = (Rsum n f - Rsum n g)%R.
Proof. induction n as [|n IH]; simpl; [lra | rewrite IH; lra]. Qed.

Lemma Rsum_scal_l n c f :
  Rsum n (fun k => c * f k)%R = (c * Rsum n f)%R.
Proof. induction n as [|n IH]; simpl; [lra | rewrite IH; lra]. Qed.

Lemma Rsum_scal_r n c f :
  Rsum n (fun k => f k * c)%R = (Rsum n f * c)%R.
Proof. induction n as [|n IH]; simpl; [lra | rewrite IH; lra]. Qed.

Lemma Rsum_swap n m (f : nat -> nat -> R) :
  Rsum n (fun i => Rsum m (fun j => f i j))
  = Rsum m (fun j => Rsum n (fun i => f i j)).
Proof.
  induction n as [|n IH]; simpl.
  - symmetry. now apply Rsum_zero.
  - rewrite IH. now rewrite <- Rsum_plus.
Qed.

Lemma Rsum_single n f k :
  k < n -> (forall m, m < n -> m <> k -> f m = 0%R) -> Rsum n f = f k.
Proof.
  induction n as [|n IH]; intros Hk E; [lia|]. simpl.
  destruct (decide (k = n)) as [->|Hne].
  - rewrite Rsum_zero by (intros m Hm; apply E; lia). lra.
  - rewrite IH by (try lia; intros m Hm Hmk; apply E; lia).
    rewrite (E n) by lia. lra.
Qed.

Lemma mmul_assoc n X Y Z i j :
  mmul n (mmul n X Y) Z i j = mmul n X (mmul n Y Z) i j.
Proof.
  unfold mmul.
  rewrite (Rsum_ext n _ (fun k => Rsum n (fun l => X i l * Y l k * Z k j)%R))
    by (intros k _; now rewrite Rsum_scal_r).
  rewrite Rsum_swap. apply Rsum_ext. intros l _.
  rewrite <- Rsum_scal_l. apply Rsum_ext. intros k _. lra.
Qed.

Lemma mmul_ext_r n X Y Y' i j :
  (forall k, k < n -> Y k j = Y' k j) -> mmul n X Y i j = mmul n X Y' i j.
Proof. intros E. unfold mmul. apply Rsum_ext. intros k Hk. now rewrite E. Qed.

Lemma mmul_ext_l n X X' Y i j :
  (forall k, k < n -> X i k = X' i k) -> mmul n X Y i j = mmul n X' Y i j.
Proof. intros E. unfold mmul. apply Rsum_ext. intros k Hk. now rewrite E. Qed.

Lemma mmul_ident_r n X i j : j < n -> mmul n X mident i j = X i j.
Proof.
  intros Hj. unfold mmul.
  rewrite (Rsum_single n _ j Hj).
  - unfold mident. destruct (decide (j = j)); [lra | congruence].
  - intros m _ Hm. unfold mident. destruct (decide (m = j)); [congruence | lra].
Qed.

Lemma mmul_ident_l n X i j : i < n -> mmul n mident X i j = X i j.
Proof.
  intros Hi. unfold mmul.
  rewrite (Rsum_single n _ i Hi).
  - unfold mident. destruct (decide (i = i)); [lra | congruence].
  - intros m _ Hm. unfold mident. destruct (decide (i = m)); [congruence | lra].
Qed.

(** A lower-triangular [L] with non-zero diagonal cancels on the right
    in its transposed form: [Y * L^T = Z * L^T] gives [Y = Z]. *)
Lemma cancel_trans_lower n L Y Z :
  (forall i j, i < j -> L i j = 0%R) ->
  (forall i, i < n -> L i i <> 0%R) ->
  meq n (mmul n Y (mtrans L)) (mmul n Z (mtrans L)) ->
  meq n Y Z.
Proof.
  intros Htri Hdiag E i k Hi Hk. revert Hk.
  induction k as [k IH] using lt_wf_ind. intros Hk.
  specialize (E i k Hi Hk). unfold mmul, mtrans in E.
  assert (D : Rsum n (fun m => (Y i m - Z i m) * L k m)%R = 0%R).
  { rewrite (Rsum_ext n _ (fun m => Y i m * L k m - Z i m * L k m)%R)
      by (intros; lra).
    rewrite Rsum_minus. lra. }
  rewrite (Rsum_single n _ k Hk) in D.
  - specialize (Hdiag k Hk). nra.
  - intros m Hm Hmk. destruct (Nat.lt_trichotomy m k) as [Hlt|[->|Hgt]]; [|congruence|].
    + rewrite (IH m Hlt Hm). lra.
    + rewrite (Htri k m Hgt). lra.
Qed.

(** A left inverse of such an [L] is lower-triangular as well. *)
Lemma left_inverse_lower n L X :
  (forall i j, i < j -> L i j = 0%R) ->
  (forall i, i < n -> L i i <> 0%R) ->
  meq n (mmul n X L) mident ->
  forall i j, i < j -> j < n -> X i j = 0%R.
Proof.
  intros Htri Hdiag E i j Hij Hj.
  remember (n - j) as t eqn:Ht. revert j Hij Hj Ht.
  induction t as [t IH] using lt_wf_ind. intros j Hij Hj Ht.
  pose proof (E i j ltac:(lia) Hj) as Eij. unfold mmul in Eij.
  rewrite (Rsum_single n _ j Hj) in Eij.
  - unfold mident in Eij. destruct (decide (i = j)); [lia|].
    specialize (Hdiag j Hj). nra.
  - intros m Hm Hmj. destruct (Nat.lt_trichotomy m j) as [Hlt|[->|Hgt]]; [|congruence|].
    + rewrite (Htri m j Hlt). lra.
    + rewrite (IH (n - m) ltac:(lia) m ltac:(lia) Hm eq_refl). lra.
Qed.

(** ** The entries of the Cholesky pair *)

Section CholEntries.
Context `{LinAlg}.

Lemma length_cholesky_ortho2 n S : length (cholesky_ortho2 n S) = n * n.
Proof. unfold cholesky_ortho2. now rewrite length_writes, length_replicate. Qed.

Lemma length_cholesky_ortho1 n S : length (cholesky_ortho1 n S) = n * n.
Proof.
  unfold cholesky_ortho1. now rewrite length_writes, length_gemm_list, length_replicate.
Qed.

Lemma entry_cholesky_ortho2 n S i j :
  i < n -> j < n ->
  entry n (cholesky_ortho2 n S) i j
  = if decide (j <= i) then entry n (chol_factor n S) i j else 0%R.
Proof.
  intros Hi Hj. unfold entry, cholesky_ortho2.
  destruct (decide (j <= i)) as [Hle|Hgt].
  - apply (content_writes_hit (fun ji => ji.2 + ji.1 * n)
             (fun ji => content (chol_factor n S) (ji.2 + ji.1 * n)) _ _ (j, i)).
    + apply in_nest. lia.
    + rewrite length_replicate. simpl. nia.
    + intros [j' i'] Hin E. simpl in *. now rewrite E.
  - rewrite content_writes_other.
    + apply content_replicate. nia.
    + intros [j' i'] Hin E. apply in_nest in Hin. simpl in E.
      destruct (colmajor_inj n i' j' i j) as [-> ->]; [lia | lia | exact E | lia].
Qed.

Lemma entry_cholesky_ortho1 n S i j :
  i < n -> j < n ->
  entry n (cholesky_ortho1 n S) i j
  = if decide (j <= i)
    then mmul n (mtrans (entry n (cholesky_ortho2 n S))) (entry n (chol_inverse n S)) i j
    else 0%R.
Proof.
  intros Hi Hj. unfold entry at 1. unfold cholesky_ortho1.
  destruct (decide (j <= i)) as [Hle|Hgt].
  - rewrite content_writes_other.
    + rewrite content_gemm_list by (rewrite ?length_replicate; lia).
      unfold gemm_entry, gemm_opA, gemm_opB, mmul, mtrans, entry. simpl.
      rewrite content_replicate by nia. lra.
    + intros [j' i'] Hin E. apply in_nest in Hin. simpl in E.
      destruct (colmajor_inj n i' j' i j) as [-> ->]; [lia | lia | exact E | lia].
  - apply (content_writes_hit (fun ji => ji.2 + ji.1 * n) (fun _ => 0%R) _ _ (j, i)).
    + apply in_nest. lia.
    + rewrite length_gemm_list, length_replicate. simpl. nia.
    + reflexivity.
Qed.

(** With the kernels' results on [S] being the factor [L] and the inverse
    [Sinv], the pair is [L] and the lower triangle of [L^T * Sinv]. *)
Lemma cholesky_pair_entries n S L Sinv :
  (forall i j, i < j -> L i j = 0%R) ->
  lower_holds n (chol_factor n S) L ->
  lower_holds n (chol_inverse n S) Sinv ->
  forall i j, i < n -> j < n ->
    entry n (cholesky_ortho2 n S) i j = L i j /\
    entry n (cholesky_ortho1 n S) i j
    = if decide (j <= i) then mmul n (mtrans L) Sinv i j else 0%R.
Proof.
  intros Htri HL HI.
  assert (E2 : forall i j, i < n -> j < n -> entry n (cholesky_ortho2 n S) i j = L i j).
  { intros i j Hi Hj. rewrite entry_cholesky_ortho2 by assumption.
    destruct (decide (j <= i)); [now apply HL | symmetry; apply Htri; lia]. }
  intros i j Hi Hj. split; [now apply E2|].
  rewrite entry_cholesky_ortho1 by assumption.
  destruct (decide (j <= i)) as [Hle|]; [|reflexivity].
  unfold mmul, mtrans. apply Rsum_ext. intros k Hk.
  rewrite E2 by assumption.
  destruct (decide (i <= k)) as [Hik|Hik].
  - rewrite HI by lia. reflexivity.
  - rewrite (Htri k i) by lia. lra.
Qed.

(** The product [L^T * Sinv] is the inverse of [L], so it is
    lower-triangular by itself and the pair multiplies to the identity. *)
Lemma cholesky_pair_inverse n A L Sinv :
  cholesky_factor_of n A L -> inverse_of n A Sinv ->
  meq n (mmul n (mmul n (mtrans L) Sinv) L) mident /\
  forall i j, i < j -> j < n -> mmul n (mtrans L) Sinv i j = 0%R.
Proof.
  intros (Htri & Hpos & HLL) [HinvL HinvR].
  assert (Hdiag : forall i, i < n -> L i i <> 0%R).
  { intros i Hi. specialize (Hpos i Hi). lra. }
  set (X := mmul n (mtrans L) Sinv).
  assert (EX : meq n (mmul n X L) mident).
  { apply (cancel_trans_lower n L); [exact Htri | exact Hdiag |].
    intros i j Hi Hj. rewrite mmul_assoc.
    rewrite (mmul_ext_r n X _ A) by (intros k Hk; now apply HLL).
    subst X. rewrite mmul_assoc.
    rewrite (mmul_ext_r n (mtrans L) _ mident) by (intros k Hk; now apply HinvL).
    rewrite mmul_ident_r by exact Hj. now rewrite mmul_ident_l. }
  split; [exact EX|].
  apply (left_inverse_lower n L X Htri Hdiag EX).
Qed.


End CholEntries.

(** ** The reference backend on [[1, 1/2], [1/2, 1]] *)

Lemma sqrt_1_minus_0 : sqrt (1 - 0) = 1%R.
Proof. replace (1 - 0)%R with 1%R by lra. apply sqrt_1. Qed.

Lemma sqrt_34_pos : (0 < sqrt (3/4))%R.
Proof. apply sqrt_lt_R0. lra. Qed.

Lemma sqrt_34_sq : (sqrt (3/4) * sqrt (3/4) = 3/4)%R.
Proof. apply sqrt_sqrt. lra. Qed.

Lemma potrf_ref_half :
  exists f, potrf_ref "L" 2 (content S_half) 2 = (0%Z, f) /\
            f 0 = 1%R /\ f 1 = (1/2)%R /\ f 3 = sqrt (3/4).
Proof.
  unfold potrf_ref. 
  replace (uplo_of "L") with (Some true) by reflexivity.
  destruct (decide (2 < Nat.max 1 2)) as [Hlt|_]; [simpl in Hlt; lia|].
  unfold upd, content, S_half. simpl. rewrite !sqrt_1_minus_0.
  destruct (Rle_dec (1 - 0) 0) as [Hle|_]; [lra|].
  unfold upd. simpl.
  destruct (Rle_dec _ 0) as [Hle|_]; [lra|].
  eexists. split; [reflexivity|]. simpl.
  repeat split; [lra | f_equal; lra].
Qed.

Lemma potri_ref_half a :
  a 0 = 1%R -> a 1 = (1/2)%R -> a 3 = sqrt (3/4) ->
  exists g, potri_ref "L" 2 a 2 = (0%Z, g) /\
            g 0 = (4/3)%R /\ g 1 = (-2/3)%R /\ g 3 = (4/3)%R.
Proof.
  intros A0 A1 A3. pose proof sqrt_34_pos as Hpos. pose proof sqrt_34_sq as Hsq.
  unfold potri_ref.
  replace (uplo_of "L") with (Some true) by reflexivity.
  destruct (decide (2 < Nat.max 1 2)) as [Hlt|_]; [simpl in Hlt; lia|].
  simpl. rewrite A0, A3.
  destruct (Req_dec_T 1 0) as [E|_]; [lra|].
  destruct (Req_dec_T (sqrt (3/4)) 0) as [E|_]; [lra|].
  eexists. split; [reflexivity|].
  unfold lauum, trti2. simpl. unfold upd. simpl. rewrite A0, A1, A3.
  assert (Hsq2 : (sqrt (3/4) ^ 2 = 3/4)%R)     by (replace (sqrt (3/4) ^ 2)%R with (sqrt (3/4) * sqrt (3/4))%R by ring;
        exact Hsq).
  repeat split; field_simplify; try lra; rewrite Hsq2; lra.
Qed.

Lemma ref_half_factor :
  (@potrf_list reference_backend "L" 2 S_half 2).1 = 0%Z /\
  lower_holds 2 (@chol_factor reference_backend 2 S_half) L_half.
Proof.
  destruct potrf_ref_half as (f & E & F0 & F1 & F3).
  unfold chol_factor, potrf_list. cbn [potrf reference_backend]. rewrite E.
  split; [reflexivity|].
  intros i j Hji Hi. unfold entry. cbn [snd].
  rewrite content_refill by (simpl; nia).
  destruct i as [|[|i]]; [| |lia]; destruct j as [|[|j]]; try lia; simpl; assumption.
Qed.

Lemma ref_half_inverse :
  lower_holds 2 (@chol_inverse reference_backend 2 S_half) Sinv_half.
Proof.
  destruct ref_half_factor as [_ HL].
  destruct (potri_ref_half (content (@chol_factor reference_backend 2 S_half)))
    as (g & E & G0 & G1 & G3).
  - apply (HL 0 0); lia.
  - apply (HL 1 0); lia.
  - apply (HL 1 1); lia.
  - unfold chol_inverse, potri_list. cbn [potri reference_backend]. rewrite E.
    intros i j Hji Hi. unfold entry. cbn [snd].
    rewrite content_refill
      by (unfold chol_factor; rewrite length_potrf_list; simpl; nia).
    destruct i as [|[|i]]; [| |lia]; destruct j as [|[|j]]; try lia; simpl; assumption.
Qed.

Lemma L_half_factor : cholesky_factor_of 2 (entry 2 S_half) L_half.
Proof.
  pose proof sqrt_34_pos as Hpos. pose proof sqrt_34_sq as Hsq.
  split; [|split].
  - intros i j Hij. destruct i as [|[|i]]; destruct j as [|[|j]]; try lia; reflexivity.
  - intros i Hi. destruct i as [|[|i]]; [| |lia]; simpl; lra.
  - intros i j Hi Hj. unfold mmul, mtrans, entry, content, S_half.
    destruct i as [|[|i]]; [| |lia]; destruct j as [|[|j]]; try lia; simpl; lra.
Qed.

Lemma Sinv_half_inverse : inverse_of 2 (entry 2 S_half) Sinv_half.
Proof.
  split; intros i j Hi Hj; unfold mmul, mident, entry, content, S_half;
    destruct i as [|[|i]]; try lia; destruct j as [|[|j]]; try lia; simpl; lra.
Qed.

Lemma cholesky_factor_half_unique L :
  cholesky_factor_of 2 (entry 2 S_half) L ->
  L 0 0 = 1%R /\ L 1 0 = (1/2)%R /\ L 1 1 = sqrt (3/4).
Proof.
  intros (Htri & Hpos & HLL).
  pose proof (HLL 0 0 ltac:(lia) ltac:(lia)) as E00.
  pose proof (HLL 1 0 ltac:(lia) ltac:(lia)) as E10.
  pose proof (HLL 1 1 ltac:(lia) ltac:(lia)) as E11.
  unfold mmul, mtrans, entry, content, S_half in E00, E10, E11. simpl in E00, E10, E11.
  rewrite (Htri 0 1 ltac:(lia)) in *.
  pose proof (Hpos 0 ltac:(lia)) as P0. pose proof (Hpos 1 ltac:(lia)) as P1.
  assert (L00 : L 0 0 = 1%R) by nra.
  rewrite L00 in E10.
  assert (L10 : L 1 0 = (1/2)%R) by lra.
  rewrite L10 in E11.
  repeat split; try assumption.
  set (x := L 1 1) in *.
  assert (Hsq : (x * x = 3/4)%R) by lra.
  rewrite <- Hsq. symmetry. apply sqrt_square. lra.
Qed.

Section OrthoResult.
Context `{Allocator} `{LinAlg}.

(** Whenever the overlap buffer is there, [computeOrtho] completes and
    leaves the Cholesky pair, whatever the kernels report. *)
Lemma computeOrtho_result ao (h : heap) S :
  let n := nBasis (basisSet_ ao) in
  buffer h (overlap ao) = Some S -> nSQ_ ao = n * n -> length S = n * n ->
  exists ao' h',
    computeOrtho ao h = Some (ao', h') /\
    orthoType_ ao' = CHOLESKY /\
    buffer h' (ortho1 ao') = Some (cholesky_ortho1 n S) /\
    buffer h' (ortho2 ao') = Some (cholesky_ortho2 n S).
Proof.
  intros n HS HnSQ Hlen.
  assert (HS' : h !! overlap ao = Some (DBlock S)).
  { unfold buffer in HS. destruct (h !! overlap ao) as [[d|z]|]; congruence. }
  destruct (computeOrtho_eq ao h S HS' HnSQ ltac:(fold n; lia))
    as (o1 & o2 & F1 & F2 & N12 & E).
  fold n in E. rewrite take_ge in E by lia.
  eexists _, _. split; [exact E|].
  cbn [orthoType_ ortho1 ortho2 set_orthoType set_ortho]. unfold buffer.
  split; [reflexivity|]. split.
  - now rewrite lookup_insert_eq.
  - rewrite lookup_insert_ne by congruence. now rewrite lookup_insert_eq.
Qed.

End OrthoResult.

(** ** The transforms [computeOrtho] produces *)

Section OrthoPair.
Context `{Allocator} `{LinAlg}.

(** C1.  With the overlap [S] symmetric positive-definite, [Cholesky]
    leaving its factor [L] and [CholeskyInv] its inverse [Sinv],
    [computeOrtho] produces [ortho2 = L], every entry above the diagonal
    being exactly zero, and [ortho1 = L^T * Sinv] with the entries above
    the diagonal set to zero.  For the overlap [[1, 1/2], [1/2, 1]] this
    gives ortho2[0,0] = 1, ortho2[1,0] = 1/2, ortho2[1,1] = sqrt(3/4) and
    ortho1[0,1] = 0. *)
Theorem computeOrtho_cholesky_pair ao (h : heap) S L Sinv :
  let n := nBasis (basisSet_ ao) in
  buffer h (overlap ao) = Some S -> nSQ_ ao = n * n -> length S = n * n ->
  cholesky_factor_of n (entry n S) L -> lower_holds n (chol_factor n S) L ->
  inverse_of n (entry n S) Sinv -> lower_holds n (chol_inverse n S) Sinv ->
  exists ao' h' d1 d2,
    computeOrtho ao h = Some (ao', h') /\
    buffer h' (ortho1 ao') = Some d1 /\
    buffer h' (ortho2 ao') = Some d2 /\
    (forall i j, i < n -> j < n ->
       entry n d2 i j = L i j /\ (i < j -> entry n d2 i j = 0%R)) /\
    (forall i j, i < n -> j < n ->
       entry n d1 i j
       = if decide (j <= i) then mmul n (mtrans L) Sinv i j else 0%R) /\
    (S = S_half ->
       entry n d2 0 0 = 1%R /\ entry n d2 1 0 = (1/2)%R /\
       entry n d2 1 1 = sqrt (3/4) /\ entry n d1 0 1 = 0%R).
Proof.
  intros n HS HnSQ Hlen HL HfL HI HfI.
  destruct (computeOrtho_result ao h S HS HnSQ Hlen) as (ao' & h' & E & _ & B1 & B2).
  fold n in B1, B2.
  exists ao', h', (cholesky_ortho1 n S), (cholesky_ortho2 n S).
  pose proof (cholesky_pair_entries n S L Sinv (proj1 HL) HfL HfI) as Hent.
  split; [exact E|]. split; [exact B1|]. split; [exact B2|]. split; [|split].
  - intros i j Hi Hj. split; [now apply Hent|].
    intros Hij. rewrite (proj1 (Hent i j Hi Hj)). now apply (proj1 HL).
  - intros i j Hi Hj. now apply Hent.
  - intros ->. assert (n = 2) as Hn by (simpl in Hlen; nia). rewrite Hn in *.
    destruct (cholesky_factor_half_unique L HL) as (L00 & L10 & L11).
    rewrite (proj1 (Hent 0 0 ltac:(lia) ltac:(lia))).
    rewrite (proj1 (Hent 1 0 ltac:(lia) ltac:(lia))).
    rewrite (proj1 (Hent 1 1 ltac:(lia) ltac:(lia))).
    rewrite (proj2 (Hent 0 1 ltac:(lia) ltac:(lia))).
    repeat split; assumption.
Qed.

End OrthoPair.

(** C8, as amended.  [computeOrtho] does not look at the status codes of
    the kernels: given an overlap buffer it runs to completion and leaves
    a transform pair, and a backend that reports other codes for the same
    buffer contents leads to the very same result. *)
Theorem computeOrtho_disregards_status (A : Allocator) (B B' : LinAlg)
    ao (h : heap) S :
  let n := nBasis (basisSet_ ao) in
  buffer h (overlap ao) = Some S -> nSQ_ ao = n * n -> length S = n * n ->
  (forall u m a lda, (@potrf B' u m a lda).2 = (@potrf B u m a lda).2) ->
  (forall u m a lda, (@potri B' u m a lda).2 = (@potri B u m a lda).2) ->
  exists ao' h' d1 d2,
    @computeOrtho A B ao h = Some (ao', h') /\
    @computeOrtho A B' ao h = Some (ao', h') /\
    buffer h' (ortho1 ao') = Some d1 /\
    buffer h' (ortho2 ao') = Some d2.
Proof.
  intros n HS HnSQ Hlen Hf Hi.
  assert (HS' : h !! overlap ao = Some (DBlock S)).
  { unfold buffer in HS. destruct (h !! overlap ao) as [[d|z]|]; congruence. }
  destruct (@computeOrtho_eq_locs A B ao h S HS' HnSQ ltac:(fold n; lia))
    as (_ & _ & N12 & E0).
  destruct (@computeOrtho_eq_locs A B' ao h S HS' HnSQ ltac:(fold n; lia))
    as (_ & _ & _ & E').
  fold n in E0, E', N12.
  assert (Efac : forall T, @chol_factor B' n T = @chol_factor B n T).
  { intros T. unfold chol_factor, potrf_list.
    pose proof (Hf "L"%char n (content T) n) as E1.
    destruct (@potrf B' "L" n (content T) n) as [i1 f1].
    destruct (@potrf B "L" n (content T) n) as [i2 f2].
    simpl in E1. subst f1. reflexivity. }
  assert (Einv : forall T, @chol_inverse B' n T = @chol_inverse B n T).
  { intros T. unfold chol_inverse, potri_list. rewrite Efac.
    pose proof (Hi "L"%char n (content (@chol_factor B n T)) n) as E1.
    destruct (@potri B' "L" n (content (@chol_factor B n T)) n) as [i1 f1].
    destruct (@potri B "L" n (content (@chol_factor B n T)) n) as [i2 f2].
    simpl in E1. subst f1. reflexivity. }
  assert (E2 : forall T, @cholesky_ortho2 B' n T = @cholesky_ortho2 B n T).
  { intros T. unfold cholesky_ortho2. now rewrite Efac. }
  assert (E1 : forall T, @cholesky_ortho1 B' n T = @cholesky_ortho1 B n T).
  { intros T. unfold cholesky_ortho1. now rewrite E2, Einv. }
  rewrite E1, E2 in E'.
  eexists _, _, _, _. split; [exact E0|]. split; [exact E'|].
  cbn [ortho1 ortho2 set_orthoType set_ortho]. unfold buffer. split.
  - now rewrite lookup_insert_eq.
  - rewrite lookup_insert_ne by exact N12. now rewrite lookup_insert_eq.
Qed.

(** ** The run on [[1, 1/2], [1/2, 1]] *)

Lemma buffer_heap_half : buffer heap_half (overlap ao_half) = Some S_half.
Proof. unfold buffer, heap_half. cbn [overlap ao_half]. now rewrite lookup_singleton_eq. Qed.

Lemma computeOrtho_cholesky_pair_witness :
  exists ao' h' d1 d2,
    @computeOrtho sevens_alloc reference_backend ao_half heap_half = Some (ao', h') /\
    buffer h' (ortho1 ao') = Some d1 /\
    buffer h' (ortho2 ao') = Some d2 /\
    entry 2 d2 0 0 = 1%R /\ entry 2 d2 1 0 = (1/2)%R /\
    entry 2 d2 1 1 = sqrt (3/4) /\ entry 2 d2 0 1 = 0%R /\ entry 2 d1 0 1 = 0%R.
Proof.
  destruct (@computeOrtho_cholesky_pair sevens_alloc reference_backend
              ao_half heap_half S_half L_half Sinv_half
              buffer_heap_half eq_refl eq_refl
              L_half_factor (proj2 ref_half_factor)
              Sinv_half_inverse ref_half_inverse)
    as (ao' & h' & d1 & d2 & E & B1 & B2 & H2 & _ & Hhalf).
  destruct (Hhalf eq_refl) as (V00 & V10 & V11 & W01).
  exists ao', h', d1, d2.
  repeat split; try assumption.
  apply (H2 0 1); cbn; lia.
Defined.


(** C3.  The orthogonalisation type the object is configured with plays
    no role: asked for the Löwdin transform on the overlap
    [[1, 1/2], [1/2, 1]], [computeOrtho] resets the type to [CHOLESKY] and
    leaves the Cholesky pair.  Its [ortho2] has ortho2[0,1] = 0 and
    ortho2[1,0] = 1/2, so it is not [V * diag(s^{1/2}) * V^T] for any [V]
    and [s]: that matrix is symmetric. *)
Theorem lowdin_request_yields_cholesky_pair :
  orthoType_ ao_half = LOWDIN /\
  exists ao' h' d2,
    @computeOrtho sevens_alloc reference_backend ao_half heap_half = Some (ao', h') /\
    orthoType_ ao' = CHOLESKY /\
    buffer h' (ortho2 ao') = Some d2 /\
    entry 2 d2 0 1 = 0%R /\ entry 2 d2 1 0 = (1/2)%R /\
    forall (V : nat -> nat -> R) (s : nat -> R),
      ~ meq 2 (entry 2 d2) (fun i j => Rsum 2 (fun k => V i k * sqrt (s k) * V j k)%R).
Proof.
  split; [reflexivity|].
  destruct (@computeOrtho_result sevens_alloc reference_backend ao_half heap_half S_half
              buffer_heap_half eq_refl eq_refl) as (ao' & h' & E & T & _ & B2).
  cbn [nBasis basisSet_ ao_half] in B2.
  exists ao', h', (@cholesky_ortho2 reference_backend 2 S_half).
  split; [exact E|]. split; [exact T|]. split; [exact B2|].
  pose proof (@cholesky_pair_entries reference_backend 2 S_half L_half Sinv_half
                (proj1 L_half_factor) (proj2 ref_half_factor) ref_half_inverse) as Hent.
  assert (E01 : entry 2 (@cholesky_ortho2 reference_backend 2 S_half) 0 1 = 0%R)
    by now rewrite (proj1 (Hent 0 1 ltac:(lia) ltac:(lia))).
  assert (E10 : entry 2 (@cholesky_ortho2 reference_backend 2 S_half) 1 0 = (1/2)%R)
    by now rewrite (proj1 (Hent 1 0 ltac:(lia) ltac:(lia))).
  split; [exact E01|]. split; [exact E10|].
  intros V s Hsym.
  pose proof (Hsym 0 1 ltac:(lia) ltac:(lia)) as H01.
  pose proof (Hsym 1 0 ltac:(lia) ltac:(lia)) as H10.
  rewrite E01 in H01. rewrite E10 in H10. simpl in H01, H10. lra.
Qed.

(** Whatever type is configured, the computation is the same. *)
Lemma computeOrtho_overrides_orthoType `{Allocator} `{LinAlg} ao t (h : heap) :
  computeOrtho (set_orthoType ao t) h = computeOrtho ao h.
Proof. reflexivity. Qed.

(** ** The run on the singular overlap [[1, 1], [1, 1]] *)

Lemma potrf_ref_ones :
  (potrf_ref "L" 2 (content S_ones) 2).1 = 2%Z.
Proof.
  unfold potrf_ref.
  replace (uplo_of "L") with (Some true) by reflexivity.
  destruct (decide (2 < Nat.max 1 2)) as [Hlt|_]; [simpl in Hlt; lia|].
  simpl. unfold upd, content, S_ones. simpl. rewrite !sqrt_1_minus_0.
  destruct (Rle_dec (1 - 0) 0) as [Hle|_]; [lra|].
  unfold upd. simpl.
  destruct (Rle_dec _ 0) as [_|Hgt]; [reflexivity | exfalso; apply Hgt; lra].
Qed.

Lemma buffer_heap_ones : buffer heap_ones (overlap ao_half) = Some S_ones.
Proof. unfold buffer, heap_ones. cbn [overlap ao_half]. now rewrite lookup_singleton_eq. Qed.

(** C8, as stated, fails: on the overlap [[1, 1], [1, 1]] the Cholesky
    kernel reports failure (status 2), and [computeOrtho] goes on and
    delivers a transform pair all the same. *)
Lemma failed_factorization_still_yields_pair :
  (@potrf_list reference_backend "L" 2 S_ones 2).1 = 2%Z /\
  exists ao' h' d1 d2,
    @computeOrtho sevens_alloc reference_backend ao_half heap_ones = Some (ao', h') /\
    buffer h' (ortho1 ao') = Some d1 /\
    buffer h' (ortho2 ao') = Some d2.
Proof.
  split.
  - unfold potrf_list. cbn [potrf reference_backend].
    pose proof potrf_ref_ones as E.
    destruct (potrf_ref "L" 2 (content S_ones) 2) as [info f]. exact E.
  - destruct (@computeOrtho_result sevens_alloc reference_backend ao_half heap_ones S_ones
                buffer_heap_ones eq_refl eq_refl) as (ao' & h' & E & _ & B1 & B2).
    eexists ao', h', _, _. repeat split; eassumption.
Qed.

Lemma computeOrtho_disregards_status_witness :
  exists ao' h' d1 d2,
    @computeOrtho sevens_alloc reference_backend ao_half heap_ones = Some (ao', h') /\
    @computeOrtho sevens_alloc (silenced reference_backend) ao_half heap_ones
      = Some (ao', h') /\
    buffer h' (ortho1 ao') = Some d1 /\
    buffer h' (ortho2 ao') = Some d2.
Proof.
  exact (computeOrtho_disregards_status sevens_alloc reference_backend
           (silenced reference_backend) ao_half heap_ones S_ones
           buffer_heap_ones eq_refl eq_refl
           (fun _ _ _ _ => eq_refl) (fun _ _ _ _ => eq_refl)).
Defined.

Lemma computeOrtho_preserves_live_blocks_witness :
  exists ao' h',
    @computeOrtho sevens_alloc reference_backend ao_half heap_half = Some (ao', h') /\
    overlap ao' = overlap ao_half /\
    (heap_half !! ortho1 ao' = None /\ heap_half !! ortho2 ao' = None) /\
    (forall p b, heap_half !! p = Some b -> h' !! p = Some b) /\
    buffer h' (overlap ao') = Some S_half.
Proof.
  destruct (@computeOrtho_result sevens_alloc reference_backend ao_half heap_half S_half
              buffer_heap_half eq_refl eq_refl) as (ao' & h' & E & _).
  destruct (@computeOrtho_preserves_live_blocks sevens_alloc reference_backend
              ao_half heap_half ao' h' E) as ((Eo & _) & Hnew & Hkeep & Hbuf).
  exists ao', h'. split; [exact E|]. split; [exact Eo|].
  split; [exact Hnew|]. split; [exact Hkeep|].
  rewrite Eo. apply Hbuf; [now left | exact buffer_heap_half].
Defined.

(** ** The allocating [LU] overload *)

Section LUOverload.
Context `{Allocator} `{LinAlg}.

Lemma malloc_int_eq n (h : heap) :
  malloc_int n h
  = Some (fresh (dom h), <[fresh (dom h) := IBlock (map (uninitZ (fresh (dom h))) (seq 0 n))]> h).
Proof. reflexivity. Qed.

(** The overload on a heap where [A] is a matrix of the extent asked for. *)
Lemma LU_mem_eq m n A lda a (h : heap) :
  h !! A = Some (DBlock a) -> mat_fits m n a lda = true ->
  LU_mem m n A lda h
  = Some ((getrf m n (content a) lda).1.1,
          <[A := DBlock (refill a (getrf m n (content a) lda).1.2)]> h).
Proof.
  intros HA Hfit. unfold LU_mem.
  rewrite (bind_Some _ _ _ _ _ (malloc_int_eq (Nat.min m n) h)).
  set (p := fresh (dom h)).
  assert (Fp : h !! p = None) by apply fresh_None.
  assert (NpA : A <> p) by congruence.
  set (z := map (uninitZ p) (seq 0 (Nat.min m n))).
  assert (Hz : length z = Nat.min m n) by (subst z; now rewrite length_map, length_seq).
  assert (ELU : LU m n A lda p (<[p := IBlock z]> h)
          = Some ((getrf m n (content a) lda).1.1,
                  <[p := IBlock (map (getrf m n (content a) lda).2 (seq 0 (Nat.min m n))
                                 ++ drop (Nat.min m n) z)]>
                    (<[A := DBlock (refill a (getrf m n (content a) lda).1.2)]>
                       (<[p := IBlock z]> h)))).
  { unfold LU. rewrite lookup_insert_ne by congruence. rewrite HA, lookup_insert_eq.
    rewrite Hfit, bool_decide_eq_true_2 by lia. cbn [andb].
    now destruct (getrf m n (content a) lda) as [[info f] piv]. }
  rewrite (bind_Some _ _ _ _ _ ELU).
  set (hx := <[p := IBlock _]> (<[A := _]> _)).
  assert (EF : free p hx = Some (tt, delete p hx))
    by (eapply free_eq; subst hx; apply lookup_insert_eq).
  rewrite (bind_Some _ _ _ _ _ EF).
  unfold ret. do 2 f_equal. subst hx.
  apply map_eq. intros q.
  destruct (decide (q = p)) as [->|Nq].
  - rewrite lookup_delete_eq. now rewrite lookup_insert_ne by congruence.
  - rewrite lookup_delete_ne, lookup_insert_ne by congruence.
    destruct (decide (q = A)) as [->|NqA]; [now rewrite !lookup_insert_eq|].
    now rewrite !lookup_insert_ne by congruence.
Qed.

(** ... and where it is not: nothing is returned. *)
Lemma LU_mem_fault m n A lda (h : heap) :
  (forall a, h !! A = Some (DBlock a) -> mat_fits m n a lda = false) ->
  LU_mem m n A lda h = None.
Proof.
  intros HA. unfold LU_mem.
  rewrite (bind_Some _ _ _ _ _ (malloc_int_eq (Nat.min m n) h)).
  set (p := fresh (dom h)).
  assert (Fp : h !! p = None) by apply fresh_None.
  unfold bind, LU.
  destruct (decide (A = p)) as [->|NA].
  - now rewrite lookup_insert_eq.
  - rewrite lookup_insert_ne by congruence.
    destruct (h !! A) as [[a|z]|] eqn:E; try reflexivity.
    rewrite lookup_insert_eq, (HA a eq_refl). reflexivity.
Qed.

Lemma LU_fault m n A lda q (h : heap) :
  (forall a, h !! A = Some (DBlock a) -> mat_fits m n a lda = false) ->
  LU m n A lda q h = None.
Proof.
  intros HA. unfold LU.
  destruct (h !! A) as [[a|z]|] eqn:E; try reflexivity.
  destruct (h !! q) as [[?|zq]|]; try reflexivity.
  now rewrite (HA a eq_refl).
Qed.

(** C9.  On every heap the overload [LU(M,N,A,LDA,mem)] returns what the
    plain [LU] returns when handed a pivot array of length [min(M,N)]:
    the same status, and the same heap except for the contents of that
    pivot array; in particular [A] is left in the same state.  Whenever
    the overload returns, the live blocks are those of before the call:
    the pivot buffer it acquired has been released, whatever the status. *)
Theorem LU_mem_refines_LU m n A lda (h : heap) q z :
  h !! q = Some (IBlock z) -> length z = Nat.min m n ->
  LU_mem m n A lda h
  = match LU m n A lda q h with
    | Some (info, h2) => Some (info, <[q := IBlock z]> h2)
    | None => None
    end
  /\ (forall info h2, LU m n A lda q h = Some (info, h2) ->
        exists h1, LU_mem m n A lda h = Some (info, h1) /\ h1 !! A = h2 !! A)
  /\ (forall info h1, LU_mem m n A lda h = Some (info, h1) -> dom h1 = dom h).
Proof.
  intros Hq Hz.
  assert (Hno : (forall a, h !! A = Some (DBlock a) -> mat_fits m n a lda = false) ->
                LU_mem m n A lda h
                = match LU m n A lda q h with
                  | Some (info, h2) => Some (info, <[q := IBlock z]> h2)
                  | None => None
                  end
                /\ (forall info h2, LU m n A lda q h = Some (info, h2) ->
                      exists h1, LU_mem m n A lda h = Some (info, h1) /\ h1 !! A = h2 !! A)
                /\ (forall info h1, LU_mem m n A lda h = Some (info, h1) -> dom h1 = dom h)).
  { intros HA. rewrite (LU_fault m n A lda q h HA), (LU_mem_fault m n A lda h HA).
    split; [reflexivity|]. split; intros; discriminate. }
  destruct (h !! A) as [[a|zA]|] eqn:HA; [|apply Hno; intros a; discriminate..].
  destruct (mat_fits m n a lda) eqn:Hfit; [|apply Hno; intros a' Ha'; congruence].
  clear Hno.
  assert (NAq : A <> q) by congruence.
  assert (EP : LU m n A lda q h
          = Some ((getrf m n (content a) lda).1.1,
                  <[q := IBlock (map (getrf m n (content a) lda).2 (seq 0 (Nat.min m n))
                                 ++ drop (Nat.min m n) z)]>
                    (<[A := DBlock (refill a (getrf m n (content a) lda).1.2)]> h))).
  { unfold LU. rewrite HA, Hq, Hfit, bool_decide_eq_true_2 by lia. cbn [andb].
    now destruct (getrf m n (content a) lda) as [[info f] piv]. }
  rewrite EP, (LU_mem_eq m n A lda a h HA Hfit). split; [|split].
  - do 2 f_equal. rewrite insert_insert_eq.
    rewrite insert_insert_ne by congruence.
    now rewrite (insert_id h q) by exact Hq.
  - intros info h2 E. inversion E; subst. eexists. split; [reflexivity|].
    rewrite lookup_insert_eq, lookup_insert_ne by congruence.
    now rewrite lookup_insert_eq.
  - intros info h1 E. inversion E; subst.
    apply dom_insert_lookup_L. now rewrite HA.
Qed.

End LUOverload.

(** The reference kernel on the singular matrix: the rows are swapped,
    the second pivot is zero, and the status is 2. *)
Lemma getrf_ref_sing :
  exists f piv,
    getrf_ref 2 2 (content A_sing) 2 = (2%Z, f, piv) /\
    f 0 = 2%R /\ f 1 = (1/2)%R /\ f 2 = 4%R /\ f 3 = 0%R.
Proof.
  unfold getrf_ref.
  destruct (decide (2 < Nat.max 1 2)) as [Hlt|_]; [simpl in Hlt; lia|].
  unfold getf2_step, idamax, content, A_sing. simpl.
  destruct (Rlt_dec (Rabs 1) (Rabs 2)) as [_|Hn].
  2:{ exfalso. apply Hn. rewrite !Rabs_pos_eq by lra. lra. }
  simpl.
  destruct (Req_dec_T 2 0) as [E|_]; [lra|].
  unfold swap_rows, upd. simpl.
  destruct (Req_dec_T (2 - 1 / 2 * 4) 0) as [_|Hn]; [|exfalso; apply Hn; lra].
  eexists _, _. split; [reflexivity|]. simpl. repeat split; lra.
Qed.

Lemma LU_sing_run :
  exists piv,
    @LU reference_backend 2 2 1%positive 2 2%positive heap_lu
    = Some (2%Z, <[2%positive := IBlock piv]> (<[1%positive := DBlock LU_sing]> heap_lu)).
Proof.
  destruct getrf_ref_sing as (f & piv & E & F0 & F1 & F2 & F3).
  exists (map piv (seq 0 2)).
  unfold LU, heap_lu.
  rewrite lookup_insert_eq, lookup_insert_ne, lookup_singleton_eq by discriminate.
  replace (mat_fits 2 2 A_sing 2) with true by reflexivity.
  rewrite bool_decide_eq_true_2 by (simpl; lia). cbn [andb].
  cbn [getrf reference_backend]. rewrite E.
  unfold refill, LU_sing. simpl. rewrite F0, F1, F2, F3. reflexivity.
Qed.

Lemma LU_mem_refines_LU_witness :
  exists h1 h2,
    buffer heap_lu 1%positive = Some A_sing /\
    @LU reference_backend 2 2 1%positive 2 2%positive heap_lu = Some (2%Z, h2) /\
    @LU_mem sevens_alloc reference_backend 2 2 1%positive 2 heap_lu = Some (2%Z, h1) /\
    h1 = <[2%positive := IBlock [0%Z; 0%Z]]> h2 /\
    buffer h2 1%positive = Some LU_sing /\
    buffer h1 1%positive = Some LU_sing /\
    dom h1 = dom heap_lu.
Proof.
  destruct LU_sing_run as (piv & EP).
  destruct (@LU_mem_refines_LU sevens_alloc reference_backend 2 2 1%positive 2 heap_lu
              2%positive [0%Z; 0%Z] eq_refl eq_refl) as (Eq & _ & Hdom).
  rewrite EP in Eq.
  eexists _, _. split; [reflexivity|]. split; [exact EP|]. split; [exact Eq|].
  split; [reflexivity|].
  split; [unfold buffer; rewrite lookup_insert_ne by discriminate;
          now rewrite lookup_insert_eq|].
  split; [unfold buffer; rewrite lookup_insert_ne by discriminate;
          rewrite lookup_insert_ne by discriminate; now rewrite lookup_insert_eq|].
  exact (Hdom _ _ Eq).
Defined.

(** ** Reasoning about computations that may fault *)

Lemma hoare_conseq {A} (P P' : heap -> Prop) (Q Q' : A -> heap -> Prop) c :
  (forall h, P' h -> P h) -> (forall a h, Q a h -> Q' a h) ->
  hoare P c Q -> hoare P' c Q'.
Proof. intros HP HQ Hc h a h' E Hh. apply HQ, (Hc h a h' E), HP, Hh. Qed.

Lemma hoare_ret {A} (P : heap -> Prop) (a : A) : hoare P (ret a) (fun a' h => a' = a /\ P h).
Proof. intros h a' h' E Hh. unfold ret in E. inversion E; subst. now split. Qed.

Lemma hoare_lift {A} (P : heap -> Prop) (o : option A) :
  hoare P (lift o) (fun a h => o = Some a /\ P h).
Proof.
  intros h a h' E Hh. unfold lift in E. destruct o; inversion E; subst. now split.
Qed.

Lemma hoare_bind {A B} (P : heap -> Prop) (Q : A -> heap -> Prop) (R : B -> heap -> Prop)
    (c : comp A) (k : A -> comp B) :
  hoare P c Q -> (forall a, hoare (Q a) (k a) R) -> hoare P (bind c k) R.
Proof.
  intros Hc Hk h b h' E Hh. apply bind_inv in E as (a & h1 & E1 & E2).
  apply (Hk a h1 b h' E2). apply (Hc h a h1 E1 Hh).
Qed.

(** A loop with an invariant that knows the iterations done so far. *)
Lemma hoare_for_list {K} (I : list K -> heap -> Prop) (l : list K) body :
  (forall pre k post, l = pre ++ k :: post ->
     hoare (I pre) (body k) (fun _ => I (pre ++ [k]))) ->
  hoare (I []) (for_list l body) (fun _ => I l).
Proof.
  intros Hbody.
  assert (G : forall post pre, l = pre ++ post ->
            hoare (I pre) (for_list post body) (fun _ => I l)).
  { induction post as [|k post IH]; intros pre El.
    - rewrite app_nil_r in El. subst pre. intros h a h' E Hh.
      simpl in E. unfold ret in E. now inversion E; subst.
    - simpl. apply (hoare_bind _ (fun _ => I (pre ++ [k]))).
      + now apply (Hbody pre k post).
      + intros _. apply IH. rewrite <- app_assoc. exact El. }
  now apply (G l []).
Qed.

(** ** Shell offsets *)

Lemma basis_size_acc l a :
  fold_left (fun init sh => init + Shell_size sh) l a = a + basis_size l.
Proof.
  unfold basis_size. revert a. induction l as [|sh l IH]; intros a; simpl; [lia|].
  rewrite IH, (IH (Shell_size sh)). lia.
Qed.

Lemma basis_size_app l1 l2 : basis_size (l1 ++ l2) = basis_size l1 + basis_size l2.
Proof. unfold basis_size at 1. rewrite fold_left_app. fold (basis_size l1). apply basis_size_acc. Qed.

Lemma offset_0 shells : offset shells 0 = 0.
Proof. reflexivity. Qed.

Lemma offset_S shells s sh :
  shells !! s = Some sh -> offset shells (S s) = offset shells s + Shell_size sh.
Proof.
  intros Hs. unfold offset. rewrite (take_S_r _ _ _ Hs), basis_size_app.
  unfold basis_size at 2. simpl. lia.
Qed.

Lemma offset_mono shells s s' : s <= s' -> offset shells s <= offset shells s'.
Proof.
  intros Hle. unfold offset.
  replace (take s' shells) with (take s (take s' shells) ++ drop s (take s' shells))
    by apply take_drop.
  rewrite basis_size_app, take_take. replace (s `min` s') with s by lia. lia.
Qed.

Lemma offset_le_size shells s : offset shells s <= basis_size shells.
Proof.
  unfold offset. rewrite <- (take_drop s shells) at 2. rewrite basis_size_app. lia.
Qed.

Lemma offset_next shells s s' sh :
  shells !! s = Some sh -> s < s' -> offset shells s + Shell_size sh <= offset shells s'.
Proof.
  intros Hs Hlt. rewrite <- (offset_S shells s sh Hs). apply offset_mono. lia.
Qed.

Lemma offset_end shells s sh :
  shells !! s = Some sh -> offset shells s + Shell_size sh <= basis_size shells.
Proof.
  intros Hs. rewrite <- (offset_S shells s sh Hs). apply offset_le_size.
Qed.

(** A basis function belongs to one shell only. *)
Lemma offset_inj shells s s' sh sh' a a' :
  shells !! s = Some sh -> shells !! s' = Some sh' ->
  a < Shell_size sh -> a' < Shell_size sh' ->
  offset shells s + a = offset shells s' + a' -> s = s'.
Proof.
  intros Hs Hs' Ha Ha' E.
  destruct (Nat.lt_trichotomy s s') as [Hlt|[Heq|Hgt]]; [|exact Heq|].
  - pose proof (offset_next shells s s' sh Hs Hlt). lia.
  - pose proof (offset_next shells s' s sh' Hs' Hgt). lia.
Qed.

(** The blocks of two pairs of shells do not overlap. *)
Lemma in_block_inj shells s1 s2 t1 t2 sh1 sh2 th1 th2 idx :
  let NB := basis_size shells in
  shells !! s1 = Some sh1 -> shells !! s2 = Some sh2 ->
  shells !! t1 = Some th1 -> shells !! t2 = Some th2 ->
  in_block NB (offset shells s1) (Shell_size sh1) (offset shells s2) (Shell_size sh2) idx ->
  in_block NB (offset shells t1) (Shell_size th1) (offset shells t2) (Shell_size th2) idx ->
  s1 = t1 /\ s2 = t2.
Proof.
  intros NB Hs1 Hs2 Ht1 Ht2 (a & b & Ha & Hb & E) (a' & b' & Ha' & Hb' & E').
  pose proof (offset_end shells s1 sh1 Hs1). pose proof (offset_end shells t1 th1 Ht1).
  fold NB in H, H0.
  destruct (colmajor_inj NB (offset shells s1 + a) (offset shells s2 + b)
              (offset shells t1 + a') (offset shells t2 + b')) as [Er Ec];
    [lia | lia | congruence |].
  split; eapply offset_inj; eauto.
Qed.

(** ** Placing a block *)

Lemma length_placed NB bf1 bf2 n1 n2 buf d :
  length (placed NB bf1 bf2 n1 n2 buf d) = length d.
Proof. apply length_writes. Qed.

Lemma content_placed_in NB bf1 bf2 n1 n2 buf d a b :
  a < n1 -> b < n2 -> bf1 + n1 <= NB -> bf2 + n2 <= NB -> length d = NB * NB ->
  content (placed NB bf1 bf2 n1 n2 buf d) ((bf1 + a) + (bf2 + b) * NB)
  = buf (a * n2 + b).
Proof.
  intros Ha Hb H1 H2 Hlen.
  apply (content_writes_hit (fun ba => (bf1 + ba.2) + (bf2 + ba.1) * NB)
           (fun ba => buf (ba.2 * n2 + ba.1)) _ d (b, a)).
  - apply in_nest. lia.
  - simpl. nia.
  - intros [b' a'] Hin E. apply in_nest in Hin. simpl in *.
    destruct (colmajor_inj NB (bf1 + a') (bf2 + b') (bf1 + a) (bf2 + b)) as [Ea Eb];
      [lia | lia | exact E |].
    assert (a' = a) by lia. assert (b' = b) by lia. now subst.
Qed.

Lemma content_placed_out NB bf1 bf2 n1 n2 buf d idx :
  ~ in_block NB bf1 n1 bf2 n2 idx ->
  content (placed NB bf1 bf2 n1 n2 buf d) idx = content d idx.
Proof.
  intros Hout. apply content_writes_other.
  intros [b a] Hin E. apply in_nest in Hin. simpl in *.
  apply Hout. exists a, b. repeat split; [lia | lia | congruence].
Qed.

Lemma place_block_eq p NB bf1 bf2 n1 n2 buf d (h : heap) :
  h !! p = Some (DBlock d) -> length d = NB * NB ->
  bf1 + n1 <= NB -> bf2 + n2 <= NB ->
  place_block p NB bf1 bf2 n1 n2 buf h
  = Some (tt, <[p := DBlock (placed NB bf1 bf2 n1 n2 buf d)]> h).
Proof.
  intros Hp Hlen H1 H2. rewrite <- (heap_self h p _ Hp) at 1.
  unfold place_block, placed.
  apply (for_nest_block p (fun ba => (bf1 + ba.2) + (bf2 + ba.1) * NB)
           (fun ba => buf (ba.2 * n2 + ba.1)) n2 (fun _ => 0) (fun _ => n1)).
  intros b a d' Hb Ha Hd'. simpl. apply store_block. nia.
Qed.

Section Assembly.
Context `{Libint}.
Variable e : Engine.
Variable shells : list Shell.
Variable mats : list loc.
Hypothesis mats_NoDup : NoDup mats.

Let NB := basis_size shells.

Lemma block_ok_ext k (done done' : nat -> nat -> Prop) d :
  (forall s1 s2, s2 <= s1 -> done' s1 s2 <-> done s1 s2) ->
  block_ok e shells k done d -> block_ok e shells k done' d.
Proof.
  intros Hd (Hlen & Hin & Hout). split; [exact Hlen|]. split.
  - intros s1 s2 sh1 sh2 buf a b Hdone Hle. apply Hin; [now apply Hd | exact Hle].
  - intros idx Hidx. apply Hout. intros s1 s2 sh1 sh2 Hdone Hle.
    apply Hidx; [now apply Hd | exact Hle].
Qed.

(** Placing the block of an unscreened pair marks the pair as done. *)
Lemma block_ok_placed k (done : nat -> nat -> Prop) d s1 s2 sh1 sh2 buf :
  s2 <= s1 -> shells !! s1 = Some sh1 -> shells !! s2 = Some sh2 ->
  unscreened e sh1 sh2 ->
  compute e sh1 sh2 !! k = Some (Some buf) ->
  block_ok e shells k done d ->
  block_ok e shells k (fun t1 t2 => done t1 t2 \/ (t1 = s1 /\ t2 = s2))
    (placed NB (offset shells s1) (offset shells s2)
            (Shell_size sh1) (Shell_size sh2) buf d).
Proof.
  intros Hle Hs1 Hs2 Hun Hbuf (Hlen & Hin & Hout).
  pose proof (offset_end shells s1 sh1 Hs1) as B1.
  pose proof (offset_end shells s2 sh2 Hs2) as B2. fold NB in B1, B2, Hlen.
  split; [now rewrite length_placed|]. fold NB. split.
  - intros t1 t2 th1 th2 buf' a b Hdone Hle' Ht1 Ht2 Hun' Hbuf' Ha Hb.
    destruct (decide (t1 = s1 /\ t2 = s2)) as [[-> ->]|Hne].
    + assert (th1 = sh1) by congruence. assert (th2 = sh2) by congruence. subst.
      assert (buf' = buf) by congruence. subst.
      now apply content_placed_in.
    + rewrite content_placed_out.
      * destruct Hdone as [Hdone|Heq]; [|contradiction].
        now apply (Hin t1 t2 th1 th2 buf' a b).
      * intros Hblk. apply Hne.
        apply (in_block_inj shells t1 t2 s1 s2 th1 th2 sh1 sh2
                 (offset shells t1 + a + (offset shells t2 + b) * NB)
                 Ht1 Ht2 Hs1 Hs2); [|exact Hblk].
        now exists a, b.
  - intros idx Hidx. rewrite content_placed_out.
    + apply Hout. intros t1 t2 th1 th2 Hdone Hle'. apply Hidx; [now left | exact Hle'].
    + apply (Hidx s1 s2 sh1 sh2); auto.
Qed.

(** A screened pair is done without a store. *)
Lemma block_ok_screened k (done : nat -> nat -> Prop) d s1 s2 sh1 sh2 :
  shells !! s1 = Some sh1 -> shells !! s2 = Some sh2 ->
  screened e sh1 sh2 ->
  block_ok e shells k done d ->
  block_ok e shells k (fun t1 t2 => done t1 t2 \/ (t1 = s1 /\ t2 = s2)) d.
Proof.
  intros Hs1 Hs2 [rest Hscr] (Hlen & Hin & Hout).
  split; [exact Hlen|]. split.
  - intros t1 t2 th1 th2 buf a b [Hdone|[-> ->]] Hle Ht1 Ht2 Hun.
    + now apply Hin.
    + assert (th1 = sh1) by congruence. assert (th2 = sh2) by congruence. subst.
      destruct Hun as (b0 & rest' & Hun). congruence.
  - intros idx Hidx. apply Hout. intros t1 t2 th1 th2 Hdone. apply Hidx. now left.
Qed.

Lemma block_ok_absent k (done : nat -> nat -> Prop) d s1 s2 sh1 sh2 :
  shells !! s1 = Some sh1 -> shells !! s2 = Some sh2 ->
  compute e sh1 sh2 !! k = None ->
  block_ok e shells k done d ->
  block_ok e shells k (fun t1 t2 => done t1 t2 \/ (t1 = s1 /\ t2 = s2)) d.
Proof.
  intros Hs1 Hs2 Hnone (Hlen & Hin & Hout).
  split; [exact Hlen|]. split.
  - intros t1 t2 th1 th2 buf a b [Hdone|[-> ->]] Hle Ht1 Ht2 Hun Hbuf.
    + now apply Hin.
    + assert (th1 = sh1) by congruence. assert (th2 = sh2) by congruence. subst.
      congruence.
  - intros idx Hidx. apply Hout. intros t1 t2 th1 th2 Hdone. apply Hidx. now left.
Qed.

Lemma hoare_pair_body (done : nat -> nat -> Prop) s1 s2 sh1 sh2 :
  s2 <= s1 -> shells !! s1 = Some sh1 -> shells !! s2 = Some sh2 ->
  hoare (assembled e shells mats (fun _ => done))
        (pair_body e mats NB sh1 sh2 (offset shells s1) (offset shells s2))
        (fun _ => assembled e shells mats
                    (fun _ t1 t2 => done t1 t2 \/ (t1 = s1 /\ t2 = s2))).
Proof.
  intros Hle Hs1 Hs2. unfold pair_body.
  destruct (compute e sh1 sh2) as [|[b0|] rest] eqn:EC.
  - intros h a h' E. discriminate.
  - assert (Hun : unscreened e sh1 sh2) by (now exists b0, rest).
    rewrite <- EC.
    set (I := fun (pre : list nat) (h : heap) =>
                assembled e shells mats
                  (fun k t1 t2 => done t1 t2 \/ (In k pre /\ t1 = s1 /\ t2 = s2)) h).
    apply (hoare_conseq (I []) _ (fun _ => I (seq 0 (length (compute e sh1 sh2) - 0)))).
    + intros h Hh k p Hk. destruct (Hh k p Hk) as (d & Hp & Hok).
      exists d. split; [exact Hp|]. revert Hok. apply block_ok_ext.
      intros t1 t2 _. simpl. tauto.
    + intros u h Hh k p Hk. destruct (Hh k p Hk) as (d & Hp & Hok).
      exists d. split; [exact Hp|].
      destruct (decide (k < length (compute e sh1 sh2))) as [Hlt|Hge].
      * revert Hok. apply block_ok_ext. intros t1 t2 _. rewrite in_seq. intuition lia.
      * apply (block_ok_ext k (fun t1 t2 => (done t1 t2 \/
                   (In k (seq 0 (length (compute e sh1 sh2) - 0)) /\ t1 = s1 /\ t2 = s2))
                   \/ (t1 = s1 /\ t2 = s2))); [intros; tauto|].
        apply (block_ok_absent k _ d s1 s2 sh1 sh2 Hs1 Hs2); [|exact Hok].
        apply lookup_ge_None. lia.
    + unfold for_range. apply hoare_for_list.
      intros pre m post Epre h a h' E Hh.
      apply bind_inv in E as (buf & h1 & E1 & E).
      apply bind_inv in E as (p & h2 & E2 & E).
      unfold lift in E1, E2.
      destruct (mjoin (compute e sh1 sh2 !! m)) as [buf'|] eqn:Ebuf; [|discriminate].
      destruct (mats !! m) as [p'|] eqn:Ep; [|discriminate].
      inversion E1; subst buf' h1. inversion E2; subst p' h2. clear E1 E2.
      assert (Hbuf : compute e sh1 sh2 !! m = Some (Some buf)).
      { destruct (compute e sh1 sh2 !! m) as [[x|]|]; simpl in Ebuf; congruence. }
      destruct (Hh m p Ep) as (d & Hp & Hok).
      pose proof (offset_end shells s1 sh1 Hs1) as B1.
      pose proof (offset_end shells s2 sh2 Hs2) as B2.
      rewrite (place_block_eq p NB _ _ _ _ buf d h Hp (proj1 Hok) B1 B2) in E.
      inversion E; subst h'. clear E.
      intros k q Hk. destruct (decide (q = p)) as [->|Hne].
      * assert (k = m) by (eapply NoDup_lookup; eauto). subst k.
        exists (placed NB (offset shells s1) (offset shells s2)
                  (Shell_size sh1) (Shell_size sh2) buf d).
        split; [apply lookup_insert_eq|].
        apply (block_ok_ext m (fun t1 t2 => (done t1 t2 \/ (In m pre /\ t1 = s1 /\ t2 = s2))
                                           \/ (t1 = s1 /\ t2 = s2))).
        { intros t1 t2 _. rewrite in_app_iff. simpl. intuition auto. }
        now apply block_ok_placed.
      * destruct (Hh k q Hk) as (d' & Hq & Hok').
        exists d'. split; [now rewrite lookup_insert_ne by congruence|].
        revert Hok'. apply block_ok_ext. intros t1 t2 _. rewrite in_app_iff. simpl.
        assert (k <> m) by (intros ->; congruence). intuition (auto; congruence).
  - intros h a h' E Hh. unfold ret in E. inversion E; subst.
    intros k p Hk. destruct (Hh k p Hk) as (d & Hp & Hok).
    exists d. split; [exact Hp|].
    apply (block_ok_screened k done d s1 s2 sh1 sh2 Hs1 Hs2); [|exact Hok].
    now exists rest.
Qed.

Lemma hoare_loop_s2 s1 sh1 :
  shells !! s1 = Some sh1 ->
  forall todo s2,
    drop s2 (take (S s1) shells) = todo ->
    hoare (assembled e shells mats (fun _ t1 t2 => t1 < s1 \/ (t1 = s1 /\ t2 < s2)))
          (loop_s2 e mats NB sh1 (offset shells s1) todo (offset shells s2))
          (fun _ => assembled e shells mats (fun _ t1 t2 => t1 < S s1)).
Proof.
  intros Hs1. pose proof (lookup_lt_Some _ _ _ Hs1) as Hlt.
  assert (Hlen : length (take (S s1) shells) = S s1) by (rewrite length_take; lia).
  induction todo as [|sh2 todo IH]; intros s2 Hdrop; simpl.
  - assert (S s1 <= s2).
    { apply (f_equal length) in Hdrop. rewrite length_drop, Hlen in Hdrop.
      simpl in Hdrop. lia. }
    intros h a h' E Hh. unfold ret in E. inversion E; subst.
    intros k p Hk. destruct (Hh k p Hk) as (d & Hp & Hok).
    exists d. split; [exact Hp|]. revert Hok. apply block_ok_ext.
    intros t1 t2 Hle. lia.
  - assert (Hs2 : take (S s1) shells !! s2 = Some sh2).
    { rewrite <- (Nat.add_0_r s2), <- lookup_drop, Hdrop. reflexivity. }
    assert (Hs2lt : s2 < S s1) by (apply lookup_lt_Some in Hs2; lia).
    rewrite lookup_take_lt in Hs2 by lia.
    apply (hoare_bind _ (fun _ => assembled e shells mats
                           (fun _ t1 t2 => t1 < s1 \/ (t1 = s1 /\ t2 < S s2)))).
    + eapply hoare_conseq;
        [| |apply (hoare_pair_body (fun t1 t2 => t1 < s1 \/ (t1 = s1 /\ t2 < s2))
                     s1 s2 sh1 sh2); [lia|auto|auto]].
      * intros h Hh. exact Hh.
      * intros u h Hh k p Hk. destruct (Hh k p Hk) as (d & Hp & Hok).
        exists d. split; [exact Hp|]. revert Hok. apply block_ok_ext.
        intros t1 t2 Hle. simpl. lia.
    + intros _. rewrite <- (offset_S shells s2 sh2 Hs2). apply IH.
      replace (S s2) with (s2 + 1) by lia.
      rewrite <- drop_drop, Hdrop. reflexivity.
Qed.

Lemma hoare_loop_s1 :
  forall todo s1,
    drop s1 shells = todo ->
    hoare (assembled e shells mats (fun _ t1 t2 => t1 < s1))
          (loop_s1 e mats NB shells todo s1 (offset shells s1))
          (fun _ => assembled e shells mats (fun _ t1 t2 => True)).
Proof.
  induction todo as [|sh1 todo IH]; intros s1 Hdrop; simpl.
  - assert (length shells <= s1).
    { apply (f_equal length) in Hdrop. rewrite length_drop in Hdrop. simpl in Hdrop. lia. }
    intros h a h' E Hh. unfold ret in E. inversion E; subst.
    intros k p Hk. destruct (Hh k p Hk) as (d & Hp & (Hlen & Hin & Hout)).
    exists d. split; [exact Hp|]. split; [exact Hlen|]. split.
    + intros t1 t2 th1 th2 buf a b _ Hle Ht1. apply Hin; [|exact Hle|exact Ht1].
      apply lookup_lt_Some in Ht1. lia.
    + intros idx Hidx. apply Hout. intros t1 t2 th1 th2 _. now apply Hidx.
  - assert (Hs1 : shells !! s1 = Some sh1).
    { rewrite <- (Nat.add_0_r s1), <- lookup_drop, Hdrop. reflexivity. }
    apply (hoare_bind _ (fun _ => assembled e shells mats (fun _ t1 t2 => t1 < S s1))).
    + eapply hoare_conseq; [| |apply (hoare_loop_s2 s1 sh1 Hs1 _ 0 eq_refl)].
      * intros h Hh k p Hk. destruct (Hh k p Hk) as (d & Hp & Hok).
        exists d. split; [exact Hp|]. revert Hok. apply block_ok_ext.
        intros t1 t2 Hle. simpl. lia.
      * intros u h Hh. exact Hh.
    + intros _. rewrite <- (offset_S shells s1 sh1 Hs1). apply IH.
      replace (S s1) with (s1 + 1) by lia.
      rewrite <- drop_drop, Hdrop. reflexivity.
Qed.

End Assembly.

(** ** Symmetric completion *)

Lemma fold_nest_gen {S} (step : nat * nat -> S -> S) n lo hi (d : S) :
  fold_left (fun acc j =>
    fold_left (fun acc' i => step (j, i) acc') (seq (lo j) (hi j - lo j)) acc)
    (seq 0 n) d
  = fold_left (fun acc k => step k acc) (nest n lo hi) d.
Proof.
  unfold nest. generalize (seq 0 n) as js. intros js. revert d.
  induction js as [|j js IH]; intros d; simpl; [reflexivity|].
  rewrite fold_left_app, fold_left_map_l. apply IH.
Qed.

(** Stores whose values are read from places no store of the loop goes to. *)
Lemma writes_from_untouched {K} (idx src : K -> nat) (l : list K) (d : list R) :
  (forall k k', In k l -> In k' l -> idx k' <> src k) ->
  fold_left (fun acc k => <[idx k := content acc (src k)]> acc) l d
  = writes idx (fun k => content d (src k)) l d.
Proof.
  induction l as [|k l IH] using rev_ind; intros Hsep; [reflexivity|].
  unfold writes. rewrite !fold_left_app. simpl.
  fold (writes idx (fun k => content d (src k)) l d).
  rewrite IH by (intros k1 k2 H1 H2; apply Hsep; apply in_or_app; now left).
  f_equal. apply content_writes_other.
  intros k' Hk'. apply Hsep; apply in_or_app; [right; now left | now left].
Qed.

Lemma length_sym_block NB d : length (sym_block NB d) = length d.
Proof. apply length_writes. Qed.

Lemma entry_sym_block NB d r c :
  r < NB -> c < NB -> length d = NB * NB ->
  entry NB (sym_block NB d) r c
  = if decide (r < c) then entry NB d c r else entry NB d r c.
Proof.
  intros Hr Hc Hlen. unfold entry, sym_block.
  destruct (decide (r < c)) as [Hlt|Hge].
  - apply (content_writes_hit (fun ji => ji.1 + ji.2 * NB)
             (fun ji => content d (ji.2 + ji.1 * NB)) _ d (r, c)).
    + apply in_nest. lia.
    + simpl. nia.
    + intros [j i] Hin E. apply in_nest in Hin. simpl in *.
      destruct (colmajor_inj NB j i r c) as [-> ->]; [lia | lia | exact E | reflexivity].
  - apply content_writes_other.
    intros [j i] Hin E. apply in_nest in Hin. simpl in *.
    destruct (colmajor_inj NB j i r c) as [-> ->]; [lia | lia | exact E | lia].
Qed.

Lemma symmetrize_eq p NB d (h : heap) :
  h !! p = Some (DBlock d) -> length d = NB * NB ->
  symmetrize p NB h = Some (tt, <[p := DBlock (sym_block NB d)]> h).
Proof.
  intros Hp Hlen. rewrite <- (heap_self h p _ Hp) at 1.
  unfold symmetrize, sym_block.
  rewrite <- (writes_from_untouched (fun ji => ji.1 + ji.2 * NB) (fun ji => ji.2 + ji.1 * NB)).
  2:{ intros [j i] [j' i'] Hin Hin' E. apply in_nest in Hin, Hin'. simpl in *.
      destruct (colmajor_inj NB j' i' i j) as [-> ->]; [lia | lia | exact E | lia]. }
  rewrite <- (fold_nest_gen
    (fun ji acc => <[ji.1 + ji.2 * NB := content acc (ji.2 + ji.1 * NB)]> acc)).
  unfold for_range at 1. rewrite Nat.sub_0_r.
  apply (for_list_block p (fun d' => length d' = length d)
           (fun j d' => fold_left
              (fun acc' i => <[j + i * NB := content acc' (i + j * NB)]> acc')
              (seq (S j) (NB - S j)) d')); [|reflexivity].
  intros j d' Hj Hd'. apply in_seq in Hj. unfold for_range.
  apply (for_list_block p (fun d'' => length d'' = length d)
           (fun i d'' => <[j + i * NB := content d'' (i + j * NB)]> d'')); [|exact Hd'].
  intros i d'' Hi Hd''. apply in_seq in Hi. split.
  - rewrite (bind_Some _ _ _ _ _ (load_block_same p (i + j * NB) d'' h ltac:(nia))).
    apply store_block. nia.
  - now rewrite length_insert.
Qed.

Lemma symmetrize_all NB (mats : list loc) :
  NoDup mats ->
  forall h : heap,
    (forall p, In p mats -> exists d, h !! p = Some (DBlock d) /\ length d = NB * NB) ->
    exists h',
      for_list mats (fun p => symmetrize p NB) h = Some (tt, h') /\
      (forall q, ~ In q mats -> h' !! q = h !! q) /\
      (forall p d, In p mats -> h !! p = Some (DBlock d) ->
                   h' !! p = Some (DBlock (sym_block NB d))).
Proof.
  induction 1 as [|p mats Hnotin Hnd IH]; intros h Hok.
  - exists h. split; [reflexivity|]. split; [reflexivity|]. intros p d [].
  - destruct (Hok p (or_introl eq_refl)) as (d & Hp & Hlen).
    assert (Hnotin' : ~ In p mats) by (intros Hin; apply Hnotin; now apply list_elem_of_In).
    destruct (IH (<[p := DBlock (sym_block NB d)]> h)) as (h' & E & Hfr & Hsym).
    { intros q Hq. destruct (Hok q (or_intror Hq)) as (dq & Hq' & Hlq).
      exists dq. split; [|exact Hlq].
      rewrite lookup_insert_ne by (intros ->; contradiction). exact Hq'. }
    exists h'. split; [|split].
    + simpl. rewrite (bind_Some _ _ _ _ _ (symmetrize_eq p NB d h Hp Hlen)). exact E.
    + intros q Hq. rewrite Hfr by (intros Hin; apply Hq; now right).
      apply lookup_insert_ne. intros ->. apply Hq. now left.
    + intros q dq [<-|Hq] Hq'.
      * rewrite Hfr by exact Hnotin'. rewrite lookup_insert_eq. congruence.
      * apply Hsym; [exact Hq|].
        rewrite lookup_insert_ne by (intros ->; contradiction). exact Hq'.
Qed.

(** ** The driver *)

Lemma touches_bind_lift {A B} X (o : option A) (k : A -> comp B) :
  (forall a, o = Some a -> touches_only X (k a)) ->
  touches_only X (bind (lift o) k).
Proof.
  intros Hk h b h' E p Hp. apply bind_inv in E as (a & h1 & E1 & E2).
  unfold lift in E1. destruct o as [a'|]; inversion E1; subst.
  apply (Hk a eq_refl h1 b h' E2 p Hp).
Qed.

Lemma touches_place_block (X : loc -> Prop) p NB bf1 bf2 n1 n2 buf :
  X p -> touches_only X (place_block p NB bf1 bf2 n1 n2 buf).
Proof.
  intros HX. apply touches_for_range. intros b _. apply touches_for_range. intros a _.
  now apply touches_store.
Qed.

Lemma touches_symmetrize (X : loc -> Prop) p NB : X p -> touches_only X (symmetrize p NB).
Proof.
  intros HX. apply touches_for_range. intros j _. apply touches_for_range. intros i _.
  apply touches_bind; [apply touches_load | intros x; now apply touches_store].
Qed.

Section DriverFootprint.
Context `{Libint}.

Lemma touches_pair_body e mats NB sh1 sh2 bf1 bf2 :
  touches_only (fun q => In q mats) (pair_body e mats NB sh1 sh2 bf1 bf2).
Proof.
  unfold pair_body. destruct (compute e sh1 sh2) as [|[b0|] rest].
  - apply touches_fault.
  - apply touches_for_range. intros iMat _.
    apply touches_bind_lift. intros buf _.
    apply touches_bind_lift. intros p Hp.
    apply touches_place_block. apply list_elem_of_In. eapply list_elem_of_lookup_2, Hp.
  - apply touches_ret.
Qed.

Lemma touches_loop_s2 e mats NB sh1 bf1 todo bf2 :
  touches_only (fun q => In q mats) (loop_s2 e mats NB sh1 bf1 todo bf2).
Proof.
  revert bf2. induction todo as [|sh2 todo IH]; intros bf2; simpl.
  - apply touches_ret.
  - apply touches_bind; [apply touches_pair_body | intros _; apply IH].
Qed.

Lemma touches_loop_s1 e mats NB shells todo s1 bf1 :
  touches_only (fun q => In q mats) (loop_s1 e mats NB shells todo s1 bf1).
Proof.
  revert s1 bf1. induction todo as [|sh1 todo IH]; intros s1 bf1; simpl.
  - apply touches_ret.
  - apply touches_bind; [apply touches_loop_s2 | intros _; apply IH].
Qed.

End DriverFootprint.

Section Driver.
Context `{Allocator} `{Libint}.

(** The result buffers are new, distinct and zeroed. *)
Lemma alloc_mats_spec count NBSQ :
  forall h : heap,
    exists mats h1,
      alloc_mats count NBSQ h = Some (mats, h1) /\
      length mats = count /\ NoDup mats /\
      (forall p, In p mats ->
         h !! p = None /\ h1 !! p = Some (DBlock (replicate NBSQ 0%R))) /\
      (forall q, ~ In q mats -> h1 !! q = h !! q).
Proof.
  induction count as [|count IH]; intros h.
  - exists [], h. simpl. split; [reflexivity|]. split; [reflexivity|].
    split; [constructor|]. split; [intros p []|reflexivity].
  - set (p := fresh (dom h)).
    assert (Fp : h !! p = None) by apply fresh_None.
    set (h2 := <[p := DBlock (map (uninit p) (seq 0 NBSQ))]> h).
    set (h3 := <[p := DBlock (replicate NBSQ 0%R)]> h2).
    destruct (IH h3) as (rest & h4 & E & Hlen & Hnd & Hnew & Hfr).
    assert (Hp : ~ In p rest).
    { intros Hin. destruct (Hnew p Hin) as [Hn _]. subst h3.
      rewrite lookup_insert_eq in Hn. discriminate. }
    exists (p :: rest), h4. split; [|split; [|split; [|split]]].
    + simpl. rewrite (bind_Some _ _ _ _ _ (malloc_double_eq NBSQ h)). fold p h2.
      rewrite (bind_Some _ _ _ _ _ (fill_n_eq p NBSQ 0%R _ h2
                 ltac:(subst h2; apply lookup_insert_eq)
                 ltac:(now rewrite length_map, length_seq))).
      fold h3. rewrite (bind_Some _ _ _ _ _ E). reflexivity.
    + simpl. now rewrite Hlen.
    + constructor; [|exact Hnd]. intros Hin. apply Hp. now apply list_elem_of_In.
    + intros q [<-|Hq].
      * split; [exact Fp|]. rewrite Hfr by exact Hp. subst h3. apply lookup_insert_eq.
      * destruct (Hnew q Hq) as [Hn Hz]. split; [|exact Hz].
        assert (q <> p) by (intros ->; contradiction).
        subst h3 h2. now rewrite !lookup_insert_ne in Hn by congruence.
    + intros q Hq. rewrite Hfr by (intros Hin; apply Hq; now right).
      assert (q <> p) by (intros ->; apply Hq; now left).
      subst h3 h2. now rewrite !lookup_insert_ne by congruence.
Qed.

Lemma block_ok_zero e shells k n :
  n = basis_size shells * basis_size shells ->
  block_ok e shells k (fun _ _ => False) (replicate n 0%R).
Proof.
  intros ->. split; [apply length_replicate|]. split.
  - intros s1 s2 sh1 sh2 buf a b [].
  - intros idx _.
    destruct (decide (idx < basis_size shells * basis_size shells)).
    + now apply content_replicate.
    + apply content_ge. rewrite length_replicate. lia.
Qed.

Lemma OneEDriver_assemble_spec ao op shells (h : heap) mats hA :
  OneEDriver_assemble ao op shells h = Some (mats, hA) ->
  exists e,
    driver_engine ao op shells = Some e /\
    length mats = results_size e /\ NoDup mats /\
    (forall p, In p mats -> h !! p = None) /\
    (forall q, ~ In q mats -> hA !! q = h !! q) /\
    assembled e shells mats (fun _ _ _ => True) hA.
Proof.
  intros E. unfold OneEDriver_assemble in E.
  apply bind_inv in E as (maxL & h0 & E0 & E). unfold lift in E0.
  destruct (max_element less_l shells ≫= contr0_l) as [maxL'|] eqn:EL; [|discriminate].
  inversion E0; subst maxL' h0. clear E0.
  apply bind_inv in E as (maxPrim & h0 & E0 & E). unfold lift in E0.
  destruct ((fun sh => length (Shell_alpha sh)) <$> max_element less_nprim shells)
    as [maxPrim'|] eqn:EP; [|discriminate].
  inversion E0; subst maxPrim' h0. clear E0.
  set (e := first_engine ao op maxPrim maxL) in *.
  apply bind_inv in E as (mats' & h1 & E1 & E).
  apply bind_inv in E as ([] & h2 & E2 & E).
  unfold ret in E. inversion E; subst mats' h2. clear E.
  destruct (alloc_mats_spec (results_size e) (basis_size shells * basis_size shells) h)
    as (mats0 & h0 & E1' & Hlen & Hnd & Hnew & Hfr).
  rewrite E1 in E1'. inversion E1'; subst mats0 h0. clear E1'.
  exists e. split.
  { unfold driver_engine. rewrite EL. simpl. rewrite EP. reflexivity. }
  split; [exact Hlen|]. split; [exact Hnd|]. split; [intros p Hp; apply (Hnew p Hp)|].
  split.
  - intros q Hq. rewrite (touches_loop_s1 _ _ _ _ _ _ _ _ _ _ E2 q Hq). now apply Hfr.
  - apply (hoare_loop_s1 e shells mats Hnd shells 0 eq_refl h1 tt hA E2).
    intros k p Hk. exists (replicate (basis_size shells * basis_size shells) 0%R).
    split.
    + apply Hnew. apply list_elem_of_In. eapply list_elem_of_lookup_2, Hk.
    + apply (block_ok_ext e shells k (fun _ _ => False)); [intros; lia|].
      now apply block_ok_zero.
Qed.

(** What the driver returns: new buffers, one per component of the
    engine's result, each the symmetric completion of the assembled
    lower triangle; nothing else is changed. *)
Lemma OneEDriver_spec ao op shells (h : heap) mats h' :
  OneEDriver ao op shells h = Some (mats, h') ->
  exists e hA,
    driver_engine ao op shells = Some e /\
    OneEDriver_assemble ao op shells h = Some (mats, hA) /\
    length mats = results_size e /\ NoDup mats /\
    (forall p, In p mats -> h !! p = None) /\
    (forall q, ~ In q mats -> h' !! q = h !! q) /\
    forall k p, mats !! k = Some p ->
      exists dA, hA !! p = Some (DBlock dA) /\
                 block_ok e shells k (fun _ _ => True) dA /\
                 h' !! p = Some (DBlock (sym_block (basis_size shells) dA)).
Proof.
  intros E. unfold OneEDriver in E.
  apply bind_inv in E as (mats' & hA & EA & E).
  apply bind_inv in E as ([] & h2 & ES & E).
  unfold ret in E. inversion E; subst mats' h2. clear E.
  destruct (OneEDriver_assemble_spec ao op shells h mats hA EA)
    as (e & He & Hlen & Hnd & Hnew & Hfr & Hasm).
  destruct (symmetrize_all (basis_size shells) mats Hnd hA) as (h'' & ES' & Hfr' & Hsym).
  { intros p Hp. apply list_elem_of_In, list_elem_of_lookup_1 in Hp as [k Hk].
    destruct (Hasm k p Hk) as (d & Hd & Hok). exists d. split; [exact Hd | apply Hok]. }
  rewrite ES in ES'. inversion ES'; subst h''. clear ES'.
  exists e, hA. split; [exact He|]. split; [exact EA|]. split; [exact Hlen|].
  split; [exact Hnd|]. split; [exact Hnew|]. split.
  - intros q Hq. rewrite Hfr' by exact Hq. now apply Hfr.
  - intros k p Hk. destruct (Hasm k p Hk) as (d & Hd & Hok).
    exists d. split; [exact Hd|]. split; [exact Hok|]. apply Hsym; [|exact Hd].
    apply list_elem_of_In. eapply list_elem_of_lookup_2, Hk.
Qed.

(** Inside the block of a screened pair the assembled matrix is zero. *)
Lemma screened_block_zero e shells k dA s1 s2 sh1 sh2 idx :
  block_ok e shells k (fun _ _ => True) dA ->
  shells !! s1 = Some sh1 -> shells !! s2 = Some sh2 ->
  screened e sh1 sh2 ->
  in_block (basis_size shells) (offset shells s1) (Shell_size sh1)
           (offset shells s2) (Shell_size sh2) idx ->
  content dA idx = 0%R.
Proof.
  intros (Hlen & Hin & Hout) Hs1 Hs2 [rest Hscr] Hblk. apply Hout.
  intros t1 t2 th1 th2 _ Hle Ht1 Ht2 (b0 & rest' & Hun) Hblk'.
  destruct (in_block_inj shells s1 s2 t1 t2 sh1 sh2 th1 th2 idx Hs1 Hs2 Ht1 Ht2 Hblk Hblk')
    as [-> ->].
  congruence.
Qed.

(** Every matrix of a run that returns is exactly symmetric; its lower
    triangle is the assembled one, and the upper triangle is the mirror
    image of that. *)
Lemma OneEDriver_symmetric_post ao op shells (h : heap) mats h' :
  OneEDriver ao op shells h = Some (mats, h') ->
  let NB := basis_size shells in
  exists hA,
    OneEDriver_assemble ao op shells h = Some (mats, hA) /\
    forall p, In p mats ->
      exists dA d,
        buffer hA p = Some dA /\ buffer h' p = Some d /\
        forall i j, i < NB -> j < NB ->
          entry NB d i j = entry NB d j i /\
          (j <= i -> entry NB d i j = entry NB dA i j /\
                     entry NB d j i = entry NB dA i j).
Proof.
  intros E NB.
  destruct (OneEDriver_spec ao op shells h mats h' E)
    as (e & hA & _ & EA & _ & _ & _ & _ & Hblk).
  exists hA. split; [exact EA|].
  intros p Hp. apply list_elem_of_In, list_elem_of_lookup_1 in Hp as [k Hk].
  destruct (Hblk k p Hk) as (dA & HdA & Hok & Hd).
  exists dA, (sym_block NB dA). unfold buffer. rewrite HdA, Hd.
  split; [reflexivity|]. split; [reflexivity|].
  intros i j Hi Hj. pose proof (proj1 Hok) as Hlen. fold NB in Hlen.
  rewrite !entry_sym_block by assumption.
  split.
  - destruct (decide (i < j)), (decide (j < i)); try reflexivity; try lia.
    now replace j with i by lia.
  - intros Hle. destruct (decide (i < j)), (decide (j < i)); try lia; split;
      try reflexivity; now replace j with i by lia.
Qed.

(** In a run that returns, a screened pair leaves its block and the mirror
    image of the block exactly zero. *)
Lemma OneEDriver_screened_post ao op shells (h : heap) mats h' e
    s1 s2 sh1 sh2 :
  OneEDriver ao op shells h = Some (mats, h') ->
  driver_engine ao op shells = Some e ->
  s2 <= s1 -> shells !! s1 = Some sh1 -> shells !! s2 = Some sh2 ->
  screened e sh1 sh2 ->
  let NB := basis_size shells in
  forall p, In p mats ->
    exists d,
      buffer h' p = Some d /\
      forall a b, a < Shell_size sh1 -> b < Shell_size sh2 ->
        entry NB d (offset shells s1 + a) (offset shells s2 + b) = 0%R /\
        entry NB d (offset shells s2 + b) (offset shells s1 + a) = 0%R.
Proof.
  intros E He Hle Hs1 Hs2 Hscr NB p Hp.
  destruct (OneEDriver_spec ao op shells h mats h' E)
    as (e' & hA & He' & _ & _ & _ & _ & _ & Hblk).
  assert (e' = e) by congruence. subst e'.
  apply list_elem_of_In, list_elem_of_lookup_1 in Hp as [k Hk].
  destruct (Hblk k p Hk) as (dA & _ & Hok & Hd).
  exists (sym_block NB dA). unfold buffer. rewrite Hd. split; [reflexivity|].
  intros a b Ha Hb. pose proof (proj1 Hok) as Hlen. fold NB in Hlen.
  pose proof (offset_end shells s1 sh1 Hs1) as B1.
  pose proof (offset_end shells s2 sh2 Hs2) as B2. fold NB in B1, B2.
  assert (Z1 : entry NB dA (offset shells s1 + a) (offset shells s2 + b) = 0%R).
  { apply (screened_block_zero e shells k dA s1 s2 sh1 sh2 _ Hok Hs1 Hs2 Hscr).
    now exists a, b. }
  assert (Z2 : offset shells s1 + a < offset shells s2 + b ->
               entry NB dA (offset shells s2 + b) (offset shells s1 + a) = 0%R).
  { intros Hlt.
    assert (s1 = s2).
    { destruct (decide (s1 = s2)) as [|Hne]; [assumption|].
      pose proof (offset_next shells s2 s1 sh2 Hs2 ltac:(lia)). lia. }
    subst s2. assert (sh2 = sh1) by congruence. subst sh2.
    apply (screened_block_zero e shells k dA s1 s1 sh1 sh1 _ Hok Hs1 Hs1 Hscr).
    now exists b, a. }
  rewrite !entry_sym_block by lia.
  split.
  - destruct (decide (offset shells s1 + a < offset shells s2 + b)); auto.
  - destruct (decide (offset shells s2 + b < offset shells s1 + a)); [exact Z1|].
    destruct (decide (offset shells s1 + a = offset shells s2 + b)) as [Eq|Hne].
    + rewrite <- Eq at 1. rewrite Eq at 2. exact Z1.
    + apply Z2. lia.
Qed.

End Driver.

(** ** The loop [H = T + V] *)

Lemma load_eq p i d (h : heap) :
  h !! p = Some (DBlock d) ->
  load p i h = if decide (i < length d) then Some (content d i, h) else None.
Proof.
  intros Hp. unfold load. rewrite Hp.
  destruct (decide (i < length d)) as [Hi|Hi].
  - destruct (d !! i) as [x|] eqn:E.
    + unfold content. now rewrite (nth_lookup_Some _ _ _ _ E).
    + apply lookup_ge_None in E. lia.
  - rewrite (proj2 (lookup_ge_None d i)) by lia. reflexivity.
Qed.

Lemma store_eq p i x d (h : heap) :
  h !! p = Some (DBlock d) ->
  store p i x h
  = if decide (i < length d) then Some (tt, <[p := DBlock (<[i := x]> d)]> h) else None.
Proof. intros Hp. unfold store. now rewrite Hp. Qed.

Lemma core_loop_eq kin pot cH dk dp order :
  cH <> kin -> cH <> pot ->
  forall dh (h : heap),
    h !! kin = Some (DBlock dk) -> h !! pot = Some (DBlock dp) ->
    h !! cH = Some (DBlock dh) ->
    for_list order (fun i =>
      t <- load kin i ;; v <- load pot i ;; store cH i (t + v)%R) h
    = if core_fits dk dp dh order
      then Some (tt, <[cH := DBlock (core_sum dk dp order dh)]> h)
      else None.
Proof.
  intros Nk Np. induction order as [|i order IH]; intros dh h Hk Hp Hc.
  - simpl. unfold ret. now rewrite (heap_self h cH _ Hc).
  - cbn [for_list core_fits forallb]. unfold bind at 1.
    unfold bind at 1. rewrite (load_eq kin i dk h Hk).
    destruct (decide (i < length dk)) as [Hik|Hik].
    2:{ rewrite bool_decide_eq_false_2 by lia. reflexivity. }
    unfold bind at 1. rewrite (load_eq pot i dp h Hp).
    destruct (decide (i < length dp)) as [Hip|Hip].
    2:{ rewrite bool_decide_eq_false_2 by lia. reflexivity. }
    rewrite (store_eq cH i _ dh h Hc).
    destruct (decide (i < length dh)) as [Hih|Hih].
    2:{ rewrite bool_decide_eq_false_2 by lia. reflexivity. }
    rewrite bool_decide_eq_true_2 by lia. cbn [andb].
    rewrite (IH (<[i := (content dk i + content dp i)%R]> dh));
      [| now rewrite lookup_insert_ne by congruence
       | now rewrite lookup_insert_ne by congruence
       | apply lookup_insert_eq].
    fold (core_fits dk dp dh order).
    replace (core_fits dk dp (<[i := (content dk i + content dp i)%R]> dh) order)
      with (core_fits dk dp dh order)
      by (unfold core_fits; now rewrite length_insert).
    destruct (core_fits dk dp dh order); [|reflexivity].
    now rewrite insert_insert_eq.
Qed.

Lemma content_writes_id_in val l (d : list R) i :
  In i l -> i < length d -> content (writes (fun k => k) val l d) i = val i.
Proof.
  intros Hin Hlt.
  apply (content_writes_hit (fun k => k) val l d i Hin Hlt). now intros k' _ ->.
Qed.

Lemma content_writes_id_out val l (d : list R) i :
  ~ (In i l /\ i < length d) -> content (writes (fun k => k) val l d) i = content d i.
Proof.
  intros Hno. destruct (decide (i < length d)) as [Hlt|Hge].
  - apply content_writes_other. intros k Hk ->. apply Hno. now split.
  - rewrite !content_ge; [reflexivity | lia | rewrite length_writes; lia].
Qed.

Lemma core_sum_perm dk dp order order' dh :
  Permutation order order' -> core_sum dk dp order dh = core_sum dk dp order' dh.
Proof.
  intros HP. unfold core_sum. apply list_eq_content.
  - now rewrite !length_writes.
  - intros i _.
    destruct (classic (In i order /\ i < length dh)) as [[Hin Hlt]|Hno].
    + rewrite !content_writes_id_in; try assumption; [reflexivity|].
      now apply (Permutation_in _ HP).
    + rewrite !content_writes_id_out; [reflexivity | | exact Hno].
      intros [Hin Hlt]. apply Hno. split; [|assumption].
      now apply (Permutation_in _ (Permutation_sym HP)).
Qed.

Lemma core_fits_perm dk dp dh order order' :
  Permutation order order' -> core_fits dk dp dh order = core_fits dk dp dh order'.
Proof.
  unfold core_fits. induction 1 as [|x l l' _ IH|x y l|l l' l'' _ IH1 _ IH2]; simpl.
  - reflexivity.
  - now rewrite IH.
  - now rewrite !andb_assoc, (andb_comm (bool_decide _) (bool_decide _)).
  - congruence.
Qed.

Lemma content_core_sum dk dp order dh i :
  In i order -> i < length dh ->
  content (core_sum dk dp order dh) i = (content dk i + content dp i)%R.
Proof. intros Hin Hlt. unfold core_sum. now apply content_writes_id_in. Qed.

(** ** The OpenMP schedule *)

Lemma interleave_Permutation {A} (ls : list (list A)) out :
  interleave ls out -> Permutation (concat ls) out.
Proof.
  induction 1 as [ls Hall|ls1 x xs ls2 out _ IH].
  - replace (concat ls) with (@nil A); [constructor|].
    induction Hall as [|l ls -> _ IHl]; [reflexivity | exact IHl].
  - rewrite concat_app in *. simpl in *.
    rewrite <- Permutation_middle. constructor. exact IH.
Qed.

Lemma filter_split_lt (f : nat -> nat) T (l : list nat) :
  Permutation (filter (fun i => f i < T) l ++ filter (fun i => f i = T) l)
              (filter (fun i => f i < S T) l).
Proof.
  induction l as [|i l IH]; [reflexivity|].
  rewrite !filter_cons.
  destruct (decide (f i < T)), (decide (f i = T)), (decide (f i < S T)); try lia.
  - simpl. now constructor.
  - rewrite <- Permutation_middle. now constructor.
  - exact IH.
Qed.

Lemma filter_none (P : nat -> Prop) `{forall i, Decision (P i)} (l : list nat) :
  (forall i, ~ P i) -> filter P l = [].
Proof.
  intros HP. induction l as [|i l IH]; [reflexivity|].
  rewrite filter_cons. destruct (decide (P i)) as [Hi|_]; [now destruct (HP i) | exact IH].
Qed.

Lemma filter_all (P : nat -> Prop) `{forall i, Decision (P i)} (l : list nat) :
  (forall i, P i) -> filter P l = l.
Proof.
  intros HP. induction l as [|i l IH]; [reflexivity|].
  rewrite filter_cons. destruct (decide (P i)) as [_|Hi]; [now rewrite IH | now destruct Hi].
Qed.

(** Every iteration is dealt to exactly one thread. *)
Lemma omp_static_Permutation T chunk n sched :
  omp_static T chunk n = Some sched -> Permutation (concat sched) (seq 0 n).
Proof.
  unfold omp_static. destruct (decide (0 < T /\ 0 < chunk)) as [[HT _]|]; [|discriminate].
  intros E. inversion E; subst sched. clear E. unfold omp_static_thread.
  set (f := fun i => (i / chunk) mod T).
  assert (G : forall T', Permutation
            (concat (map (fun t => filter (fun i => f i = t) (seq 0 n)) (seq 0 T')))
            (filter (fun i => f i < T') (seq 0 n))).
  { induction T' as [|T' IH].
    - simpl. rewrite filter_none; [reflexivity | intros; lia].
    - rewrite seq_S, map_app, concat_app. simpl. rewrite app_nil_r.
      rewrite IH. apply filter_split_lt. }
  apply (Permutation_trans (G T)). rewrite filter_all; [reflexivity|].
  intros i. subst f. simpl. apply Nat.mod_upper_bound. lia.
Qed.

Lemma omp_order_Permutation T chunk n sched order :
  omp_static T chunk n = Some sched -> interleave sched order ->
  Permutation order (seq 0 n).
Proof.
  intros HS Hi. rewrite <- (omp_static_Permutation T chunk n sched HS).
  symmetry. now apply interleave_Permutation.
Qed.

(** ** [computeAOOneE] *)

Section OneE.
Context `{Allocator} `{LinAlg} `{Libint}.

Lemma OneEDriver_preserves ao op shells (h : heap) mats h' :
  OneEDriver ao op shells h = Some (mats, h') ->
  forall p b, h !! p = Some b -> h' !! p = Some b.
Proof.
  intros E p b Hp.
  destruct (OneEDriver_spec ao op shells h mats h' E)
    as (e & hA & _ & _ & _ & _ & Hnew & Hfr & _).
  rewrite Hfr; [exact Hp|]. intros Hin. rewrite (Hnew p Hin) in Hp. discriminate.
Qed.

Lemma OneEDriver_live ao op shells (h : heap) mats h' k p :
  OneEDriver ao op shells h = Some (mats, h') -> mats !! k = Some p ->
  exists d, h' !! p = Some (DBlock d)
            /\ length d = basis_size shells * basis_size shells.
Proof.
  intros E Hk.
  destruct (OneEDriver_spec ao op shells h mats h' E)
    as (e & hA & _ & _ & _ & _ & _ & _ & Hblk).
  destruct (Hblk k p Hk) as (dA & _ & Hok & Hd).
  exists (sym_block (basis_size shells) dA). split; [exact Hd|].
  rewrite length_sym_block. apply Hok.
Qed.

Lemma computeAOOneE_spec order ao (h : heap) ao' h' :
  computeAOOneE order ao h = Some (ao', h') ->
  let sh := shells (basisSet_ ao) in
  exists mp h1 kn h2 pt h3 cH dk dp,
    OneEDriver ao Operator_emultipole3 sh h = Some (mp, h1) /\
    OneEDriver ao Operator_kinetic sh h1 = Some (kn, h2) /\
    OneEDriver ao Operator_nuclear sh h2 = Some (pt, h3) /\
    (mp !! 0 = Some (overlap ao') /\
     20 <= length mp /\
     lenElecDipole ao' = lenElecDipole ao ++ take 3 (drop 1 mp) /\
     lenElecQuadrupole ao' = lenElecQuadrupole ao ++ take 6 (drop 4 mp) /\
     lenElecOctupole ao' = lenElecOctupole ao ++ take 10 (drop 10 mp)) /\
    kn !! 0 = Some (kinetic ao') /\
    pt !! 0 = Some (potential ao') /\
    coreH ao' = coreH ao ++ [cH] /\
    h3 !! cH = None /\
    h3 !! kinetic ao' = Some (DBlock dk) /\
    h3 !! potential ao' = Some (DBlock dp) /\
    core_fits dk dp (replicate (nSQ_ ao) 0%R) order = true /\
    h' !! cH = Some (DBlock (core_sum dk dp order (replicate (nSQ_ ao) 0%R))) /\
    (forall p b, h3 !! p = Some b -> h' !! p = Some b).
Proof.
  intros E sh. unfold computeAOOneE in E. fold sh in E.
  apply bind_inv in E as (mp & h1 & E1 & E).
  apply bind_inv in E as (kn & h2 & E2 & E).
  apply bind_inv in E as (pt & h3 & E3 & E).
  apply bind_inv in E as (ov & h4 & Eov & E). unfold lift in Eov.
  destruct (mp !! 0) as [ov'|] eqn:Hov; [|discriminate].
  inversion Eov; subst ov' h4. clear Eov.
  apply bind_inv in E as (dip & h4 & Ed & E). unfold lift, copy_n_back in Ed.
  destruct (decide (1 + 3 <= length mp)) as [L1|]; [|discriminate].
  inversion Ed; subst dip h4. clear Ed.
  apply bind_inv in E as (quad & h4 & Eq & E). unfold lift, copy_n_back in Eq.
  destruct (decide (4 + 6 <= length mp)) as [L2|]; [|discriminate].
  inversion Eq; subst quad h4. clear Eq.
  apply bind_inv in E as (oct & h4 & Eo & E). unfold lift, copy_n_back in Eo.
  destruct (decide (10 + 10 <= length mp)) as [L3|]; [|discriminate].
  inversion Eo; subst oct h4. clear Eo.
  apply bind_inv in E as (kin & h4 & Ek & E). unfold lift in Ek.
  destruct (kn !! 0) as [kin'|] eqn:Hkin; [|discriminate].
  inversion Ek; subst kin' h4. clear Ek.
  apply bind_inv in E as (pot & h4 & Ep & E). unfold lift in Ep.
  destruct (pt !! 0) as [pot'|] eqn:Hpot; [|discriminate].
  inversion Ep; subst pot' h4. clear Ep.
  apply bind_inv in E as (cH & h4 & Ec & E).
  rewrite malloc_double_eq in Ec. inversion Ec; subst cH h4. clear Ec.
  set (cH := fresh (dom h3)) in *.
  assert (Fc : h3 !! cH = None) by apply fresh_None.
  cbn [kinetic potential nSQ_ set_oneE] in E.
  apply bind_inv in E as ([] & h5 & Ef & E).
  rewrite (fill_n_eq cH (nSQ_ ao) 0%R _ _ (lookup_insert_eq _ _ _)
             ltac:(now rewrite length_map, length_seq)) in Ef.
  inversion Ef; subst h5. clear Ef. rewrite insert_insert_eq in E.
  apply bind_inv in E as ([] & h6 & El & E).
  destruct (OneEDriver_live ao Operator_kinetic sh h1 kn h2 0 kin E2 Hkin) as (dk & Hdk & _).
  destruct (OneEDriver_live ao Operator_nuclear sh h2 pt h3 0 pot E3 Hpot) as (dp & Hdp & _).
  pose proof (OneEDriver_preserves ao Operator_nuclear sh h2 pt h3 E3 kin _ Hdk) as Hdk3.
  assert (Nk : cH <> kin) by congruence.
  assert (Np : cH <> pot) by congruence.
  rewrite (core_loop_eq kin pot cH dk dp order Nk Np (replicate (nSQ_ ao) 0%R)) in El;
    [| now rewrite lookup_insert_ne by congruence
     | now rewrite lookup_insert_ne by congruence
     | apply lookup_insert_eq].
  destruct (core_fits dk dp (replicate (nSQ_ ao) 0%R) order) eqn:Hfit; [|discriminate].
  inversion El; subst h6. clear El. rewrite insert_insert_eq in E.
  destruct (computeOrtho_frame _ _ _ _ E) as ((o1 & o2 & ->) & _ & Hfr).
  exists mp, h1, kn, h2, pt, h3, cH, dk, dp.
  cbn [overlap kinetic potential coreH lenElecDipole lenElecQuadrupole lenElecOctupole
       set_orthoType set_ortho set_oneE].
  split; [exact E1|]. split; [exact E2|]. split; [exact E3|].
  split; [split; [exact Hov|]; split; [lia|]; repeat split|].
  split; [exact Hkin|]. split; [exact Hpot|]. split; [reflexivity|].
  split; [exact Fc|]. split; [exact Hdk3|]. split; [exact Hdp|].
  split; [exact Hfit|]. split.
  - apply Hfr. apply lookup_insert_eq.
  - intros p b Hp. apply Hfr. rewrite lookup_insert_ne by congruence. exact Hp.
Qed.

(** The order in which the iterations of [H = T + V] run is immaterial. *)
Lemma computeAOOneE_perm order order' ao (h : heap) r :
  Permutation order order' ->
  computeAOOneE order ao h = Some r -> computeAOOneE order' ao h = Some r.
Proof.
  intros HP E. unfold computeAOOneE in *.
  set (sh := shells (basisSet_ ao)) in *.
  apply bind_inv in E as (mp & h1 & E1 & E). rewrite (bind_Some _ _ _ _ _ E1).
  apply bind_inv in E as (kn & h2 & E2 & E). rewrite (bind_Some _ _ _ _ _ E2).
  apply bind_inv in E as (pt & h3 & E3 & E). rewrite (bind_Some _ _ _ _ _ E3).
  apply bind_inv in E as (ov & h4 & Eov & E). rewrite (bind_Some _ _ _ _ _ Eov).
  apply bind_inv in E as (dip & h5 & Ed & E). rewrite (bind_Some _ _ _ _ _ Ed).
  apply bind_inv in E as (quad & h6 & Eq & E). rewrite (bind_Some _ _ _ _ _ Eq).
  apply bind_inv in E as (oct & h7 & Eo & E). rewrite (bind_Some _ _ _ _ _ Eo).
  apply bind_inv in E as (kin & h8 & Ek & E). rewrite (bind_Some _ _ _ _ _ Ek).
  apply bind_inv in E as (pot & h9 & Ep & E). rewrite (bind_Some _ _ _ _ _ Ep).
  apply bind_inv in E as (cH & h10 & Ec & E). rewrite (bind_Some _ _ _ _ _ Ec).
  cbn [kinetic potential nSQ_ set_oneE] in *.
  apply bind_inv in E as ([] & h11 & Ef & E). rewrite (bind_Some _ _ _ _ _ Ef).
  apply bind_inv in E as ([] & h12 & El & E).
  assert (El' : for_list order' (fun i =>
                  t <- load kin i ;; v <- load pot i ;; store cH i (t + v)%R) h11
                = Some (tt, h12)); [|now rewrite (bind_Some _ _ _ _ _ El')].
  unfold lift in Eov, Ed, Eq, Eo, Ek, Ep.
  destruct (mp !! 0); [|discriminate]. inversion Eov; subst. clear Eov.
  destruct (copy_n_back mp 1 3 _); [|discriminate]. inversion Ed; subst. clear Ed.
  destruct (copy_n_back mp 4 6 _); [|discriminate]. inversion Eq; subst. clear Eq.
  destruct (copy_n_back mp 10 10 _); [|discriminate]. inversion Eo; subst. clear Eo.
  destruct (kn !! 0) as [kin'|] eqn:Hkin; [|discriminate]. inversion Ek; subst. clear Ek.
  destruct (pt !! 0) as [pot'|] eqn:Hpot; [|discriminate]. inversion Ep; subst. clear Ep.
  rewrite malloc_double_eq in Ec. inversion Ec; subst cH h10. clear Ec.
  set (cH := fresh (dom h9)) in *.
  assert (Fc : h9 !! cH = None) by apply fresh_None.
  rewrite (fill_n_eq cH (nSQ_ ao) 0%R _ _ (lookup_insert_eq _ _ _)
             ltac:(now rewrite length_map, length_seq)) in Ef.
  inversion Ef; subst h11. clear Ef. rewrite insert_insert_eq in *.
  destruct (OneEDriver_live ao Operator_kinetic sh h1 kn h2 0 kin E2 Hkin) as (dk & Hdk & _).
  destruct (OneEDriver_live ao Operator_nuclear sh h2 pt h9 0 pot E3 Hpot) as (dp & Hdp & _).
  pose proof (OneEDriver_preserves ao Operator_nuclear sh h2 pt h9 E3 kin _ Hdk) as Hdk3.
  assert (Nk : cH <> kin) by congruence.
  assert (Np : cH <> pot) by congruence.
  rewrite (core_loop_eq kin pot cH dk dp order Nk Np (replicate (nSQ_ ao) 0%R)) in El;
    [| now rewrite lookup_insert_ne by congruence
     | now rewrite lookup_insert_ne by congruence
     | apply lookup_insert_eq].
  rewrite (core_loop_eq kin pot cH dk dp order' Nk Np (replicate (nSQ_ ao) 0%R));
    [| now rewrite lookup_insert_ne by congruence
     | now rewrite lookup_insert_ne by congruence
     | apply lookup_insert_eq].
  rewrite <- (core_fits_perm dk dp _ order order' HP).
  rewrite <- (core_sum_perm dk dp order order' _ HP). exact El.
Qed.

End OneE.

Section OneELayout.
Context `{Allocator} `{LinAlg} `{Libint}.

(** In a run that returns, with an engine of 20 components for the
    combined overlap and multipole operator, the collection has 20
    matrices and they are extracted by position. *)
Lemma computeAOOneE_layout_post order ao (h : heap) ao' h' :
  let sh := shells (basisSet_ ao) in
  (forall e, driver_engine ao Operator_emultipole3 sh = Some e -> results_size e = 20) ->
  computeAOOneE order ao h = Some (ao', h') ->
  exists e mp h1,
    driver_engine ao Operator_emultipole3 sh = Some e /\
    OneEDriver ao Operator_emultipole3 sh h = Some (mp, h1) /\
    length mp = 20 /\ NoDup mp /\
    (forall k p, mp !! k = Some p ->
       exists dA, block_ok e sh k (fun _ _ => True) dA /\
                  buffer h' p = Some (sym_block (basis_size sh) dA)) /\
    mp !! 0 = Some (overlap ao') /\
    lenElecDipole ao' = lenElecDipole ao ++ take 3 (drop 1 mp) /\
    lenElecQuadrupole ao' = lenElecQuadrupole ao ++ take 6 (drop 4 mp) /\
    lenElecOctupole ao' = lenElecOctupole ao ++ take 10 (drop 10 mp) /\
    take 1 mp ++ take 3 (drop 1 mp) ++ take 6 (drop 4 mp) ++ take 10 (drop 10 mp) = mp.
Proof.
  intros sh H20 E.
  destruct (computeAOOneE_spec order ao h ao' h' E)
    as (mp & h1 & kn & h2 & pt & h3 & cH & dk & dp & E1 & E2 & E3
        & (Hov & Hlen & Hd & Hq & Ho) & _ & _ & _ & _ & _ & _ & _ & _ & Hfr).
  fold sh in E1, E2, E3.
  destruct (OneEDriver_spec ao Operator_emultipole3 sh h mp h1 E1)
    as (e & hA & He & _ & Hsize & Hnd & _ & _ & Hblk).
  pose proof (H20 e He) as H20e.
  exists e, mp, h1. split; [exact He|]. split; [exact E1|].
  split; [congruence|]. split; [exact Hnd|]. split.
  { intros k p Hk. destruct (Hblk k p Hk) as (dA & _ & Hok & Hp).
    exists dA. split; [exact Hok|]. unfold buffer.
    rewrite (Hfr p _ (OneEDriver_preserves ao Operator_nuclear sh h2 pt h3 E3 p _
                        (OneEDriver_preserves ao Operator_kinetic sh h1 kn h2 E2 p _ Hp))).
    reflexivity. }
  split; [exact Hov|]. split; [exact Hd|]. split; [exact Hq|]. split; [exact Ho|].
  assert (Hl : length mp = 20) by congruence.
  do 21 (destruct mp as [|? mp]; [simpl in Hl; try lia|]); [reflexivity | simpl in Hl; lia].
Qed.

(** [computeAOOneE] returns as soon as the three driver calls do and the
    sizes recorded in the object are those of the basis. *)
Lemma computeAOOneE_returns order ao (h : heap) mp h1 kn h2 pt h3 :
  let sh := shells (basisSet_ ao) in
  OneEDriver ao Operator_emultipole3 sh h = Some (mp, h1) ->
  OneEDriver ao Operator_kinetic sh h1 = Some (kn, h2) ->
  OneEDriver ao Operator_nuclear sh h2 = Some (pt, h3) ->
  20 <= length mp -> 0 < length kn -> 0 < length pt ->
  basis_size sh = nBasis (basisSet_ ao) ->
  nSQ_ ao = nBasis (basisSet_ ao) * nBasis (basisSet_ ao) ->
  (forall i, In i order -> i < nSQ_ ao) ->
  exists ao' h', computeAOOneE order ao h = Some (ao', h').
Proof.
  intros sh E1 E2 E3 Lmp Lkn Lpt HNB HnSQ Hord.
  destruct (mp !! 0) as [ov|] eqn:Hov; [|apply lookup_ge_None in Hov; lia].
  destruct (kn !! 0) as [kin|] eqn:Hkin; [|apply lookup_ge_None in Hkin; lia].
  destruct (pt !! 0) as [pot|] eqn:Hpot; [|apply lookup_ge_None in Hpot; lia].
  destruct (OneEDriver_live ao Operator_emultipole3 sh h mp h1 0 ov E1 Hov) as (dS & HdS & LS).
  destruct (OneEDriver_live ao Operator_kinetic sh h1 kn h2 0 kin E2 Hkin) as (dk & Hdk & Lk).
  destruct (OneEDriver_live ao Operator_nuclear sh h2 pt h3 0 pot E3 Hpot) as (dp & Hdp & Lp).
  pose proof (OneEDriver_preserves ao Operator_nuclear sh h2 pt h3 E3 kin _ Hdk) as Hdk3.
  pose proof (OneEDriver_preserves ao Operator_nuclear sh h2 pt h3 E3 ov _
                (OneEDriver_preserves ao Operator_kinetic sh h1 kn h2 E2 ov _ HdS)) as HdS3.
  set (cH := fresh (dom h3)).
  assert (Fc : h3 !! cH = None) by apply fresh_None.
  assert (Nk : cH <> kin) by congruence.
  assert (Np : cH <> pot) by congruence.
  assert (No : cH <> ov) by congruence.
  set (ao1 := set_oneE ao ov (lenElecDipole ao ++ take 3 (drop 1 mp))
                (lenElecQuadrupole ao ++ take 6 (drop 4 mp))
                (lenElecOctupole ao ++ take 10 (drop 10 mp)) kin pot (coreH ao ++ [cH])).
  set (h6 := <[cH := DBlock (core_sum dk dp order (replicate (nSQ_ ao) 0%R))]> h3).
  destruct (computeOrtho_result ao1 h6 dS) as (ao' & h' & EO & _).
  { unfold buffer. subst h6 ao1. cbn [overlap set_oneE].
    rewrite lookup_insert_ne by congruence. now rewrite HdS3. }
  { exact HnSQ. }
  { subst ao1. cbn [basisSet_ set_oneE]. rewrite LS, HNB. reflexivity. }
  exists ao', h'. unfold computeAOOneE. fold sh.
  rewrite (bind_Some _ _ _ _ _ E1), (bind_Some _ _ _ _ _ E2), (bind_Some _ _ _ _ _ E3).
  rewrite Hov, Hkin, Hpot. unfold copy_n_back.
  destruct (decide (1 + 3 <= length mp)); [|lia].
  destruct (decide (4 + 6 <= length mp)); [|lia].
  destruct (decide (10 + 10 <= length mp)); [|lia].
  unfold lift at 1 2 3 4 5 6. unfold bind at 1 2 3 4 5 6.
  rewrite (bind_Some _ _ _ _ _ (malloc_double_eq (nSQ_ ao) h3)). fold cH.
  cbn [kinetic potential nSQ_ set_oneE].
  rewrite (bind_Some _ _ _ _ _ (fill_n_eq cH (nSQ_ ao) 0%R _ _ (lookup_insert_eq _ _ _)
             ltac:(now rewrite length_map, length_seq))).
  rewrite insert_insert_eq.
  set (h5 := <[cH := DBlock (replicate (nSQ_ ao) 0%R)]> h3).
  assert (EL : for_list order (fun i =>
                 t <- load kin i ;; v <- load pot i ;; store cH i (t + v)%R) h5
               = Some (tt, <[cH := DBlock (core_sum dk dp order (replicate (nSQ_ ao) 0%R))]> h5)).
  { rewrite (core_loop_eq kin pot cH dk dp order Nk Np (replicate (nSQ_ ao) 0%R) h5);
      [| subst h5; now rewrite lookup_insert_ne by congruence
       | subst h5; now rewrite lookup_insert_ne by congruence
       | subst h5; apply lookup_insert_eq].
    replace (core_fits dk dp (replicate (nSQ_ ao) 0%R) order) with true; [reflexivity|].
    symmetry. apply forallb_forall. intros i Hi. apply bool_decide_eq_true.
    rewrite length_replicate. specialize (Hord i Hi). nia. }
  rewrite (bind_Some _ _ _ _ _ EL). subst h5.
  rewrite insert_insert_eq. exact EO.
Qed.

End OneELayout.

(** ** The driver on the concrete basis *)

Lemma toy_engine_is : forall op,
  @driver_engine toy_engine ao_toy op toy_shells = Some op.
Proof. intros []; reflexivity. Qed.

Lemma toy_order_interleaves :
  omp_static 4 (omp_chunk 4 4) 4 = Some [[0; 1]; [2; 3]; []; []] /\
  interleave [[0; 1]; [2; 3]; []; []] toy_order.
Proof.
  split; [reflexivity|].
  apply (interleave_step [] 0 [1] [[2; 3]; []; []]).
  apply (interleave_step [[1]] 2 [3] [[]; []]).
  apply (interleave_step [] 1 [] [[3]; []; []]).
  apply (interleave_step [[]] 3 [] [[]; []]).
  apply interleave_done. repeat constructor.
Qed.

(** ** The [LOWDIN] branch *)

(** ** Stores that update in place *)

Lemma map_add_seq c s n : map (fun i => i + c) (seq s n) = seq (s + c) n.
Proof.
  revert s. induction n as [|n IH]; intros s; simpl; [reflexivity|].
  now rewrite IH.
Qed.

Lemma map_idx_nest_gen n a m :
  map (fun ji : nat * nat => ji.2 + ji.1 * n)
      (flat_map (fun j => map (fun i => (j, i)) (seq 0 (n - 0))) (seq a m))
  = seq (a * n) (m * n).
Proof.
  revert a. induction m as [|m IH]; intros a; simpl; [reflexivity|].
  rewrite map_app, map_map, IH. simpl. rewrite Nat.sub_0_r.
  rewrite seq_app. f_equal.
  - apply (map_add_seq (a * n) 0 n).
  - f_equal. lia.
Qed.

Lemma NoDup_idx_nest n :
  NoDup (map (fun ji : nat * nat => ji.2 + ji.1 * n)
             (nest n (fun _ => 0) (fun _ => n))).
Proof. unfold nest. rewrite map_idx_nest_gen. apply NoDup_seq. Qed.

Lemma inplace_writes {K} (idx : K -> nat) (g : K -> R -> R) (l : list K) (d : list R) :
  NoDup (map idx l) ->
  fold_left (fun acc k => <[idx k := g k (content acc (idx k))]> acc) l d
  = writes idx (fun k => g k (content d (idx k))) l d.
Proof.
  induction l as [|k l IH] using rev_ind; intros Hnd; [reflexivity|].
  rewrite map_app in Hnd. apply NoDup_app in Hnd as (Hl & Hsep & _).
  unfold writes. rewrite !fold_left_app. simpl.
  fold (writes idx (fun k => g k (content d (idx k))) l d).
  rewrite IH by exact Hl. do 2 f_equal.
  apply content_writes_other. intros k' Hk' E.
  apply (Hsep (idx k')).
  - apply list_elem_of_In, in_map, Hk'.
  - rewrite E. simpl. apply list_elem_of_here.
Qed.

Section LowdinKernel.
Context `{LinAlg}.

Lemma HermetianEigen_eq jz ul n A lda W a w (h : heap) :
  h !! A = Some (DBlock a) -> h !! W = Some (DBlock w) -> length w = n ->
  mat_fits n n a lda = true ->
  HermetianEigen jz ul n A lda W h
  = Some ((syev jz ul n (content a) lda).1.1,
          <[W := DBlock (map (syev jz ul n (content a) lda).2 (seq 0 n))]>
            (<[A := DBlock (refill a (syev jz ul n (content a) lda).1.2)]> h)).
Proof.
  intros HA HW Hlen Hfit. unfold HermetianEigen. rewrite HA, HW, Hfit.
  rewrite bool_decide_eq_true_2 by lia. cbn [andb].
  destruct (syev jz ul n (content a) lda) as [[info f] ev]. simpl.
  rewrite drop_ge by lia. now rewrite app_nil_r.
Qed.

End LowdinKernel.

Section LowdinBranch.
Context `{Allocator} `{LinAlg}.

Lemma length_lowdin_vectors n S : length (lowdin_vectors n S) = length S.
Proof. apply length_refill. Qed.

Lemma length_lowdin_values n S : length (lowdin_values n S) = n.
Proof. unfold lowdin_values. now rewrite length_map, length_seq. Qed.

Lemma length_lowdin_X1 n S u : length (lowdin_X1 n S u) = length u.
Proof. apply length_writes. Qed.

Lemma lowdin_X2_writes n S u :
  lowdin_X2 n S u
  = writes (fun ji => ji.2 + ji.1 * n)
      (fun ji => (content (lowdin_X1 n S u) (ji.2 + ji.1 * n)
                  * content (lowdin_values n S) ji.1)%R)
      (nest n (fun _ => 0) (fun _ => n)) (lowdin_X1 n S u).
Proof.
  unfold lowdin_X2.
  apply (inplace_writes (fun ji : nat * nat => ji.2 + ji.1 * n)
           (fun ji x => (x * content (lowdin_values n S) ji.1)%R)).
  apply NoDup_idx_nest.
Qed.

Lemma length_lowdin_X2 n S u : length (lowdin_X2 n S u) = length u.
Proof. rewrite lowdin_X2_writes, length_writes. apply length_lowdin_X1. Qed.

(** The branch as one heap update: the scratch buffers it takes are
    returned, the eigenvectors stay in [SCR1]. *)
Lemma computeOrtho_lowdin_eq ao SCR1 (h : heap) S :
  let n := nBasis (basisSet_ ao) in
  let sE := fresh (dom h) in
  let SCR2 := fresh (dom (<[sE := DBlock (map (uninit sE) (seq 0 n))]> h)) in
  let u := map (uninit SCR2) (seq 0 (n * n)) in
  nSQ_ ao = n * n ->
  h !! SCR1 = Some (DBlock S) -> length S = n * n ->
  h !! ortho1 ao = Some (DBlock (replicate (n * n) 0%R)) ->
  h !! ortho2 ao = Some (DBlock (replicate (n * n) 0%R)) ->
  ortho1 ao <> ortho2 ao -> ortho1 ao <> SCR1 -> ortho2 ao <> SCR1 ->
  computeOrtho_lowdin ao SCR1 h
  = Some (tt, <[ortho2 ao := DBlock (lowdin_ortho2 n S u)]>
                (<[ortho1 ao := DBlock (lowdin_ortho1 n S u)]>
                   (<[SCR1 := DBlock (lowdin_vectors n S)]> h))).
Proof.
  intros n sE SCR2 u HnSQ HS HlenS H1 H2 N12 N1S N2S.
  unfold computeOrtho_lowdin. fold n. rewrite HnSQ.
  rewrite (bind_Some _ _ _ _ _ (malloc_double_eq n h)). fold sE.
  set (h1 := <[sE := DBlock (map (uninit sE) (seq 0 n))]> h).
  rewrite (bind_Some _ _ _ _ _ (malloc_double_eq (n * n) h1)). fold SCR2 u.
  set (h2 := <[SCR2 := DBlock u]> h1).
  assert (FE : h !! sE = None) by apply fresh_None.
  assert (F2 : h1 !! SCR2 = None) by apply fresh_None.
  assert (NE2 : sE <> SCR2).
  { intros E. subst h1. rewrite <- E, lookup_insert_eq in F2. discriminate. }
  assert (F2' : h !! SCR2 = None).
  { subst h1. now rewrite lookup_insert_ne in F2 by exact NE2. }
  assert (NES : sE <> SCR1) by (intros E; rewrite E in FE; congruence).
  assert (NE1 : sE <> ortho1 ao) by (intros E; rewrite E in FE; congruence).
  assert (NEo : sE <> ortho2 ao) by (intros E; rewrite E in FE; congruence).
  assert (N2S' : SCR2 <> SCR1) by (intros E; rewrite E in F2'; congruence).
  assert (N21 : SCR2 <> ortho1 ao) by (intros E; rewrite E in F2'; congruence).
  assert (N22 : SCR2 <> ortho2 ao) by (intros E; rewrite E in F2'; congruence).
  rewrite (bind_Some _ _ _ _ _
    (HermetianEigen_eq "V" "U" n SCR1 n sE S (map (uninit sE) (seq 0 n)) h2
       ltac:(subst h2 h1; heap_lookup) ltac:(subst h2 h1; heap_lookup)
       ltac:(now rewrite length_map, length_seq)
       (mat_fits_square n S HlenS))).
  fold (lowdin_vectors n S) (lowdin_values n S).
  set (h3 := <[sE := DBlock (lowdin_values n S)]>
               (<[SCR1 := DBlock (lowdin_vectors n S)]> h2)).
  assert (Hu : length u = n * n) by (subst u; now rewrite length_map, length_seq).
  (* X = V * s^{-1/2} *)
  assert (L1 : for_range 0 n (fun j => for_range 0 n (fun i =>
            v <- load SCR1 (i + j * n) ;; s <- load sE j ;;
            store SCR2 (i + j * n) (v / sqrt s)%R)) h3
          = Some (tt, <[SCR2 := DBlock (lowdin_X1 n S u)]> h3)).
  { rewrite <- (heap_self h3 SCR2 (DBlock u)) at 1 by (subst h3 h2; heap_lookup).
    apply (for_nest_block SCR2 (fun ji => ji.2 + ji.1 * n)
             (fun ji => (content (lowdin_vectors n S) (ji.2 + ji.1 * n)
                         / sqrt (content (lowdin_values n S) ji.1))%R)
             n (fun _ => 0) (fun _ => n)).
    intros j i d' Hj Hi Hd'. simpl.
    assert (i + j * n < n * n) by nia.
    rewrite (bind_Some _ _ _ _ _
      (load_block_other SCR2 SCR1 (i + j * n) d' (lowdin_vectors n S) h3
         ltac:(congruence) ltac:(subst h3; heap_lookup)
         ltac:(rewrite length_lowdin_vectors; lia))).
    rewrite (bind_Some _ _ _ _ _
      (load_block_other SCR2 sE j d' (lowdin_values n S) h3
         ltac:(congruence) ltac:(subst h3; heap_lookup)
         ltac:(rewrite length_lowdin_values; lia))).
    apply store_block. lia. }
  rewrite (bind_Some _ _ _ _ _ L1).
  set (h4 := <[SCR2 := DBlock (lowdin_X1 n S u)]> h3).
  (* O1 = X * V**T *)
  rewrite (bind_Some _ _ _ _ _
    (Gemm_eq "N" "T" n n n 1%R SCR2 n SCR1 n 0%R (ortho1 ao) n
       (lowdin_X1 n S u) (lowdin_vectors n S) (replicate (n * n) 0%R) h4
       ltac:(subst h4; heap_lookup) ltac:(subst h4 h3; heap_lookup)
       ltac:(subst h4 h3 h2 h1; heap_lookup)
       ltac:(unfold gemm_fits; simpl; apply bool_decide_eq_true;
             rewrite length_lowdin_X1, length_lowdin_vectors, length_replicate; lia))).
  fold (lowdin_ortho1 n S u).
  set (h5 := <[ortho1 ao := DBlock (lowdin_ortho1 n S u)]> h4).
  (* X = V * s^{1/2} in place *)
  assert (L2 : for_range 0 n (fun j => for_range 0 n (fun i =>
            x <- load SCR2 (i + j * n) ;; s <- load sE j ;;
            store SCR2 (i + j * n) (x * s)%R)) h5
          = Some (tt, <[SCR2 := DBlock (lowdin_X2 n S u)]> h5)).
  { rewrite <- (heap_self h5 SCR2 (DBlock (lowdin_X1 n S u))) at 1
      by (subst h5 h4; heap_lookup).
    unfold lowdin_X2.
    rewrite <- (fold_nest_gen
      (fun ji acc => <[ji.2 + ji.1 * n :=
                         (content acc (ji.2 + ji.1 * n)
                          * content (lowdin_values n S) ji.1)%R]> acc)).
    unfold for_range at 1. rewrite Nat.sub_0_r.
    apply (for_list_block SCR2 (fun d' => length d' = n * n)
             (fun j d' => fold_left
                (fun acc' i => <[i + j * n := (content acc' (i + j * n)
                                              * content (lowdin_values n S) j)%R]> acc')
                (seq 0 n) d')); [|now rewrite length_lowdin_X1].
    intros j d' Hj Hd'. apply in_seq in Hj. unfold for_range. rewrite Nat.sub_0_r.
    apply (for_list_block SCR2 (fun d'' => length d'' = n * n)
             (fun i d'' => <[i + j * n := (content d'' (i + j * n)
                                          * content (lowdin_values n S) j)%R]> d''));
      [|exact Hd'].
    intros i d'' Hi Hd''. apply in_seq in Hi. split.
    - rewrite (bind_Some _ _ _ _ _ (load_block_same SCR2 (i + j * n) d'' h5 ltac:(nia))).
      rewrite (bind_Some _ _ _ _ _
        (load_block_other SCR2 sE j d'' (lowdin_values n S) h5
           ltac:(congruence) ltac:(subst h5 h4 h3; heap_lookup)
           ltac:(rewrite length_lowdin_values; lia))).
      apply store_block. nia.
    - now rewrite length_insert. }
  rewrite (bind_Some _ _ _ _ _ L2).
  set (h6 := <[SCR2 := DBlock (lowdin_X2 n S u)]> h5).
  (* O2 = X * V**T *)
  rewrite (bind_Some _ _ _ _ _
    (Gemm_eq "N" "T" n n n 1%R SCR2 n SCR1 n 0%R (ortho2 ao) n
       (lowdin_X2 n S u) (lowdin_vectors n S) (replicate (n * n) 0%R) h6
       ltac:(subst h6; heap_lookup) ltac:(subst h6 h5 h4 h3; heap_lookup)
       ltac:(subst h6 h5 h4 h3 h2 h1; heap_lookup)
       ltac:(unfold gemm_fits; simpl; apply bool_decide_eq_true;
             rewrite length_lowdin_X2, length_lowdin_vectors, length_replicate; lia))).
  fold (lowdin_ortho2 n S u).
  set (h7 := <[ortho2 ao := DBlock (lowdin_ortho2 n S u)]> h6).
  rewrite (bind_Some _ _ _ _ _ (free_eq sE (DBlock (lowdin_values n S)) h7
             ltac:(subst h7 h6 h5 h4 h3; heap_lookup))).
  set (h8 := delete sE h7).
  assert (E8 : free SCR2 h8 = Some (tt, delete SCR2 h8)).
  { apply (free_eq SCR2 (DBlock (lowdin_X2 n S u))).
    subst h8 h7 h6. rewrite lookup_delete_ne by congruence. heap_lookup. }
  transitivity (Some (tt, delete SCR2 h8)); [exact E8|].
  do 2 f_equal. subst h8 h7 h6 h5 h4 h3 h2 h1.
  apply map_eq. intros q.
  destruct (decide (q = SCR2)) as [->|Nq2].
  { rewrite lookup_delete_eq. now rewrite !lookup_insert_ne by congruence. }
  rewrite lookup_delete_ne by congruence.
  destruct (decide (q = sE)) as [->|NqE].
  { rewrite lookup_delete_eq. now rewrite !lookup_insert_ne by congruence. }
  rewrite lookup_delete_ne by congruence.
  destruct (decide (q = ortho2 ao)) as [->|Nqo2]; [now rewrite !lookup_insert_eq|].
  rewrite !(lookup_insert_ne _ (ortho2 ao)) by congruence.
  rewrite (lookup_insert_ne _ SCR2) by congruence.
  destruct (decide (q = ortho1 ao)) as [->|Nqo1]; [now rewrite !lookup_insert_eq|].
  rewrite !(lookup_insert_ne _ (ortho1 ao)) by congruence.
  rewrite (lookup_insert_ne _ SCR2) by congruence.
  rewrite (lookup_insert_ne _ sE) by congruence.
  destruct (decide (q = SCR1)) as [->|NqS]; [now rewrite !lookup_insert_eq|].
  now rewrite !lookup_insert_ne by congruence.
Qed.

End LowdinBranch.

(** ** Products of matrices with common eigenvectors *)

Lemma spectral_ext n V a b i j :
  (forall k, k < n -> a k = b k) -> spectral n V a i j = spectral n V b i j.
Proof. intros E. unfold spectral. apply Rsum_ext. intros k Hk. now rewrite E. Qed.

Lemma spectral_sym n V a i j : spectral n V a i j = spectral n V a j i.
Proof. unfold spectral. apply Rsum_ext. intros k _. lra. Qed.

Lemma spectral_mul n V a b i j :
  meq n (mmul n (mtrans V) V) mident ->
  mmul n (spectral n V a) (spectral n V b) i j
  = spectral n V (fun k => a k * b k)%R i j.
Proof.
  intros HV. unfold mmul at 1. unfold spectral.
  rewrite (Rsum_ext n _
    (fun m => Rsum n (fun k =>
       V i k * a k * V m k * Rsum n (fun l => V m l * b l * V j l))%R))
    by (intros m _; now rewrite Rsum_scal_r).
  rewrite Rsum_swap. apply Rsum_ext. intros k Hk.
  rewrite (Rsum_ext n _
    (fun m => Rsum n (fun l =>
       V i k * a k * (V m k * V m l) * (b l * V j l))%R)).
  2:{ intros m _. rewrite <- Rsum_scal_l. apply Rsum_ext. intros l _. lra. }
  rewrite Rsum_swap.
  rewrite (Rsum_ext n _
    (fun l => V i k * a k * mmul n (mtrans V) V k l * (b l * V j l))%R).
  2:{ intros l _. rewrite Rsum_scal_r. f_equal.
      unfold mmul, mtrans. now rewrite Rsum_scal_l. }
  rewrite (Rsum_single n _ k Hk).
  - rewrite (HV k k Hk Hk). unfold mident.
    destruct (decide (k = k)); [lra | congruence].
  - intros l Hl Hlk. rewrite (HV k l Hk Hl). unfold mident.
    destruct (decide (k = l)); [congruence | lra].
Qed.

Lemma spectral_one n V a i j :
  meq n (mmul n V (mtrans V)) mident ->
  (forall k, k < n -> a k = 1%R) -> i < n -> j < n ->
  spectral n V a i j = mident i j.
Proof.
  intros HV Ha Hi Hj. rewrite <- (HV i j Hi Hj). unfold spectral, mmul, mtrans.
  apply Rsum_ext. intros k Hk. rewrite (Ha k Hk). lra.
Qed.

Lemma eigensystem_spectral n S V w :
  eigensystem n S V w -> meq n S (spectral n V w).
Proof.
  intros (_ & _ & HS & _) i j Hi Hj. rewrite <- (HS i j Hi Hj).
  unfold spectral, mmul. apply Rsum_ext. intros k _. lra.
Qed.

(** The symmetric pair [O1 = V s^{-1/2} V^T], [O2 = V s^{1/2} V^T] of a
    matrix [S = V s V^T] with positive [s]. *)
Lemma lowdin_pair_identities n S V w O1 O2 :
  eigensystem n S V w ->
  (forall k, k < n -> (0 < w k)%R) ->
  meq n O1 (spectral n V (fun k => / sqrt (w k))%R) ->
  meq n O2 (spectral n V (fun k => / sqrt (w k) * w k)%R) ->
  meq n O2 (spectral n V (fun k => sqrt (w k))) /\
  meq n (mmul n O1 O2) mident /\
  meq n (mmul n (mmul n O1 O1) S) mident.
Proof.
  intros HE Hpos H1 H2.
  pose proof (eigensystem_spectral n S V w HE) as HS.
  destruct HE as (HVtV & HVVt & _ & _).
  assert (Hsq : forall k, k < n -> (sqrt (w k) * sqrt (w k) = w k)%R).
  { intros k Hk. apply sqrt_sqrt. specialize (Hpos k Hk). lra. }
  assert (Hnz : forall k, k < n -> sqrt (w k) <> 0%R).
  { intros k Hk. specialize (Hsq k Hk). specialize (Hpos k Hk). nra. }
  split; [|split].
  - intros i j Hi Hj. rewrite (H2 i j Hi Hj). apply spectral_ext.
    intros k Hk. rewrite <- (Hsq k Hk) at 2. field. now apply Hnz.
  - intros i j Hi Hj.
    rewrite (mmul_ext_l n O1 (spectral n V (fun k => / sqrt (w k))%R))
      by (intros k Hk; now apply H1).
    rewrite (mmul_ext_r n _ O2 (spectral n V (fun k => / sqrt (w k) * w k)%R))
      by (intros k Hk; now apply H2).
    rewrite spectral_mul by exact HVtV.
    apply spectral_one; try assumption.
    intros k Hk. rewrite <- (Hsq k Hk) at 3. field. now apply Hnz.
  - intros i j Hi Hj.
    rewrite (mmul_ext_r n _ S (spectral n V w)) by (intros k Hk; now apply HS).
    rewrite (mmul_ext_l n _
               (spectral n V (fun k => / sqrt (w k) * / sqrt (w k))%R)).
    2:{ intros k Hk.
        rewrite (mmul_ext_l n O1 (spectral n V (fun k => / sqrt (w k))%R))
          by (intros m Hm; now apply H1).
        rewrite (mmul_ext_r n _ O1 (spectral n V (fun k => / sqrt (w k))%R))
          by (intros m Hm; now apply H1).
        now apply spectral_mul. }
    rewrite spectral_mul by exact HVtV.
    apply spectral_one; try assumption.
    intros k Hk. rewrite <- (Hsq k Hk) at 3. field. now apply Hnz.
Qed.

(** ** The entries of the Löwdin pair *)

Section LowdinEntries.
Context `{LinAlg}.

Lemma entry_lowdin_X1 n S u i k :
  i < n -> k < n -> length u = n * n ->
  entry n (lowdin_X1 n S u) i k
  = (entry n (lowdin_vectors n S) i k / sqrt (content (lowdin_values n S) k))%R.
Proof.
  intros Hi Hk Hu. unfold entry, lowdin_X1.
  apply (content_writes_hit (fun ji => ji.2 + ji.1 * n)
           (fun ji => (content (lowdin_vectors n S) (ji.2 + ji.1 * n)
                       / sqrt (content (lowdin_values n S) ji.1))%R) _ u (k, i)).
  - apply in_nest. lia.
  - simpl. nia.
  - intros [k' i'] Hin E. apply in_nest in Hin. simpl in *.
    destruct (colmajor_inj n i' k' i k) as [-> ->]; [lia | lia | exact E | reflexivity].
Qed.

Lemma entry_lowdin_X2 n S u i k :
  i < n -> k < n -> length u = n * n ->
  entry n (lowdin_X2 n S u) i k
  = (entry n (lowdin_X1 n S u) i k * content (lowdin_values n S) k)%R.
Proof.
  intros Hi Hk Hu. unfold entry at 1. rewrite lowdin_X2_writes.
  apply (content_writes_hit (fun ji => ji.2 + ji.1 * n)
           (fun ji => (content (lowdin_X1 n S u) (ji.2 + ji.1 * n)
                       * content (lowdin_values n S) ji.1)%R) _ _ (k, i)).
  - apply in_nest. lia.
  - rewrite length_lowdin_X1. simpl. nia.
  - intros [k' i'] Hin E. apply in_nest in Hin. simpl in *.
    destruct (colmajor_inj n i' k' i k) as [-> ->]; [lia | lia | exact E | reflexivity].
Qed.

Lemma entry_lowdin_ortho1 n S u i j :
  i < n -> j < n -> length u = n * n ->
  entry n (lowdin_ortho1 n S u) i j
  = spectral n (entry n (lowdin_vectors n S))
      (fun k => / sqrt (content (lowdin_values n S) k))%R i j.
Proof.
  intros Hi Hj Hu. unfold entry at 1. unfold lowdin_ortho1.
  rewrite content_gemm_list by (rewrite ?length_replicate; lia).
  unfold gemm_entry, gemm_opA, gemm_opB, spectral. simpl.
  rewrite content_replicate by nia.
  rewrite (Rsum_ext n _
    (fun k => entry n (lowdin_vectors n S) i k
              * / sqrt (content (lowdin_values n S) k)
              * entry n (lowdin_vectors n S) j k)%R).
  - lra.
  - intros k Hk. fold (entry n (lowdin_X1 n S u) i k).
    rewrite entry_lowdin_X1 by assumption. reflexivity.
Qed.

Lemma entry_lowdin_ortho2 n S u i j :
  i < n -> j < n -> length u = n * n ->
  entry n (lowdin_ortho2 n S u) i j
  = spectral n (entry n (lowdin_vectors n S))
      (fun k => / sqrt (content (lowdin_values n S) k)
                * content (lowdin_values n S) k)%R i j.
Proof.
  intros Hi Hj Hu. unfold entry at 1. unfold lowdin_ortho2.
  rewrite content_gemm_list by (rewrite ?length_replicate; lia).
  unfold gemm_entry, gemm_opA, gemm_opB, spectral. simpl.
  rewrite content_replicate by nia.
  rewrite (Rsum_ext n _
    (fun k => entry n (lowdin_vectors n S) i k
              * (/ sqrt (content (lowdin_values n S) k)
                 * content (lowdin_values n S) k)
              * entry n (lowdin_vectors n S) j k)%R).
  - lra.
  - intros k Hk. fold (entry n (lowdin_X2 n S u) i k).
    rewrite entry_lowdin_X2, entry_lowdin_X1 by assumption.
    unfold entry, Rdiv. ring.
Qed.

End LowdinEntries.

Section LowdinPair.
Context `{Allocator} `{LinAlg}.

(** X9.  The [LOWDIN] branch, run on a scratch copy [S] of the overlap
    for which the eigensolver returns an eigensystem with positive
    eigenvalues, leaves the symmetric pair  ortho1 = V s^{-1/2} V^T,
    ortho2 = V s^{1/2} V^T;  the pair satisfies  ortho1 * ortho2 = I  and
    ortho1 * ortho1 * S = I. *)
Lemma computeOrtho_lowdin_pair ao SCR1 (h : heap) S :
  let n := nBasis (basisSet_ ao) in
  let V := entry n (lowdin_vectors n S) in
  let s := content (lowdin_values n S) in
  nSQ_ ao = n * n ->
  h !! SCR1 = Some (DBlock S) -> length S = n * n ->
  h !! ortho1 ao = Some (DBlock (replicate (n * n) 0%R)) ->
  h !! ortho2 ao = Some (DBlock (replicate (n * n) 0%R)) ->
  ortho1 ao <> ortho2 ao -> ortho1 ao <> SCR1 -> ortho2 ao <> SCR1 ->
  eigensystem n (entry n S) V s ->
  (forall k, k < n -> (0 < s k)%R) ->
  exists h' d1 d2,
    computeOrtho_lowdin ao SCR1 h = Some (tt, h') /\
    buffer h' (ortho1 ao) = Some d1 /\
    buffer h' (ortho2 ao) = Some d2 /\
    meq n (entry n d1) (spectral n V (fun k => / sqrt (s k))%R) /\
    meq n (entry n d2) (spectral n V (fun k => sqrt (s k))) /\
    meq n (mmul n (entry n d1) (entry n d2)) mident /\
    meq n (mmul n (mmul n (entry n d1) (entry n d1)) (entry n S)) mident.
Proof.
  intros n V s HnSQ HS HlenS H1 H2 N12 N1S N2S HE Hpos.
  pose proof (computeOrtho_lowdin_eq ao SCR1 h S HnSQ HS HlenS H1 H2 N12 N1S N2S) as E.
  cbv zeta in E. fold n in E.
  set (u := map _ (seq 0 (n * n))) in E.
  assert (Hu : length u = n * n) by (subst u; now rewrite length_map, length_seq).
  eexists _, (lowdin_ortho1 n S u), (lowdin_ortho2 n S u).
  split; [exact E|].
  split; [unfold buffer; now rewrite lookup_insert_ne, lookup_insert_eq by congruence|].
  split; [unfold buffer; now rewrite lookup_insert_eq|].
  assert (E1 : meq n (entry n (lowdin_ortho1 n S u))
                 (spectral n V (fun k => / sqrt (s k))%R))
    by (intros i j Hi Hj; now apply entry_lowdin_ortho1).
  assert (E2 : meq n (entry n (lowdin_ortho2 n S u))
                 (spectral n V (fun k => / sqrt (s k) * s k)%R))
    by (intros i j Hi Hj; now apply entry_lowdin_ortho2).
  split; [exact E1|].
  exact (lowdin_pair_identities n (entry n S) V s _ _ HE Hpos E1 E2).
Qed.

End LowdinPair.

(** ** The [LOWDIN] branch on [[1, 1/2], [1/2, 1]] *)

Lemma eigensystem_ext n S S' V V' w w' :
  meq n S S' -> meq n V V' -> (forall k, k < n -> w k = w' k) ->
  eigensystem n S V w -> eigensystem n S' V' w'.
Proof.
  intros HS HV Hw (A & B & C & D). repeat split.
  - intros i j Hi Hj. rewrite <- (A i j Hi Hj). unfold mmul, mtrans.
    apply Rsum_ext. intros k Hk. now rewrite !HV.
  - intros i j Hi Hj. rewrite <- (B i j Hi Hj). unfold mmul, mtrans.
    apply Rsum_ext. intros k Hk. now rewrite !HV.
  - intros i j Hi Hj. rewrite <- (HS i j Hi Hj), <- (C i j Hi Hj). unfold mmul.
    apply Rsum_ext. intros k Hk. now rewrite !HV, Hw.
  - intros i j Hij Hj. rewrite <- !Hw by lia. now apply D.
Qed.

Lemma inv_sqrt2_sq : (/ sqrt 2 * / sqrt 2 = 1/2)%R.
Proof.
  rewrite <- Rinv_mult, sqrt_sqrt by lra. lra.
Qed.

Lemma half_eigensystem : eigensystem 2 (entry 2 S_half) (entry 2 V_half) s_half.
Proof.
  pose proof inv_sqrt2_sq as Hc.
  repeat split.
  - intros i j Hi Hj. unfold mmul, mtrans, mident, entry, content, V_half.
    destruct i as [|[|i]]; try lia; destruct j as [|[|j]]; try lia; simpl; nra.
  - intros i j Hi Hj. unfold mmul, mtrans, mident, entry, content, V_half.
    destruct i as [|[|i]]; try lia; destruct j as [|[|j]]; try lia; simpl; nra.
  - intros i j Hi Hj. unfold mmul, entry, content, V_half, S_half, s_half.
    destruct i as [|[|i]]; try lia; destruct j as [|[|j]]; try lia; simpl; nra.
  - intros i j Hij Hj. unfold s_half.
    destruct i as [|i]; destruct j as [|j]; try lia; try lra.
Qed.

(** The eigenvalues of that overlap are positive, whichever eigenvectors
    come with them. *)
Lemma half_eigenvalues_positive V w :
  eigensystem 2 (entry 2 S_half) V w -> forall k, k < 2 -> (0 < w k)%R.
Proof.
  intros (A & _ & C & _) k Hk.
  assert (C' : forall i j, i < 2 -> j < 2 ->
            (V i O * (w O * V j O) + V i 1%nat * (w 1%nat * V j 1%nat))%R = entry 2 S_half i j).
  { intros i j Hi Hj. rewrite <- (C i j Hi Hj). unfold mmul. simpl. lra. }
  assert (A' : forall l, l < 2 -> (V O k * V O l + V 1%nat k * V 1%nat l)%R = mident k l).
  { intros l Hl. rewrite <- (A k l Hk Hl). unfold mmul, mtrans. simpl. lra. }
  pose proof (C' 0 0 ltac:(lia) ltac:(lia)) as C00.
  pose proof (C' 0 1 ltac:(lia) ltac:(lia)) as C01.
  pose proof (C' 1 0 ltac:(lia) ltac:(lia)) as C10.
  pose proof (C' 1 1 ltac:(lia) ltac:(lia)) as C11.
  pose proof (A' 0 ltac:(lia)) as A0. pose proof (A' 1 ltac:(lia)) as A1.
  pose proof (A' k Hk) as Akk.
  unfold entry, content, S_half in C00, C01, C10, C11. simpl in C00, C01, C10, C11.
  assert (P : (V O k * V O k * (V O O * (w O * V O O) + V O 1%nat * (w 1%nat * V O 1%nat))
               + V O k * V 1%nat k
                 * (V O O * (w O * V 1%nat O) + V O 1%nat * (w 1%nat * V 1%nat 1%nat))
               + V 1%nat k * V O k
                 * (V 1%nat O * (w O * V O O) + V 1%nat 1%nat * (w 1%nat * V O 1%nat))
               + V 1%nat k * V 1%nat k
                 * (V 1%nat O * (w O * V 1%nat O)
                    + V 1%nat 1%nat * (w 1%nat * V 1%nat 1%nat))
               = w O * ((V O k * V O O + V 1%nat k * V 1%nat O)
                        * (V O k * V O O + V 1%nat k * V 1%nat O))
                 + w 1%nat * ((V O k * V O 1%nat + V 1%nat k * V 1%nat 1%nat)
                              * (V O k * V O 1%nat + V 1%nat k * V 1%nat 1%nat)))%R)
    by ring.
  rewrite C00, C01, C10, C11, A0, A1 in P.
  unfold mident in P, Akk.
  destruct (decide (k = k)); [|congruence].
  destruct k as [|[|k]]; [| |lia].
  - destruct (decide (0 = 0)); [|congruence]. destruct (decide (0 = 1)); [lia|]. nra.
  - destruct (decide (1 = 0)); [lia|]. destruct (decide (1 = 1)); [|congruence]. nra.
Qed.

(** What the reference eigensolver returns on that overlap is an
    eigensystem of it. *)
Lemma syev_ref_half :
  eigensystem 2 (entry 2 S_half)
    (fun i j => (syev_ref "V" "U" 2 (content S_half) 2).1.2 (i + j * 2))
    (syev_ref "V" "U" 2 (content S_half) 2).2.
Proof.
  assert (Hview : meq 2 (entry 2 S_half)
                    (sym_view (negb (is_char "U" "L" || is_char "U" "l")) 2
                       (content S_half))).
  { intros i j Hi Hj. unfold sym_view, entry, content, S_half.
    destruct i as [|[|i]]; try lia; destruct j as [|[|j]]; try lia; reflexivity. }
  unfold syev_ref.
  match goal with |- context [epsilon ?i ?P] =>
    destruct (epsilon_spec i P) as [_ HE] end.
  - exists (0%Z, content V_half, s_half). split; [reflexivity|]. cbn [fst snd].
    apply (eigensystem_ext 2 (entry 2 S_half) _ (entry 2 V_half) _ s_half s_half);
      [exact Hview | now intros i j _ _ | reflexivity | exact half_eigensystem].
  - revert HE. apply eigensystem_ext; [|now intros i j _ _ | reflexivity].
    intros i j Hi Hj. symmetry. now apply Hview.
Qed.

Lemma ref_half_eigensystem :
  eigensystem 2 (entry 2 S_half)
    (entry 2 (@lowdin_vectors reference_backend 2 S_half))
    (content (@lowdin_values reference_backend 2 S_half)).
Proof.
  generalize syev_ref_half. apply eigensystem_ext.
  - now intros i j _ _.
  - intros i j Hi Hj. unfold entry, lowdin_vectors.
    rewrite content_refill by (simpl; lia). reflexivity.
  - intros k Hk. unfold lowdin_values, content.
    destruct k as [|[|k]]; [reflexivity | reflexivity | lia].
Qed.

(** The branch on the overlap [[1, 1/2], [1/2, 1]], with the reference
    backend. *)
Lemma computeOrtho_lowdin_pair_witness :
  exists h' d1 d2,
    @computeOrtho_lowdin sevens_alloc reference_backend ao_lowdin 1%positive heap_lowdin
    = Some (tt, h') /\
    buffer h' (ortho1 ao_lowdin) = Some d1 /\
    buffer h' (ortho2 ao_lowdin) = Some d2 /\
    meq 2 (mmul 2 (entry 2 d1) (entry 2 d2)) mident /\
    meq 2 (mmul 2 (mmul 2 (entry 2 d1) (entry 2 d1)) (entry 2 S_half)) mident.
Proof.
  destruct (@computeOrtho_lowdin_pair sevens_alloc reference_backend
              ao_lowdin 1%positive heap_lowdin S_half)
    as (h' & d1 & d2 & E & B1 & B2 & _ & _ & I1 & I2);
    try reflexivity; try discriminate.
  - exact ref_half_eigensystem.
  - exact (half_eigenvalues_positive _ _ ref_half_eigensystem).
  - now exists h', d1, d2.
Defined.

(** ** The round trip through the transforms *)

Section OrthoRoundTrip.
Context `{Allocator} `{LinAlg}.


End OrthoRoundTrip.


(** ** The driver returns *)

Lemma for_list_returns {K} (I : heap -> Prop) (l : list K) body :
  (forall k h, In k l -> I h -> exists h', body k h = Some (tt, h') /\ I h') ->
  forall h, I h -> exists h', for_list l body h = Some (tt, h') /\ I h'.
Proof.
  induction l as [|k l IH]; intros Hbody h Hh; simpl.
  - now exists h.
  - destruct (Hbody k h (or_introl eq_refl) Hh) as (h1 & E1 & H1).
    rewrite (bind_Some _ _ _ _ _ E1).
    apply IH; [|exact H1]. intros k' h' Hin. apply Hbody. now right.
Qed.

Lemma sized_insert mats NB (h : heap) p d :
  sized mats NB h -> length d = NB * NB -> sized mats NB (<[p := DBlock d]> h).
Proof.
  intros Hs Hd q Hq. destruct (decide (q = p)) as [->|Hne].
  - exists d. now rewrite lookup_insert_eq.
  - rewrite lookup_insert_ne by congruence. now apply Hs.
Qed.

Section Returns.
Context `{Libint}.

Lemma pair_body_returns e mats NB sh1 sh2 bf1 bf2 (h : heap) :
  delivers e sh1 sh2 -> results_size e <= length mats ->
  bf1 + Shell_size sh1 <= NB -> bf2 + Shell_size sh2 <= NB ->
  sized mats NB h ->
  exists h', pair_body e mats NB sh1 sh2 bf1 bf2 h = Some (tt, h') /\ sized mats NB h'.
Proof.
  intros [[rest EC]|((b0 & rest & EC) & Hlen & Hall)] Hmats H1 H2 Hs; unfold pair_body.
  - rewrite EC. now exists h.
  - destruct (compute e sh1 sh2) as [|[b0'|] rest'] eqn:EC'; try discriminate.
    unfold for_range. apply (for_list_returns (sized mats NB)); [|exact Hs].
    intros k h1 Hk Hh1. apply in_seq in Hk.
    destruct (Hall k ltac:(lia)) as (buf & Hbuf).
    rewrite Hbuf. simpl.
    destruct (mats !! k) as [p|] eqn:Hp; [|apply lookup_ge_None in Hp; lia].
    assert (Hin : In p mats).
    { apply list_elem_of_In. eapply list_elem_of_lookup_2, Hp. }
    destruct (Hh1 p Hin) as (d & Hd & Hld).
    unfold bind at 1. unfold lift at 1. unfold bind at 1. unfold lift at 1.
    rewrite (place_block_eq p NB bf1 bf2 _ _ buf d h1 Hd Hld H1 H2).
    eexists. split; [reflexivity|].
    apply sized_insert; [exact Hh1|]. now rewrite length_placed.
Qed.

Lemma loop_s2_returns e mats NB sh1 bf1 :
  results_size e <= length mats -> bf1 + Shell_size sh1 <= NB ->
  forall todo bf2 (h : heap),
    (forall sh2, In sh2 todo -> delivers e sh1 sh2) ->
    bf2 + basis_size todo <= NB ->
    sized mats NB h ->
    exists h', loop_s2 e mats NB sh1 bf1 todo bf2 h = Some (tt, h') /\ sized mats NB h'.
Proof.
  intros Hmats H1. induction todo as [|sh2 todo IH]; intros bf2 h Hdel Hbf Hs; simpl.
  - now exists h.
  - change (sh2 :: todo) with ([sh2] ++ todo) in Hbf. rewrite basis_size_app in Hbf.
    unfold basis_size at 1 in Hbf. simpl in Hbf.
    destruct (pair_body_returns e mats NB sh1 sh2 bf1 bf2 h
                (Hdel sh2 (or_introl eq_refl)) Hmats H1 ltac:(lia) Hs) as (h1 & E1 & Hs1).
    rewrite (bind_Some _ _ _ _ _ E1).
    apply IH; [|lia|exact Hs1]. intros sh Hin. apply Hdel. now right.
Qed.

Lemma loop_s1_returns e mats NB shells :
  results_size e <= length mats -> NB = basis_size shells ->
  engine_delivers e shells ->
  forall todo s1 (h : heap),
    drop s1 shells = todo ->
    sized mats NB h ->
    exists h', loop_s1 e mats NB shells todo s1 (offset shells s1) h = Some (tt, h')
               /\ sized mats NB h'.
Proof.
  intros Hmats -> Hdel. induction todo as [|sh1 todo IH]; intros s1 h Hdrop Hs; simpl.
  - now exists h.
  - assert (Hs1 : shells !! s1 = Some sh1).
    { rewrite <- (Nat.add_0_r s1), <- lookup_drop, Hdrop. reflexivity. }
    destruct (loop_s2_returns e mats (basis_size shells) sh1 (offset shells s1) Hmats
                (offset_end shells s1 sh1 Hs1) (take (S s1) shells) 0 h)
      as (h1 & E1 & Hs').
    + intros sh2 Hin. apply list_elem_of_In, list_elem_of_lookup_1 in Hin as [s2 Hs2].
      pose proof (lookup_lt_Some _ _ _ Hs2) as Hlt. rewrite length_take in Hlt.
      rewrite lookup_take_lt in Hs2 by lia.
      apply (Hdel s1 s2 sh1 sh2); [lia | exact Hs1 | exact Hs2].
    + fold (offset shells (S s1)). pose proof (offset_le_size shells (S s1)). lia.
    + exact Hs.
    + rewrite (bind_Some _ _ _ _ _ E1).
      rewrite <- (offset_S shells s1 sh1 Hs1).
      apply IH; [|exact Hs'].
      replace (S s1) with (s1 + 1) by lia. rewrite <- drop_drop, Hdrop. reflexivity.
Qed.

End Returns.

Section DriverReturns.
Context `{Allocator} `{Libint}.

(** With a basis for which the engine can be set up, and an engine whose
    answers can be used, [OneEDriver] returns one matrix per component. *)
Lemma OneEDriver_returns ao op shells (h : heap) e :
  driver_engine ao op shells = Some e -> engine_delivers e shells ->
  exists mats h',
    OneEDriver ao op shells h = Some (mats, h') /\ length mats = results_size e.
Proof.
  intros He Hdel. unfold OneEDriver, OneEDriver_assemble.
  unfold driver_engine in He.
  destruct (max_element less_l shells ≫= contr0_l) as [maxL|] eqn:EL; [|discriminate].
  destruct ((fun sh => length (Shell_alpha sh)) <$> max_element less_nprim shells)
    as [maxPrim|] eqn:EP; [|discriminate].
  simpl in He. inversion He; subst e. clear He.
  set (e := first_engine ao op maxPrim maxL) in *.
  set (NB := basis_size shells).
  destruct (alloc_mats_spec (results_size e) (NB * NB) h)
    as (mats & h1 & E1 & Hlen & Hnd & Hnew & _).
  assert (Hs1 : sized mats NB h1).
  { intros p Hp. destruct (Hnew p Hp) as [_ Hp1].
    eexists. split; [exact Hp1 | apply length_replicate]. }
  destruct (loop_s1_returns e mats NB shells ltac:(lia) eq_refl Hdel shells 0 h1
              eq_refl Hs1) as (h2 & E2 & Hs2).
  rewrite offset_0 in E2.
  destruct (symmetrize_all NB mats Hnd h2 Hs2) as (h3 & E3 & _).
  exists mats, h3. split; [|exact Hlen].
  unfold bind, lift, ret. fold e NB. rewrite E1. cbn beta iota.
  rewrite E2. cbn beta iota. rewrite E3. reflexivity.
Qed.

End DriverReturns.

(** ** The builders on a ready basis *)

Section DriverResults.
Context `{Allocator} `{Libint}.

(** C6.  [OneEDriver] returns, and every matrix it returns is exactly
    symmetric: M[i,j] = M[j,i] for all i, j in [0, NB); its lower
    triangle is the assembled one, and the upper triangle is the mirror
    image of that. *)
Theorem OneEDriver_symmetric ao op shells (h : heap) e :
  driver_engine ao op shells = Some e -> engine_delivers e shells ->
  let NB := basis_size shells in
  exists mats h' hA,
    OneEDriver ao op shells h = Some (mats, h') /\
    OneEDriver_assemble ao op shells h = Some (mats, hA) /\
    length mats = results_size e /\
    forall p, In p mats ->
      exists dA d,
        buffer hA p = Some dA /\ buffer h' p = Some d /\
        forall i j, i < NB -> j < NB ->
          entry NB d i j = entry NB d j i /\
          (j <= i -> entry NB d i j = entry NB dA i j /\
                     entry NB d j i = entry NB dA i j).
Proof.
  intros He Hdel NB.
  destruct (OneEDriver_returns ao op shells h e He Hdel) as (mats & h' & E & Hlen).
  destruct (OneEDriver_symmetric_post ao op shells h mats h' E) as (hA & EA & Hsym).
  now exists mats, h', hA.
Qed.

(** C7.  A shell pair the engine reports as screened leaves its block,
    and the mirror image of the block, exactly zero in every matrix
    [OneEDriver] returns. *)
Theorem OneEDriver_screened_block_zero ao op shells (h : heap) e s1 s2 sh1 sh2 :
  driver_engine ao op shells = Some e -> engine_delivers e shells ->
  s2 <= s1 -> shells !! s1 = Some sh1 -> shells !! s2 = Some sh2 ->
  screened e sh1 sh2 ->
  let NB := basis_size shells in
  exists mats h',
    OneEDriver ao op shells h = Some (mats, h') /\
    length mats = results_size e /\
    forall p, In p mats ->
      exists d,
        buffer h' p = Some d /\
        forall a b, a < Shell_size sh1 -> b < Shell_size sh2 ->
          entry NB d (offset shells s1 + a) (offset shells s2 + b) = 0%R /\
          entry NB d (offset shells s2 + b) (offset shells s1 + a) = 0%R.
Proof.
  intros He Hdel Hle Hs1 Hs2 Hscr NB.
  destruct (OneEDriver_returns ao op shells h e He Hdel) as (mats & h' & E & Hlen).
  exists mats, h'. split; [exact E|]. split; [exact Hlen|].
  exact (OneEDriver_screened_post ao op shells h mats h' e s1 s2 sh1 sh2
           E He Hle Hs1 Hs2 Hscr).
Qed.

End DriverResults.

Section OneETotal.
Context `{Allocator} `{LinAlg} `{Libint}.

Lemma computeAOOneE_total order ao (h : heap) :
  oneE_ready ao -> (forall i, In i order -> i < nSQ_ ao) ->
  exists ao' h', computeAOOneE order ao h = Some (ao', h').
Proof.
  intros (HNB & HnSQ & Hready) Hord.
  destruct (Hready Operator_emultipole3) as (eS & HeS & HdS & HrS).
  destruct (Hready Operator_kinetic) as (eT & HeT & HdT & HrT).
  destruct (Hready Operator_nuclear) as (eV & HeV & HdV & HrV).
  destruct (OneEDriver_returns ao _ _ h eS HeS HdS) as (mp & h1 & E1 & L1).
  destruct (OneEDriver_returns ao _ _ h1 eT HeT HdT) as (kn & h2 & E2 & L2).
  destruct (OneEDriver_returns ao _ _ h2 eV HeV HdV) as (pt & h3 & E3 & L3).
  simpl in HrS, HrT, HrV.
  apply (computeAOOneE_returns order ao h mp h1 kn h2 pt h3 E1 E2 E3);
    try assumption; lia.
Qed.

(** C5.  On the combined overlap and multipole operator, whose engine has
    20 components, [OneEDriver] returns exactly 20 matrices, matrix [k]
    being assembled from component [k] of the engine's results, and
    [computeAOOneE] extracts them by position: element 0 becomes the
    overlap, elements 1-3 are appended to the dipoles, elements 4-9 to
    the quadrupoles and elements 10-19 to the octupoles. *)
Theorem computeAOOneE_multipole_layout order ao (h : heap) :
  let sh := shells (basisSet_ ao) in
  oneE_ready ao -> (forall i, In i order -> i < nSQ_ ao) ->
  exists ao' h' e mp h1,
    computeAOOneE order ao h = Some (ao', h') /\
    driver_engine ao Operator_emultipole3 sh = Some e /\
    OneEDriver ao Operator_emultipole3 sh h = Some (mp, h1) /\
    length mp = 20 /\ NoDup mp /\
    (forall k p, mp !! k = Some p ->
       exists dA, block_ok e sh k (fun _ _ => True) dA /\
                  buffer h' p = Some (sym_block (basis_size sh) dA)) /\
    mp !! 0 = Some (overlap ao') /\
    lenElecDipole ao' = lenElecDipole ao ++ take 3 (drop 1 mp) /\
    lenElecQuadrupole ao' = lenElecQuadrupole ao ++ take 6 (drop 4 mp) /\
    lenElecOctupole ao' = lenElecOctupole ao ++ take 10 (drop 10 mp) /\
    take 1 mp ++ take 3 (drop 1 mp) ++ take 6 (drop 4 mp) ++ take 10 (drop 10 mp) = mp.
Proof.
  intros sh Hready Hord.
  destruct (computeAOOneE_total order ao h Hready Hord) as (ao' & h' & E).
  destruct (computeAOOneE_layout_post order ao h ao' h') as (e & mp & h1 & Hrest);
    [|exact E|now exists ao', h', e, mp, h1].
  intros e He. destruct Hready as (_ & _ & Hr).
  destruct (Hr Operator_emultipole3) as (e' & He' & _ & H20).
  assert (e' = e) by (unfold sh in He; rewrite He' in He; congruence).
  now subst e'.
Qed.

End OneETotal.

(** ** The concrete basis is ready *)

Lemma toy_delivers e sh1 sh2 : @delivers toy_engine e sh1 sh2.
Proof.
  unfold delivers, screened, unscreened. cbn [compute results_size toy_engine].
  unfold toy_compute.
  destruct (Shell_alpha sh1) as [|x1 l1]; [left; destruct e; eexists; reflexivity|].
  destruct (Shell_alpha sh2) as [|x2 l2]; [left; destruct e; eexists; reflexivity|].
  right. split; [destruct e; eexists _, _; reflexivity|].
  rewrite length_map, length_seq. split; [lia|].
  intros k Hk. eexists.
  change (map ?f ?l) with (f <$> l).
  rewrite list_lookup_fmap, lookup_seq_lt by exact Hk. reflexivity.
Qed.

Lemma toy_ready : @oneE_ready toy_engine ao_toy.
Proof.
  split; [reflexivity|]. split; [reflexivity|].
  intros op. exists op. split; [apply toy_engine_is|].
  split; [intros s1 s2 sh1 sh2 _ _ _; apply toy_delivers | now destruct op].
Qed.

(** ** The builders on the basis of two unscreened shells *)

Lemma pair_delivers e sh1 sh2 : @delivers pair_engine e sh1 sh2.
Proof.
  unfold delivers, screened, unscreened. cbn [compute results_size pair_engine].
  unfold pair_compute.
  destruct (Shell_alpha sh1) as [|x1 l1]; [left; destruct e; eexists; reflexivity|].
  destruct (Shell_alpha sh2) as [|x2 l2]; [left; destruct e; eexists; reflexivity|].
  right. split; [destruct e; eexists _, _; reflexivity|].
  rewrite length_map, length_seq. split; [lia|].
  intros k Hk. eexists.
  change (map ?f ?l) with (f <$> l).
  rewrite list_lookup_fmap, lookup_seq_lt by exact Hk. reflexivity.
Qed.

Lemma pair_engine_is : forall op,
  @driver_engine pair_engine ao_pair op pair_shells = Some op.
Proof. intros []; reflexivity. Qed.

Lemma pair_ready : @oneE_ready pair_engine ao_pair.
Proof.
  split; [reflexivity|]. split; [reflexivity|].
  intros op. exists op. split; [apply pair_engine_is|].
  split; [intros s1 s2 sh1 sh2 _ _ _; apply pair_delivers | now destruct op].
Qed.

(** The kinetic matrix before and after the symmetric completion. *)
Lemma pair_kinetic_run :
  @OneEDriver_assemble sevens_alloc pair_engine ao_pair Operator_kinetic pair_shells ∅
  = Some ([1%positive], {[ 1%positive := DBlock [2; 1; 0; 2]%R ]}) /\
  @OneEDriver sevens_alloc pair_engine ao_pair Operator_kinetic pair_shells ∅
  = Some ([1%positive], {[ 1%positive := DBlock [2; 1; 1; 2]%R ]}).
Proof. split; vm_compute; reflexivity. Qed.

Lemma OneEDriver_symmetric_witness :
  exists mats h' hA,
    @OneEDriver sevens_alloc pair_engine ao_pair Operator_kinetic pair_shells ∅
    = Some (mats, h') /\
    @OneEDriver_assemble sevens_alloc pair_engine ao_pair Operator_kinetic pair_shells ∅
    = Some (mats, hA) /\
    mats = [1%positive] /\
    buffer hA 1%positive = Some [2; 1; 0; 2]%R /\
    buffer h' 1%positive = Some [2; 1; 1; 2]%R /\
    forall p, In p mats ->
      exists dA d,
        buffer hA p = Some dA /\ buffer h' p = Some d /\
        forall i j, i < 2 -> j < 2 ->
          entry 2 d i j = entry 2 d j i /\
          (j <= i -> entry 2 d i j = entry 2 dA i j /\ entry 2 d j i = entry 2 dA i j).
Proof.
  destruct (@OneEDriver_symmetric sevens_alloc pair_engine ao_pair Operator_kinetic
              pair_shells ∅ Operator_kinetic (pair_engine_is _)
              (fun s1 s2 sh1 sh2 _ _ _ => pair_delivers _ sh1 sh2))
    as (mats & h' & hA & E & EA & _ & Hsym).
  destruct pair_kinetic_run as [RA R].
  exists mats, h', hA.
  split; [exact E|]. split; [exact EA|].
  rewrite R in E. rewrite RA in EA.
  inversion E; subst mats h'. inversion EA; subst hA.
  split; [reflexivity|]. split; [reflexivity|]. split; [reflexivity|].
  exact Hsym.
Defined.

Lemma OneEDriver_screened_block_zero_witness :
  @screened toy_engine Operator_emultipole3 bare_shell s_shell /\
  exists mats h',
    @OneEDriver sevens_alloc toy_engine ao_toy Operator_emultipole3 toy_shells ∅
    = Some (mats, h') /\
    length mats = 20 /\
    forall p, In p mats ->
      exists d,
        buffer h' p = Some d /\
        entry 2 d 1 0 = 0%R /\ entry 2 d 0 1 = 0%R.
Proof.
  assert (Hscr : @screened toy_engine Operator_emultipole3 bare_shell s_shell).
  { eexists. reflexivity. }
  split; [exact Hscr|].
  destruct (@OneEDriver_screened_block_zero sevens_alloc toy_engine ao_toy
              Operator_emultipole3 toy_shells ∅ Operator_emultipole3
              1 0 bare_shell s_shell (toy_engine_is _)
              (fun s1 s2 sh1 sh2 _ _ _ => toy_delivers _ sh1 sh2)
              ltac:(lia) eq_refl eq_refl Hscr) as (mats & h' & E & Hlen & Hz).
  exists mats, h'. split; [exact E|]. split; [exact Hlen|].
  intros p Hp. destruct (Hz p Hp) as (d & Hd & Hzero).
  exists d. split; [exact Hd|].
  exact (Hzero 0 0 ltac:(cbn; lia) ltac:(cbn; lia)).
Defined.

Lemma computeAOOneE_multipole_layout_witness :
  exists ao' h' mp h1,
    @computeAOOneE sevens_alloc reference_backend toy_engine toy_order ao_toy ∅
    = Some (ao', h') /\
    @OneEDriver sevens_alloc toy_engine ao_toy Operator_emultipole3 toy_shells ∅
    = Some (mp, h1) /\
    length mp = 20 /\
    mp !! 0 = Some (overlap ao') /\
    lenElecDipole ao' = take 3 (drop 1 mp) /\
    lenElecQuadrupole ao' = take 6 (drop 4 mp) /\
    lenElecOctupole ao' = take 10 (drop 10 mp).
Proof.
  destruct (@computeAOOneE_multipole_layout sevens_alloc reference_backend toy_engine
              toy_order ao_toy ∅ toy_ready)
    as (ao' & h' & e & mp & h1 & E & _ & E1 & Hlen & _ & _ & Hov & Hd & Hq & Ho & _).
  - intros i Hi. simpl in Hi. cbn. intuition lia.
  - exists ao', h', mp, h1. repeat split; assumption.
Defined.

(** ** More about the driver *)

Section DriverBlocks.
Context `{Allocator} `{Libint}.

(** X1.  For a shell pair the engine does not screen, matrix [k] of the
    collection [OneEDriver] returns holds component [k] of the engine's
    result in the pair's block, read row by row, and the same values in
    the mirror image of the block.  In a diagonal block only the entries
    on and below the diagonal are taken from the engine. *)
Theorem OneEDriver_block_values ao op shells (h : heap) e s1 s2 sh1 sh2 :
  driver_engine ao op shells = Some e -> engine_delivers e shells ->
  s2 <= s1 -> shells !! s1 = Some sh1 -> shells !! s2 = Some sh2 ->
  unscreened e sh1 sh2 ->
  let NB := basis_size shells in
  exists mats h',
    OneEDriver ao op shells h = Some (mats, h') /\
    forall k p buf,
      mats !! k = Some p -> compute e sh1 sh2 !! k = Some (Some buf) ->
      exists d,
        buffer h' p = Some d /\
        forall a b, a < Shell_size sh1 -> b < Shell_size sh2 ->
          s2 < s1 \/ b <= a ->
          entry NB d (offset shells s1 + a) (offset shells s2 + b)
          = buf (a * Shell_size sh2 + b) /\
          entry NB d (offset shells s2 + b) (offset shells s1 + a)
          = buf (a * Shell_size sh2 + b).
Proof.
  intros He Hdel Hle Hs1 Hs2 Hun NB.
  destruct (OneEDriver_returns ao op shells h e He Hdel) as (mats & h' & E & _).
  exists mats, h'. split; [exact E|].
  intros k p buf Hk Hbuf.
  destruct (OneEDriver_spec ao op shells h mats h' E)
    as (e' & hA & He' & _ & _ & _ & _ & _ & Hblk).
  assert (e' = e) by congruence. subst e'.
  destruct (Hblk k p Hk) as (dA & _ & (Hlen & Hin & _) & Hd).
  exists (sym_block NB dA). unfold buffer. rewrite Hd. split; [reflexivity|].
  intros a b Ha Hb Hlow. fold NB in Hlen.
  pose proof (offset_end shells s1 sh1 Hs1) as B1.
  pose proof (offset_end shells s2 sh2 Hs2) as B2. fold NB in B1, B2.
  assert (Hge : offset shells s2 + b <= offset shells s1 + a).
  { destruct Hlow as [Hlt|Hba].
    - pose proof (offset_next shells s2 s1 sh2 Hs2 Hlt). lia.
    - pose proof (offset_mono shells s2 s1 Hle). lia. }
  assert (V : entry NB dA (offset shells s1 + a) (offset shells s2 + b)
              = buf (a * Shell_size sh2 + b)).
  { unfold entry. now apply (Hin s1 s2 sh1 sh2 buf a b). }
  rewrite !entry_sym_block by lia. split.
  - destruct (decide (offset shells s1 + a < offset shells s2 + b)); [lia | exact V].
  - destruct (decide (offset shells s2 + b < offset shells s1 + a)); [exact V|].
    replace (offset shells s2 + b) with (offset shells s1 + a) by lia.
    replace (offset shells s1 + a) with (offset shells s2 + b) at 2 by lia.
    exact V.
Qed.

(** X2.  The matrices [OneEDriver] returns are pairwise distinct blocks,
    none of them live before the call, each of [NB*NB] values; every
    other address is left as it was: nothing else is allocated, released
    or written. *)
Theorem OneEDriver_fresh_matrices ao op shells (h : heap) mats h' :
  OneEDriver ao op shells h = Some (mats, h') ->
  let NB := basis_size shells in
  NoDup mats /\
  (forall p, In p mats ->
     h !! p = None /\ exists d, buffer h' p = Some d /\ length d = NB * NB) /\
  (forall q, ~ In q mats -> h' !! q = h !! q).
Proof.
  intros E NB.
  destruct (OneEDriver_spec ao op shells h mats h' E)
    as (e & hA & _ & _ & _ & Hnd & Hnew & Hfr & Hblk).
  split; [exact Hnd|]. split; [|exact Hfr].
  intros p Hp. split; [now apply Hnew|].
  apply list_elem_of_In, list_elem_of_lookup_1 in Hp as [k Hk].
  destruct (Hblk k p Hk) as (dA & _ & (Hlen & _) & Hd).
  exists (sym_block NB dA). unfold buffer. rewrite Hd.
  split; [reflexivity|]. now rewrite length_sym_block.
Qed.

End DriverBlocks.

Lemma toy_unscreened : @unscreened toy_engine Operator_kinetic s_shell s_shell.
Proof. eexists _, _. reflexivity. Qed.

Lemma OneEDriver_block_values_witness :
  exists mats h' p d,
    @OneEDriver sevens_alloc toy_engine ao_toy Operator_kinetic toy_shells ∅
    = Some (mats, h') /\
    mats !! 0 = Some p /\ buffer h' p = Some d /\ entry 2 d 0 0 = 1%R.
Proof.
  destruct (@OneEDriver_block_values sevens_alloc toy_engine ao_toy Operator_kinetic
              toy_shells ∅ Operator_kinetic 0 0 s_shell s_shell
              (toy_engine_is _) (fun s1 s2 sh1 sh2 _ _ _ => toy_delivers _ sh1 sh2)
              ltac:(lia) eq_refl eq_refl toy_unscreened) as (mats & h' & E & Hv).
  destruct mats as [|p mats].
  - exfalso. vm_compute in E. discriminate.
  - destruct (Hv 0 p (fun _ => INR 1) eq_refl eq_refl) as (d & Hd & Hval).
    exists (p :: mats), h', p, d. split; [exact E|]. split; [reflexivity|].
    split; [exact Hd|].
    destruct (Hval 0 0 ltac:(cbn; lia) ltac:(cbn; lia) ltac:(lia)) as [V _].
    cbn in V. rewrite V. simpl. lra.
Defined.

Lemma OneEDriver_fresh_matrices_witness :
  exists mats h',
    @OneEDriver sevens_alloc toy_engine ao_toy Operator_kinetic toy_shells ∅
    = Some (mats, h') /\
    NoDup mats /\
    (forall p, In p mats ->
       (∅ : heap) !! p = None /\ exists d, buffer h' p = Some d /\ length d = 2 * 2) /\
    (forall q, ~ In q mats -> h' !! q = (∅ : heap) !! q).
Proof.
  destruct (@OneEDriver_returns sevens_alloc toy_engine ao_toy Operator_kinetic
              toy_shells ∅ Operator_kinetic (toy_engine_is _)
              (fun s1 s2 sh1 sh2 _ _ _ => toy_delivers _ sh1 sh2)) as (mats & h' & E & _).
  exists mats, h'. split; [exact E|].
  exact (@OneEDriver_fresh_matrices sevens_alloc toy_engine ao_toy Operator_kinetic
           toy_shells ∅ mats h' E).
Defined.

(** ** Setting up the engine *)

Lemma max_element_from_spec {A} (mu : A -> option nat) (less : A -> A -> option bool) :
  (forall x y, less x y = match mu x, mu y with
                          | Some a, Some b => Some (bool_decide (a < b))
                          | _, _ => None
                          end) ->
  forall rest largest m,
    max_element_from less largest rest = Some m ->
    In m (largest :: rest) /\
    (rest <> [] -> forall x, In x (largest :: rest) -> exists v, mu x = Some v) /\
    (forall x v vm, In x (largest :: rest) -> mu x = Some v -> mu m = Some vm -> v <= vm).
Proof.
  intros Hless. induction rest as [|x0 rest IH]; intros largest m E; simpl in E.
  - inversion E; subst m. split; [now left|]. split; [congruence|].
    intros x v vm [->|[]] Hv Hm. rewrite Hv in Hm. inversion Hm. lia.
  - rewrite Hless in E.
    destruct (mu largest) as [a|] eqn:Ea; [|discriminate].
    destruct (mu x0) as [b|] eqn:Eb; [|discriminate].
    destruct (bool_decide (a < b)) eqn:Hab.
    + apply bool_decide_eq_true in Hab.
      destruct (IH x0 m E) as (Hin & Hall & Hmax).
      split; [now right|]. split.
      * intros _ x [<-|[<-|Hx]]; [now exists a | now exists b|].
        apply Hall; [intros ->; destruct Hx | now right].
      * intros x v vm [<-|Hx] Hv Hm.
        -- rewrite Ea in Hv. inversion Hv; subst v.
           pose proof (Hmax x0 b vm (or_introl eq_refl) Eb Hm). lia.
        -- now apply (Hmax x v vm).
    + apply bool_decide_eq_false in Hab.
      destruct (IH largest m E) as (Hin & Hall & Hmax).
      split; [destruct Hin as [<-|Hin]; [now left | now right; right]|]. split.
      * intros _ x [<-|[<-|Hx]]; [now exists a | now exists b|].
        apply Hall; [intros ->; destruct Hx | now right].
      * intros x v vm [<-|[<-|Hx]] Hv Hm.
        -- now apply (Hmax largest v vm (or_introl eq_refl)).
        -- rewrite Eb in Hv. inversion Hv; subst v.
           pose proof (Hmax largest a vm (or_introl eq_refl) Ea Hm). lia.
        -- apply (Hmax x v vm); [now right | assumption | assumption].
Qed.

Section EngineSetup.
Context `{Allocator} `{Libint}.

(** X3.  When [OneEDriver] returns, the shell list is not empty, every
    shell has a first contraction, and the engine was constructed with the
    largest angular momentum of the first contractions and the largest
    number of primitives found among the shells; the collection has one
    matrix per result component of that engine. *)
Theorem OneEDriver_engine_setup ao op shells (h : heap) mats h' :
  OneEDriver ao op shells h = Some (mats, h') ->
  shells <> [] /\
  exists maxPrim maxL,
    driver_engine ao op shells = Some (first_engine ao op maxPrim maxL) /\
    length mats = results_size (first_engine ao op maxPrim maxL) /\
    (forall sh, In sh shells -> exists l, contr0_l sh = Some l /\ l <= maxL) /\
    (forall sh, In sh shells -> length (Shell_alpha sh) <= maxPrim) /\
    (exists sh, In sh shells /\ contr0_l sh = Some maxL) /\
    (exists sh, In sh shells /\ length (Shell_alpha sh) = maxPrim).
Proof.
  intros E.
  destruct (OneEDriver_spec ao op shells h mats h' E)
    as (e & hA & He & _ & Hlen & _).
  unfold driver_engine in He.
  destruct (max_element less_l shells) as [mL|] eqn:EL; [|discriminate].
  simpl in He.
  destruct (contr0_l mL) as [maxL|] eqn:EmL; [|discriminate]. simpl in He.
  destruct (max_element less_nprim shells) as [mP|] eqn:EP; [|discriminate].
  simpl in He. inversion He; subst e. clear He.
  assert (HD : driver_engine ao op shells
               = Some (first_engine ao op (length (Shell_alpha mP)) maxL)).
  { unfold driver_engine. rewrite EL. simpl. rewrite EmL. simpl. now rewrite EP. }
  destruct shells as [|sh0 rest]; [discriminate|]. split; [discriminate|].
  exists (length (Shell_alpha mP)), maxL.
  split; [exact HD|]. split; [exact Hlen|].
  simpl in EL, EP.
  destruct (max_element_from_spec contr0_l less_l (fun x y => eq_refl) rest sh0 mL EL)
    as (HinL & HallL & HmaxL).
  destruct (max_element_from_spec (fun sh => Some (length (Shell_alpha sh))) less_nprim
              (fun x y => eq_refl) rest sh0 mP EP) as (HinP & _ & HmaxP).
  split; [|split; [|split]].
  - intros sh Hsh.
    assert (Hl : exists l, contr0_l sh = Some l).
    { destruct rest as [|x1 rest'].
      - destruct Hsh as [<-|[]]. destruct HinL as [<-|[]]. now exists maxL.
      - apply HallL; [discriminate | exact Hsh]. }
    destruct Hl as [l Hl]. exists l. split; [exact Hl|].
    now apply (HmaxL sh l maxL).
  - intros sh Hsh. now apply (HmaxP sh _ _ Hsh eq_refl eq_refl).
  - now exists mL.
  - now exists mP.
Qed.

End EngineSetup.

Lemma OneEDriver_engine_setup_witness :
  exists mats h',
    @OneEDriver sevens_alloc toy_engine ao_toy Operator_nuclear toy_shells ∅
    = Some (mats, h') /\
    toy_shells <> [] /\ length mats = 1.
Proof.
  destruct (@OneEDriver_returns sevens_alloc toy_engine ao_toy Operator_nuclear
              toy_shells ∅ Operator_nuclear (toy_engine_is _)
              (fun s1 s2 sh1 sh2 _ _ _ => toy_delivers _ sh1 sh2)) as (mats & h' & E & _).
  destruct (@OneEDriver_engine_setup sevens_alloc toy_engine ao_toy Operator_nuclear
              toy_shells ∅ mats h' E) as (Hne & maxPrim & maxL & _ & Hlen & _).
  exists mats, h'. split; [exact E|]. split; [exact Hne|]. exact Hlen.
Defined.

(** ** Storage that is handed out uninitialised *)

Lemma alloc_mats_indep (A A' : Allocator) count n (h : heap) :
  @alloc_mats A count n h = @alloc_mats A' count n h.
Proof.
  revert h. induction count as [|count IH]; intros h; [reflexivity|].
  assert (G : forall X : Allocator,
            @alloc_mats X (S count) n h
            = bind (@alloc_mats X count n) (fun rest => ret (fresh (dom h) :: rest))
                (<[fresh (dom h) := DBlock (replicate n 0%R)]> h)).
  { intros X. cbn [alloc_mats].
    rewrite (bind_Some _ _ _ _ _ (@malloc_double_eq X n h)).
    rewrite (bind_Some _ _ _ _ _
      (fill_n_eq (fresh (dom h)) n 0%R _ _ (lookup_insert_eq _ _ _)
         ltac:(now rewrite length_map, length_seq))).
    now rewrite insert_insert_eq. }
  rewrite (G A), (G A'). unfold bind. now rewrite IH.
Qed.

(** X4.  [OneEDriver] does not depend on what the storage it is handed
    contains: with two allocators that differ in the contents of fresh
    blocks it returns the same collection and leaves the same heap (or
    faults with both). *)
Theorem OneEDriver_ignores_uninitialised (A A' : Allocator) (L : Libint)
    ao op shells (h : heap) :
  @OneEDriver A L ao op shells h = @OneEDriver A' L ao op shells h.
Proof.
  unfold OneEDriver, OneEDriver_assemble.
  destruct (max_element less_l shells ≫= contr0_l) as [maxL|]; [|reflexivity].
  destruct ((fun sh => length (Shell_alpha sh)) <$> max_element less_nprim shells)
    as [maxPrim|]; [|reflexivity].
  unfold bind, lift. now rewrite (alloc_mats_indep A A').
Qed.

(** Stores never release a block. *)
Lemma store_live p i x q (h : heap) u h' :
  store p i x h = Some (u, h') ->
  (exists d, h !! q = Some (DBlock d)) -> exists d, h' !! q = Some (DBlock d).
Proof.
  unfold store. intros E [d Hq].
  destruct (h !! p) as [[dp|z]|] eqn:Hp; try discriminate.
  destruct (decide (i < length dp)); inversion E; subst.
  destruct (decide (q = p)) as [->|Hne].
  - eexists. apply lookup_insert_eq.
  - exists d. now rewrite lookup_insert_ne by congruence.
Qed.

Lemma for_list_live {K} (q : loc) (l : list K) body :
  (forall k (h : heap) u h', body k h = Some (u, h') ->
     (exists d, h !! q = Some (DBlock d)) -> exists d, h' !! q = Some (DBlock d)) ->
  forall (h : heap) u h', for_list l body h = Some (u, h') ->
    (exists d, h !! q = Some (DBlock d)) -> exists d, h' !! q = Some (DBlock d).
Proof.
  intros Hb. induction l as [|k l IH]; intros h u h' E Hq; simpl in E.
  - unfold ret in E. now inversion E; subst.
  - apply bind_inv in E as (u1 & h1 & E1 & E2).
    exact (IH h1 u h' E2 (Hb k h u1 h1 E1 Hq)).
Qed.

Section OrthoFootprint.
Context `{Allocator} `{LinAlg}.

(** X5.  A call of [computeOrtho] that returns has added exactly the two
    blocks of [ortho1] and [ortho2], which are distinct, were not live
    before and are live buffers of doubles after: every other address is
    as it was, so the scratch copy of the overlap has been given back, and
    the blocks the object pointed to as [ortho1] and [ortho2] before the
    call have not been released. *)
Theorem computeOrtho_footprint ao (h : heap) ao' h' :
  computeOrtho ao h = Some (ao', h') ->
  ortho1 ao' <> ortho2 ao' /\
  h !! ortho1 ao' = None /\ h !! ortho2 ao' = None /\
  (forall p, p <> ortho1 ao' -> p <> ortho2 ao' -> h' !! p = h !! p) /\
  exists d1 d2, buffer h' (ortho1 ao') = Some d1 /\ buffer h' (ortho2 ao') = Some d2.
Proof.
  intros E. unfold computeOrtho in E.
  rewrite (bind_Some _ _ _ _ _ (malloc_double_eq (nSQ_ ao) h)) in E.
  set (o1 := fresh (dom h)) in E.
  set (h1 := <[o1 := DBlock (map (uninit o1) (seq 0 (nSQ_ ao)))]> h) in E.
  rewrite (bind_Some _ _ _ _ _ (malloc_double_eq (nSQ_ ao) h1)) in E.
  set (o2 := fresh (dom h1)) in E.
  set (h2 := <[o2 := DBlock (map (uninit o2) (seq 0 (nSQ_ ao)))]> h1) in E.
  assert (F1 : h !! o1 = None) by apply fresh_None.
  assert (F2 : h1 !! o2 = None) by apply fresh_None.
  assert (N12 : o1 <> o2).
  { intros Eq. subst h1. rewrite <- Eq, lookup_insert_eq in F2. discriminate. }
  assert (F2' : h !! o2 = None).
  { subst h1. now rewrite lookup_insert_ne in F2 by exact N12. }
  cbn [ortho1 ortho2 set_ortho nSQ_ overlap orthoType_ set_orthoType] in E.
  rewrite (bind_Some _ _ _ _ _ (fill_n_eq o1 (nSQ_ ao) 0%R _ h2
     ltac:(subst h2 h1; heap_lookup) ltac:(now rewrite length_map, length_seq))) in E.
  set (h3 := <[o1 := _]> h2) in E.
  rewrite (bind_Some _ _ _ _ _ (fill_n_eq o2 (nSQ_ ao) 0%R _ h3
     ltac:(subst h3 h2 h1; heap_lookup) ltac:(now rewrite length_map, length_seq))) in E.
  set (h4 := <[o2 := _]> h3) in E.
  rewrite (bind_Some _ _ _ _ _ (malloc_double_eq (nSQ_ ao) h4)) in E.
  set (SCR1 := fresh (dom h4)) in E.
  set (h5 := <[SCR1 := _]> h4) in E.
  assert (F3 : h4 !! SCR1 = None) by apply fresh_None.
  assert (NS1 : o1 <> SCR1).
  { intros Eq. subst h4 h3. rewrite <- Eq in F3.
    rewrite lookup_insert_ne, lookup_insert_eq in F3 by congruence. discriminate. }
  assert (NS2 : o2 <> SCR1).
  { intros Eq. subst h4. rewrite <- Eq, lookup_insert_eq in F3. discriminate. }
  assert (FS : h !! SCR1 = None).
  { subst h4 h3 h2 h1. now rewrite !lookup_insert_ne in F3 by congruence. }
  apply bind_inv in E as ([] & h6 & E6 & E).
  apply bind_inv in E as ([] & h7 & E7 & E).
  apply bind_inv in E as ([] & h8 & E8 & E).
  unfold ret in E. inversion E; subst ao' h8. clear E.
  cbn [ortho1 ortho2 set_ortho set_orthoType].
  split; [exact N12|]. split; [exact F1|]. split; [exact F2'|].
  split.
  { intros p Np1 Np2.
    destruct (decide (p = SCR1)) as [->|NpS].
    - rewrite FS. unfold free in E8. destruct (h7 !! SCR1); [|discriminate].
      inversion E8. apply lookup_delete_eq.
    - rewrite (touches_free (fun q => q = SCR1) SCR1 eq_refl _ _ _ E8 p NpS).
      rewrite (touches_computeOrtho_cholesky _ SCR1 _ _ _ E7 p)
        by (cbn [ortho1 ortho2 set_ortho set_orthoType]; intros [?|[?|?]]; congruence).
      rewrite (touches_copy_n (fun q => q = SCR1) _ _ SCR1 eq_refl _ _ _ E6 p NpS).
      subst h5 h4 h3 h2 h1. now rewrite !lookup_insert_ne by congruence. }
  (* the product of [Gemm] needs both buffers, and the stores that follow
     keep them *)
  unfold computeOrtho_cholesky in E7.
  cbn [ortho1 ortho2 set_ortho set_orthoType basisSet_] in E7.
  apply bind_inv in E7 as (ia & ha & Ea & E7).
  apply bind_inv in E7 as ([] & hb & Eb & E7).
  apply bind_inv in E7 as (ic & hc & Ec & E7).
  apply bind_inv in E7 as ([] & hd & Ed & E7).
  assert (Hd : (exists d, hd !! o1 = Some (DBlock d)) /\
               (exists d, hd !! o2 = Some (DBlock d))).
  { unfold Gemm in Ed.
    destruct (hc !! o2) as [[a|?]|] eqn:Ha; try discriminate.
    destruct (hc !! SCR1) as [[b|?]|]; try discriminate.
    destruct (hc !! o1) as [[c|?]|]; try discriminate.
    destruct (gemm_fits _ _ _ _ _ _ _ _ _ _ _); inversion Ed; subst hd.
    split; [eexists; apply lookup_insert_eq|].
    exists a. now rewrite lookup_insert_ne by congruence. }
  assert (H7 : forall q, (exists d, hd !! q = Some (DBlock d)) ->
                         exists d, h7 !! q = Some (DBlock d)).
  { intros q Hq. unfold for_range in E7.
    refine (for_list_live q _ _ _ hd tt h7 E7 Hq).
    intros j g u g' Ej Hg.
    refine (for_list_live q _ _ _ g u g' Ej Hg).
    intros i g1 u1 g1' Ei Hg1. exact (store_live _ _ _ q g1 u1 g1' Ei Hg1). }
  assert (H8 : forall q, q <> SCR1 -> (exists d, h7 !! q = Some (DBlock d)) ->
                         exists d, buffer h' q = Some d).
  { intros q Nq [d Hq]. exists d. unfold buffer.
    rewrite (touches_free (fun r => r = SCR1) SCR1 eq_refl _ _ _ E8 q Nq).
    now rewrite Hq. }
  destruct (H8 o1 NS1 (H7 o1 (proj1 Hd))) as [d1 B1].
  destruct (H8 o2 NS2 (H7 o2 (proj2 Hd))) as [d2 B2].
  now exists d1, d2.
Qed.

End OrthoFootprint.

Lemma ortho_locs_indep (A A' : Allocator) nSQ (h : heap) :
  @ortho_locs A nSQ h = @ortho_locs A' nSQ h.
Proof. unfold ortho_locs. f_equal. now rewrite !dom_insert_L. Qed.

(** X6.  Nor does [computeOrtho] depend on the contents of fresh storage:
    on an overlap buffer of at least [nSQ_ = nBasis^2] values, two
    allocators that differ in those contents give the same object and the
    same heap. *)
Theorem computeOrtho_ignores_uninitialised (A A' : Allocator) (B : LinAlg)
    ao (h : heap) S :
  let n := nBasis (basisSet_ ao) in
  buffer h (overlap ao) = Some S -> nSQ_ ao = n * n -> n * n <= length S ->
  exists r, @computeOrtho A B ao h = Some r /\ @computeOrtho A' B ao h = Some r.
Proof.
  intros n HS HnSQ Hlen.
  assert (HS' : h !! overlap ao = Some (DBlock S)).
  { unfold buffer in HS. destruct (h !! overlap ao) as [[d|z]|]; congruence. }
  destruct (@computeOrtho_eq_locs A B ao h S HS' HnSQ Hlen) as (_ & _ & _ & E).
  destruct (@computeOrtho_eq_locs A' B ao h S HS' HnSQ Hlen) as (_ & _ & _ & E').
  fold n in E, E'. rewrite (ortho_locs_indep A' A) in E'.
  eexists. split; [exact E | exact E'].
Qed.

Lemma computeOrtho_footprint_witness :
  exists ao' h',
    @computeOrtho sevens_alloc reference_backend ao_half heap_half = Some (ao', h') /\
    ortho1 ao' <> ortho2 ao' /\
    heap_half !! ortho1 ao' = None /\ heap_half !! ortho2 ao' = None /\
    (forall p, p <> ortho1 ao' -> p <> ortho2 ao' -> h' !! p = heap_half !! p) /\
    exists d1 d2, buffer h' (ortho1 ao') = Some d1 /\ buffer h' (ortho2 ao') = Some d2.
Proof.
  destruct (@computeOrtho_result sevens_alloc reference_backend ao_half heap_half S_half
              buffer_heap_half eq_refl eq_refl) as (ao' & h' & E & _).
  exists ao', h'. split; [exact E|].
  exact (@computeOrtho_footprint sevens_alloc reference_backend ao_half heap_half ao' h' E).
Defined.

Lemma computeOrtho_ignores_uninitialised_witness :
  exists r,
    @computeOrtho sevens_alloc reference_backend ao_half heap_half = Some r /\
    @computeOrtho zeros_alloc reference_backend ao_half heap_half = Some r.
Proof.
  exact (computeOrtho_ignores_uninitialised sevens_alloc zeros_alloc
           reference_backend ao_half heap_half S_half
           buffer_heap_half eq_refl (le_n _)).
Defined.

(** ** Reading past the end of the overlap *)

Lemma bind_None {A B} (c : comp A) (k : A -> comp B) h :
  c h = None -> bind c k h = None.
Proof. intros E. unfold bind. now rewrite E. Qed.

Lemma copy_n_short src dst n s d (h : heap) :
  h !! src = Some (DBlock s) -> h !! dst = Some (DBlock d) -> src <> dst ->
  length d = n -> length s < n ->
  copy_n src n dst h = None.
Proof.
  intros Hs Hd Hne Hlen Hshort. unfold copy_n, for_range. rewrite Nat.sub_0_r.
  replace n with (length s + (n - length s)) at 1 by lia.
  rewrite seq_app, for_list_app. simpl.
  pose proof (for_range_block dst (fun i => i) (content s) 0 (length s)
                (fun i => x <- load src i ;; store dst i x) h d) as E.
  unfold for_range in E. rewrite Nat.sub_0_r in E.
  rewrite (heap_self h dst _ Hd) in E. rewrite E.
  - destruct (n - length s) as [|m] eqn:Hm; [lia|]. simpl.
    apply bind_None. apply bind_None. unfold load.
    rewrite lookup_insert_ne by congruence. rewrite Hs.
    now rewrite (proj2 (lookup_ge_None s (length s)) (le_n _)).
  - intros i d' Hi Hd'.
    rewrite (bind_Some _ _ _ _ _ (load_block_other dst src i d' s h Hne Hs ltac:(lia))).
    apply store_block. lia.
Qed.

Section OrthoBounds.
Context `{Allocator} `{LinAlg}.

(** X7.  With [nSQ_ = nBasis^2] and a live overlap buffer, [computeOrtho]
    returns exactly when the buffer holds at least [nSQ_] values: on a
    shorter one the copy to scratch reads past its end.  Of a longer one
    only the first [nSQ_] values are used. *)
Theorem computeOrtho_overlap_bounds ao (h : heap) S :
  let n := nBasis (basisSet_ ao) in
  buffer h (overlap ao) = Some S -> nSQ_ ao = n * n ->
  (length S < n * n -> computeOrtho ao h = None) /\
  (n * n <= length S ->
     exists ao' h',
       computeOrtho ao h = Some (ao', h') /\
       buffer h' (ortho1 ao') = Some (cholesky_ortho1 n (take (n * n) S)) /\
       buffer h' (ortho2 ao') = Some (cholesky_ortho2 n (take (n * n) S))).
Proof.
  intros n HS HnSQ.
  assert (HS' : h !! overlap ao = Some (DBlock S)).
  { unfold buffer in HS. destruct (h !! overlap ao) as [[d|z]|]; congruence. }
  split.
  - intros Hshort. unfold computeOrtho. rewrite HnSQ.
    rewrite (bind_Some _ _ _ _ _ (malloc_double_eq (n * n) h)).
    set (o1 := fresh (dom h)).
    set (h1 := <[o1 := DBlock (map (uninit o1) (seq 0 (n * n)))]> h).
    rewrite (bind_Some _ _ _ _ _ (malloc_double_eq (n * n) h1)).
    set (o2 := fresh (dom h1)).
    set (h2 := <[o2 := DBlock (map (uninit o2) (seq 0 (n * n)))]> h1).
    assert (F1 : h !! o1 = None) by apply fresh_None.
    assert (F2 : h1 !! o2 = None) by apply fresh_None.
    assert (N12 : o1 <> o2).
    { intros Eq. subst h1. rewrite <- Eq, lookup_insert_eq in F2. discriminate. }
    cbn [ortho1 ortho2 set_ortho nSQ_ overlap orthoType_ set_orthoType].
    rewrite !HnSQ.
    rewrite (bind_Some _ _ _ _ _ (fill_n_eq o1 (n * n) 0%R _ h2
       ltac:(subst h2 h1; heap_lookup) ltac:(now rewrite length_map, length_seq))).
    set (h3 := <[o1 := _]> h2).
    rewrite (bind_Some _ _ _ _ _ (fill_n_eq o2 (n * n) 0%R _ h3
       ltac:(subst h3 h2 h1; heap_lookup) ltac:(now rewrite length_map, length_seq))).
    set (h4 := <[o2 := _]> h3).
    rewrite (bind_Some _ _ _ _ _ (malloc_double_eq (n * n) h4)).
    set (SCR1 := fresh (dom h4)).
    set (h5 := <[SCR1 := _]> h4).
    assert (F3 : h4 !! SCR1 = None) by apply fresh_None.
    assert (NS1 : o1 <> SCR1).
    { intros Eq. subst h4 h3. rewrite <- Eq in F3.
      rewrite lookup_insert_ne, lookup_insert_eq in F3 by congruence. discriminate. }
    assert (NS2 : o2 <> SCR1).
    { intros Eq. subst h4. rewrite <- Eq, lookup_insert_eq in F3. discriminate. }
    assert (NSO : overlap ao <> SCR1).
    { intros Eq. subst h4 h3 h2 h1. rewrite <- Eq in F3.
      destruct (decide (overlap ao = o2)) as [Eo|No];
        [rewrite Eo, lookup_insert_eq in F3; discriminate|].
      rewrite lookup_insert_ne in F3 by congruence.
      rewrite lookup_insert_ne in F3 by congruence.
      rewrite lookup_insert_ne in F3 by congruence.
      rewrite lookup_insert_ne in F3 by congruence. congruence. }
    assert (NO1 : overlap ao <> o1) by (intros Eq; rewrite Eq in HS'; congruence).
    assert (NO2 : overlap ao <> o2).
    { intros Eq. subst h1. rewrite <- Eq, lookup_insert_ne in F2 by congruence.
      congruence. }
    apply bind_None.
    apply (copy_n_short (overlap ao) SCR1 (n * n) S
             (map (uninit SCR1) (seq 0 (n * n))) h5);
      [ subst h5 h4 h3 h2 h1; heap_lookup
      | subst h5; heap_lookup
      | exact NSO
      | now rewrite length_map, length_seq
      | exact Hshort ].
  - intros Hlen.
    destruct (computeOrtho_eq ao h S HS' HnSQ Hlen) as (o1 & o2 & F1 & F2 & N12 & E).
    fold n in E. eexists _, _. split; [exact E|].
    cbn [ortho1 ortho2 set_orthoType set_ortho]. unfold buffer. split.
    + now rewrite lookup_insert_eq.
    + rewrite lookup_insert_ne by congruence. now rewrite lookup_insert_eq.
Qed.

End OrthoBounds.

Lemma computeOrtho_overlap_bounds_witness :
  @computeOrtho sevens_alloc reference_backend ao_half heap_short = None /\
  exists ao' h',
    @computeOrtho sevens_alloc reference_backend ao_half heap_half = Some (ao', h') /\
    buffer h' (ortho2 ao')
    = Some (@cholesky_ortho2 reference_backend 2 (take 4 S_half)).
Proof.
  split.
  - apply (proj1 (@computeOrtho_overlap_bounds sevens_alloc reference_backend
                    ao_half heap_short [1; 1/2; 1/2]%R
                    ltac:(unfold buffer, heap_short; cbn [overlap ao_half];
                          now rewrite lookup_singleton_eq)
                    eq_refl)).
    cbn. lia.
  - destruct (proj2 (@computeOrtho_overlap_bounds sevens_alloc reference_backend
                       ao_half heap_half S_half buffer_heap_half eq_refl))
      as (ao' & h' & E & _ & B2); [cbn; lia|].
    now exists ao', h'.
Defined.

(** ** The Cholesky pair orthonormalises *)

Lemma cholesky_pair_times_A n A L Sinv :
  cholesky_factor_of n A L -> inverse_of n A Sinv ->
  forall k j, k < n -> j < n -> mmul n (mmul n (mtrans L) Sinv) A k j = L j k.
Proof.
  intros HL HI k j Hk Hj.
  destruct (cholesky_pair_inverse n A L Sinv HL HI) as [EX _].
  destruct HL as (_ & _ & HLL).
  rewrite (mmul_ext_r n _ A (mmul n L (mtrans L)))
    by (intros m Hm; symmetry; now apply HLL).
  rewrite <- mmul_assoc.
  rewrite (mmul_ext_l n _ mident) by (intros m Hm; now apply EX).
  now rewrite mmul_ident_l.
Qed.

Section CholOrthonormal.
Context `{Allocator} `{LinAlg}.

(** X8.  Under the kernels' contract the pair [computeOrtho] produces
    transforms to an orthonormal basis and back:
    ortho2 * ortho2^T = S  and  ortho1 * S * ortho1^T = I. *)
Theorem computeOrtho_cholesky_orthonormalises ao (h : heap) S L Sinv :
  let n := nBasis (basisSet_ ao) in
  buffer h (overlap ao) = Some S -> nSQ_ ao = n * n -> length S = n * n ->
  cholesky_factor_of n (entry n S) L -> lower_holds n (chol_factor n S) L ->
  inverse_of n (entry n S) Sinv -> lower_holds n (chol_inverse n S) Sinv ->
  exists ao' h' d1 d2,
    computeOrtho ao h = Some (ao', h') /\
    buffer h' (ortho1 ao') = Some d1 /\
    buffer h' (ortho2 ao') = Some d2 /\
    meq n (mmul n (entry n d2) (mtrans (entry n d2))) (entry n S) /\
    meq n (mmul n (mmul n (entry n d1) (entry n S)) (mtrans (entry n d1))) mident.
Proof.
  intros n HS HnSQ Hlen HL HfL HI HfI.
  destruct (computeOrtho_result ao h S HS HnSQ Hlen) as (ao' & h' & E & _ & B1 & B2).
  fold n in B1, B2.
  exists ao', h', (cholesky_ortho1 n S), (cholesky_ortho2 n S).
  split; [exact E|]. split; [exact B1|]. split; [exact B2|].
  pose proof (cholesky_pair_entries n S L Sinv (proj1 HL) HfL HfI) as Hent.
  destruct (cholesky_pair_inverse n (entry n S) L Sinv HL HI) as [HXL Hlow].
  assert (H1 : meq n (entry n (cholesky_ortho1 n S)) (mmul n (mtrans L) Sinv)).
  { intros i k Hi Hk. rewrite (proj2 (Hent i k Hi Hk)).
    destruct (decide (k <= i)); [reflexivity|].
    rewrite (Hlow i k) by lia. reflexivity. }
  split.
  - intros i j Hi Hj. rewrite <- (proj2 (proj2 HL) i j Hi Hj).
    unfold mmul, mtrans. apply Rsum_ext. intros k Hk.
    now rewrite (proj1 (Hent i k Hi Hk)), (proj1 (Hent j k Hj Hk)).
  - intros i j Hi Hj.
    transitivity (mmul n (mmul n (mtrans L) Sinv) L j i).
    + unfold mmul at 1. unfold mmul at 3. apply Rsum_ext. intros k Hk.
      rewrite (mmul_ext_l n _ (mmul n (mtrans L) Sinv))
        by (intros m Hm; now apply H1).
      rewrite (cholesky_pair_times_A n (entry n S) L Sinv HL HI i k Hi Hk).
      unfold mtrans at 1. rewrite (H1 j k Hj Hk). unfold mmul. ring.
    + rewrite (HXL j i Hj Hi). unfold mident.
      destruct (decide (j = i)), (decide (i = j)); congruence.
Qed.

End CholOrthonormal.

Lemma computeOrtho_cholesky_orthonormalises_witness :
  exists ao' h' d1 d2,
    @computeOrtho sevens_alloc reference_backend ao_half heap_half = Some (ao', h') /\
    buffer h' (ortho1 ao') = Some d1 /\
    buffer h' (ortho2 ao') = Some d2 /\
    meq 2 (mmul 2 (entry 2 d2) (mtrans (entry 2 d2))) (entry 2 S_half) /\
    meq 2 (mmul 2 (mmul 2 (entry 2 d1) (entry 2 S_half)) (mtrans (entry 2 d1))) mident.
Proof.
  exact (@computeOrtho_cholesky_orthonormalises sevens_alloc reference_backend
           ao_half heap_half S_half L_half Sinv_half
           buffer_heap_half eq_refl eq_refl
           L_half_factor (proj2 ref_half_factor)
           Sinv_half_inverse ref_half_inverse).
Defined.

(** ** More about the [LOWDIN] branch *)

Section LowdinMore.
Context `{Allocator} `{LinAlg}.

(** X10.  Under the eigensolver's contract the two matrices the [LOWDIN]
    branch leaves are symmetric, [ortho2] is a square root of the overlap
    (ortho2 * ortho2 = S), and [ortho1] orthonormalises
    (ortho1 * S * ortho1 = I). *)
Theorem computeOrtho_lowdin_square_root ao SCR1 (h : heap) S :
  let n := nBasis (basisSet_ ao) in
  let V := entry n (lowdin_vectors n S) in
  let s := content (lowdin_values n S) in
  nSQ_ ao = n * n ->
  h !! SCR1 = Some (DBlock S) -> length S = n * n ->
  h !! ortho1 ao = Some (DBlock (replicate (n * n) 0%R)) ->
  h !! ortho2 ao = Some (DBlock (replicate (n * n) 0%R)) ->
  ortho1 ao <> ortho2 ao -> ortho1 ao <> SCR1 -> ortho2 ao <> SCR1 ->
  eigensystem n (entry n S) V s ->
  (forall k, k < n -> (0 < s k)%R) ->
  exists h' d1 d2,
    computeOrtho_lowdin ao SCR1 h = Some (tt, h') /\
    buffer h' (ortho1 ao) = Some d1 /\
    buffer h' (ortho2 ao) = Some d2 /\
    (forall i j, i < n -> j < n ->
       entry n d1 i j = entry n d1 j i /\ entry n d2 i j = entry n d2 j i) /\
    meq n (mmul n (entry n d2) (entry n d2)) (entry n S) /\
    meq n (mmul n (mmul n (entry n d1) (entry n S)) (entry n d1)) mident.
Proof.
  intros n V s HnSQ HS HlenS H1 H2 N12 N1S N2S HE Hpos.
  pose proof (computeOrtho_lowdin_eq ao SCR1 h S HnSQ HS HlenS H1 H2 N12 N1S N2S) as E.
  cbv zeta in E. fold n in E.
  set (u := map _ (seq 0 (n * n))) in E.
  assert (Hu : length u = n * n) by (subst u; now rewrite length_map, length_seq).
  eexists _, (lowdin_ortho1 n S u), (lowdin_ortho2 n S u).
  split; [exact E|].
  split; [unfold buffer; now rewrite lookup_insert_ne, lookup_insert_eq by congruence|].
  split; [unfold buffer; now rewrite lookup_insert_eq|].
  set (a := fun k => (/ sqrt (s k))%R).
  set (b := fun k => (/ sqrt (s k) * s k)%R).
  assert (E1 : meq n (entry n (lowdin_ortho1 n S u)) (spectral n V a))
    by (intros i j Hi Hj; now apply entry_lowdin_ortho1).
  assert (E2 : meq n (entry n (lowdin_ortho2 n S u)) (spectral n V b))
    by (intros i j Hi Hj; now apply entry_lowdin_ortho2).
  pose proof (eigensystem_spectral n (entry n S) V s HE) as HSp.
  destruct HE as (HVtV & HVVt & _ & _).
  assert (Hsq : forall k, k < n -> (sqrt (s k) * sqrt (s k) = s k)%R).
  { intros k Hk. apply sqrt_sqrt. specialize (Hpos k Hk). lra. }
  assert (Hnz : forall k, k < n -> sqrt (s k) <> 0%R).
  { intros k Hk. specialize (Hsq k Hk). specialize (Hpos k Hk). nra. }
  split; [|split].
  - intros i j Hi Hj.
    rewrite (E1 i j Hi Hj), (E1 j i Hj Hi), (E2 i j Hi Hj), (E2 j i Hj Hi).
    split; apply spectral_sym.
  - intros i j Hi Hj.
    rewrite (mmul_ext_l n _ (spectral n V b)) by (intros k Hk; now apply E2).
    rewrite (mmul_ext_r n _ _ (spectral n V b)) by (intros k Hk; now apply E2).
    rewrite spectral_mul by exact HVtV. rewrite (HSp i j Hi Hj).
    apply spectral_ext. intros k Hk. subst b. cbv beta.
    generalize (Hsq k Hk) (Hnz k Hk). generalize (sqrt (s k)). intros r Hr Hr0.
    rewrite <- Hr. now field.
  - intros i j Hi Hj.
    rewrite (mmul_ext_r n _ _ (spectral n V a)) by (intros k Hk; now apply E1).
    rewrite (mmul_ext_l n _ (spectral n V (fun k => a k * s k)%R)).
    2:{ intros k Hk.
        rewrite (mmul_ext_l n _ (spectral n V a)) by (intros m Hm; now apply E1).
        rewrite (mmul_ext_r n _ _ (spectral n V s)) by (intros m Hm; now apply HSp).
        now apply spectral_mul. }
    rewrite spectral_mul by exact HVtV.
    apply spectral_one; try assumption.
    intros k Hk. subst a. cbv beta.
    generalize (Hsq k Hk) (Hnz k Hk). generalize (sqrt (s k)). intros r Hr Hr0.
    rewrite <- Hr. now field.
Qed.

End LowdinMore.

Lemma computeOrtho_lowdin_square_root_witness :
  exists h' d1 d2,
    @computeOrtho_lowdin sevens_alloc reference_backend ao_lowdin 1%positive heap_lowdin
    = Some (tt, h') /\
    buffer h' (ortho1 ao_lowdin) = Some d1 /\
    buffer h' (ortho2 ao_lowdin) = Some d2 /\
    entry 2 d2 0 1 = entry 2 d2 1 0 /\
    meq 2 (mmul 2 (entry 2 d2) (entry 2 d2)) (entry 2 S_half).
Proof.
  destruct (@computeOrtho_lowdin_square_root sevens_alloc reference_backend
              ao_lowdin 1%positive heap_lowdin S_half)
    as (h' & d1 & d2 & E & B1 & B2 & Hsym & Hsq & _);
    try reflexivity; try discriminate.
  - exact ref_half_eigensystem.
  - exact (half_eigenvalues_positive _ _ ref_half_eigensystem).
  - exists h', d1, d2. repeat split; try assumption.
    exact (proj2 (Hsym 0 1 ltac:(cbn; lia) ltac:(cbn; lia))).
Defined.

Lemma lowdin_X1_indep `{LinAlg} n S u u' :
  length u = n * n -> length u' = n * n -> lowdin_X1 n S u = lowdin_X1 n S u'.
Proof.
  intros Hu Hu'. apply list_eq_content.
  - now rewrite !length_lowdin_X1, Hu, Hu'.
  - intros idx Hidx. rewrite length_lowdin_X1, Hu in Hidx.
    assert (Hn : n <> 0) by (intros ->; simpl in Hidx; lia).
    pose proof (Nat.div_mod_eq idx n) as Hdm.
    pose proof (Nat.mod_upper_bound idx n Hn) as Hm.
    assert (Hd : idx / n < n) by (apply Nat.Div0.div_lt_upper_bound; lia).
    replace idx with (idx mod n + (idx / n) * n) by lia.
    change (entry n (lowdin_X1 n S u) (idx mod n) (idx / n)
            = entry n (lowdin_X1 n S u') (idx mod n) (idx / n)).
    now rewrite !entry_lowdin_X1.
Qed.

(** X11.  The [LOWDIN] branch returns whenever the three buffers it is
    given are live, distinct and of [nBasis^2] values.  It changes
    [ortho1], [ortho2] and the scratch copy of the overlap, which ends up
    holding the eigenvectors; every other address is as before, so both
    scratch buffers it took have been given back.  What fresh storage
    contained has no influence on the result. *)
Theorem computeOrtho_lowdin_footprint (A A' : Allocator) (B : LinAlg)
    ao SCR1 (h : heap) S :
  let n := nBasis (basisSet_ ao) in
  nSQ_ ao = n * n ->
  h !! SCR1 = Some (DBlock S) -> length S = n * n ->
  h !! ortho1 ao = Some (DBlock (replicate (n * n) 0%R)) ->
  h !! ortho2 ao = Some (DBlock (replicate (n * n) 0%R)) ->
  ortho1 ao <> ortho2 ao -> ortho1 ao <> SCR1 -> ortho2 ao <> SCR1 ->
  exists h',
    @computeOrtho_lowdin A B ao SCR1 h = Some (tt, h') /\
    @computeOrtho_lowdin A' B ao SCR1 h = Some (tt, h') /\
    buffer h' SCR1 = Some (lowdin_vectors n S) /\
    forall p, p <> ortho1 ao -> p <> ortho2 ao -> p <> SCR1 -> h' !! p = h !! p.
Proof.
  intros n HnSQ HS HlenS H1 H2 N12 N1S N2S.
  pose proof (@computeOrtho_lowdin_eq A B ao SCR1 h S HnSQ HS HlenS H1 H2 N12 N1S N2S) as E.
  pose proof (@computeOrtho_lowdin_eq A' B ao SCR1 h S HnSQ HS HlenS H1 H2 N12 N1S N2S) as E'.
  cbv zeta in E, E'. fold n in E, E'.
  set (u := map _ (seq 0 (n * n))) in E.
  set (u' := map _ (seq 0 (n * n))) in E'.
  assert (Hu : length u = n * n) by (subst u; now rewrite length_map, length_seq).
  assert (Hu' : length u' = n * n) by (subst u'; now rewrite length_map, length_seq).
  assert (EX : lowdin_X1 n S u' = lowdin_X1 n S u) by now apply lowdin_X1_indep.
  assert (E1 : lowdin_ortho1 n S u' = lowdin_ortho1 n S u)
    by (unfold lowdin_ortho1; now rewrite EX).
  assert (E2 : lowdin_ortho2 n S u' = lowdin_ortho2 n S u)
    by (unfold lowdin_ortho2, lowdin_X2; now rewrite EX).
  rewrite E1, E2 in E'.
  eexists. split; [exact E|]. split; [exact E'|]. split.
  - unfold buffer. rewrite !lookup_insert_ne by congruence. now rewrite lookup_insert_eq.
  - intros p Np1 Np2 NpS. now rewrite !lookup_insert_ne by congruence.
Qed.

Lemma computeOrtho_lowdin_footprint_witness :
  exists h',
    @computeOrtho_lowdin sevens_alloc reference_backend ao_lowdin 1%positive heap_lowdin
    = Some (tt, h') /\
    @computeOrtho_lowdin zeros_alloc reference_backend ao_lowdin 1%positive heap_lowdin
    = Some (tt, h') /\
    buffer h' 1%positive = Some (@lowdin_vectors reference_backend 2 S_half) /\
    forall p, p <> 2%positive -> p <> 3%positive -> p <> 1%positive ->
              h' !! p = heap_lowdin !! p.
Proof.
  apply (computeOrtho_lowdin_footprint sevens_alloc zeros_alloc reference_backend
           ao_lowdin 1%positive heap_lowdin S_half);
    try reflexivity; discriminate.
Defined.

(** ** More about the allocating [LU] overload *)

(** X12.  The overload [LU(M,N,A,LDA,mem)] returns exactly when [A] is a
    live buffer of doubles that holds the [M] by [N] matrix with leading
    dimension [LDA], that is [M <= LDA] and at least [LDA*N] values.  It
    then returns the status of the kernel, has left in [A] what the kernel
    makes of its contents, and has changed no block other than [A];
    neither its status nor the heap it leaves depend on what the pivot
    storage it was handed contained. *)
Theorem LU_mem_effect (X X' : Allocator) (B : LinAlg) m n A lda (h : heap) :
  ((exists r, @LU_mem X B m n A lda h = Some r) <->
   exists a, h !! A = Some (DBlock a) /\ m <= lda /\ lda * n <= length a) /\
  @LU_mem X B m n A lda h = @LU_mem X' B m n A lda h /\
  forall info h', @LU_mem X B m n A lda h = Some (info, h') ->
    (exists a, h !! A = Some (DBlock a) /\
               info = (getrf m n (content a) lda).1.1 /\
               h' !! A = Some (DBlock (refill a (getrf m n (content a) lda).1.2))) /\
    forall p, p <> A -> h' !! p = h !! p.
Proof.
  assert (Hno : (forall a, h !! A = Some (DBlock a) -> mat_fits m n a lda = false) ->
    ((exists r, @LU_mem X B m n A lda h = Some r) <->
     exists a, h !! A = Some (DBlock a) /\ m <= lda /\ lda * n <= length a) /\
    @LU_mem X B m n A lda h = @LU_mem X' B m n A lda h /\
    forall info h', @LU_mem X B m n A lda h = Some (info, h') ->
      (exists a, h !! A = Some (DBlock a) /\
                 info = (getrf m n (content a) lda).1.1 /\
                 h' !! A = Some (DBlock (refill a (getrf m n (content a) lda).1.2))) /\
      forall p, p <> A -> h' !! p = h !! p).
  { intros HA.
    assert (F : forall Y : Allocator, @LU_mem Y B m n A lda h = None)
      by (intros Y; now apply LU_mem_fault).
    split; [split|].
    - intros [r Hr]. rewrite F in Hr. discriminate.
    - intros (a & Ha & Hm & Hl). pose proof (HA a Ha) as Hf.
      apply bool_decide_eq_false in Hf. tauto.
    - split; [now rewrite !F|]. intros info h' Eh. rewrite F in Eh. discriminate. }
  destruct (h !! A) as [[a|z]|] eqn:HA; [|apply Hno; intros a; discriminate..].
  destruct (mat_fits m n a lda) eqn:Hfit; [|apply Hno; intros a' Ha'; congruence].
  clear Hno.
  pose proof (@LU_mem_eq X B m n A lda a h HA Hfit) as E.
  pose proof (@LU_mem_eq X' B m n A lda a h HA Hfit) as E'.
  apply bool_decide_eq_true in Hfit.
  split; [split; [intros _; now exists a | intros _; eexists; exact E]|].
  split; [now rewrite E, E'|].
  intros info h' Eh. rewrite E in Eh. inversion Eh; subst. split.
  - exists a. split; [reflexivity|]. split; [reflexivity|]. apply lookup_insert_eq.
  - intros p Hp. now rewrite lookup_insert_ne by congruence.
Qed.

Lemma LU_mem_effect_witness :
  @LU_mem sevens_alloc reference_backend 2 2 1%positive 2 heap_lu_short = None /\
  exists h',
    @LU_mem sevens_alloc reference_backend 2 2 1%positive 2 heap_lu = Some (2%Z, h') /\
    @LU_mem zeros_alloc reference_backend 2 2 1%positive 2 heap_lu = Some (2%Z, h') /\
    h' !! 1%positive = Some (DBlock LU_sing) /\
    h' !! 2%positive = heap_lu !! 2%positive.
Proof.
  split.
  - destruct (LU_mem_effect sevens_alloc zeros_alloc reference_backend
                2 2 1%positive 2 heap_lu_short) as ([Hret _] & _).
    destruct (@LU_mem sevens_alloc reference_backend 2 2 1%positive 2 heap_lu_short)
      as [r|]; [|reflexivity].
    destruct (Hret (ex_intro _ r eq_refl)) as (a & Ha & _ & Hl).
    unfold heap_lu_short in Ha. rewrite lookup_insert_eq in Ha.
    inversion Ha; subst a. simpl in Hl. lia.
  - destruct (LU_mem_effect sevens_alloc zeros_alloc reference_backend
                2 2 1%positive 2 heap_lu) as ([_ Hret] & Heq & Heff).
    destruct Hret as [[info h'] E].
    { exists A_sing. split; [reflexivity|]. simpl. lia. }
    destruct (Heff info h' E) as ((a & Ha & Hinfo & HA) & Hfr).
    unfold heap_lu in Ha. rewrite lookup_insert_eq in Ha. inversion Ha; subst a.
    destruct getrf_ref_sing as (f & piv & Eg & F0 & F1 & F2 & F3).
    cbn [getrf reference_backend] in Hinfo, HA. rewrite Eg in Hinfo, HA.
    cbn [fst snd] in Hinfo, HA. subst info.
    exists h'. split; [exact E|]. split; [rewrite <- Heq; exact E|]. split.
    + rewrite HA. unfold refill, LU_sing, A_sing. simpl.
      now rewrite F0, F1, F2, F3.
    + apply Hfr. discriminate.
Defined.

(** ** More about [computeAOOneE] *)

Section OneEMore.
Context `{Allocator} `{LinAlg} `{Libint}.

(** A run that returns, step by step, down to the call of [computeOrtho]. *)
Lemma computeAOOneE_inv order ao (h : heap) ao' h' :
  computeAOOneE order ao h = Some (ao', h') ->
  let sh := shells (basisSet_ ao) in
  exists mp h1 kn h2 pt h3 ov kin pot dk dp,
    OneEDriver ao Operator_emultipole3 sh h = Some (mp, h1) /\
    OneEDriver ao Operator_kinetic sh h1 = Some (kn, h2) /\
    OneEDriver ao Operator_nuclear sh h2 = Some (pt, h3) /\
    mp !! 0 = Some ov /\ 20 <= length mp /\
    kn !! 0 = Some kin /\ pt !! 0 = Some pot /\
    h3 !! kin = Some (DBlock dk) /\ h3 !! pot = Some (DBlock dp) /\
    core_fits dk dp (replicate (nSQ_ ao) 0%R) order = true /\
    computeOrtho
      (set_oneE ao ov (lenElecDipole ao ++ take 3 (drop 1 mp))
         (lenElecQuadrupole ao ++ take 6 (drop 4 mp))
         (lenElecOctupole ao ++ take 10 (drop 10 mp))
         kin pot (coreH ao ++ [fresh (dom h3)]))
      (<[fresh (dom h3) := DBlock (core_sum dk dp order (replicate (nSQ_ ao) 0%R))]> h3)
    = Some (ao', h').
Proof.
  intros E sh. unfold computeAOOneE in E. fold sh in E.
  apply bind_inv in E as (mp & h1 & E1 & E).
  apply bind_inv in E as (kn & h2 & E2 & E).
  apply bind_inv in E as (pt & h3 & E3 & E).
  apply bind_inv in E as (ov & h4 & Eov & E). unfold lift in Eov.
  destruct (mp !! 0) as [ov'|] eqn:Hov; [|discriminate].
  inversion Eov; subst ov' h4. clear Eov.
  apply bind_inv in E as (dip & h4 & Ed & E). unfold lift, copy_n_back in Ed.
  destruct (decide (1 + 3 <= length mp)) as [L1|]; [|discriminate].
  inversion Ed; subst dip h4. clear Ed.
  apply bind_inv in E as (quad & h4 & Eq & E). unfold lift, copy_n_back in Eq.
  destruct (decide (4 + 6 <= length mp)) as [L2|]; [|discriminate].
  inversion Eq; subst quad h4. clear Eq.
  apply bind_inv in E as (oct & h4 & Eo & E). unfold lift, copy_n_back in Eo.
  destruct (decide (10 + 10 <= length mp)) as [L3|]; [|discriminate].
  inversion Eo; subst oct h4. clear Eo.
  apply bind_inv in E as (kin & h4 & Ek & E). unfold lift in Ek.
  destruct (kn !! 0) as [kin'|] eqn:Hkin; [|discriminate].
  inversion Ek; subst kin' h4. clear Ek.
  apply bind_inv in E as (pot & h4 & Ep & E). unfold lift in Ep.
  destruct (pt !! 0) as [pot'|] eqn:Hpot; [|discriminate].
  inversion Ep; subst pot' h4. clear Ep.
  apply bind_inv in E as (cH & h4 & Ec & E).
  rewrite malloc_double_eq in Ec. inversion Ec; subst cH h4. clear Ec.
  set (cH := fresh (dom h3)) in *.
  assert (Fc : h3 !! cH = None) by apply fresh_None.
  cbn [kinetic potential nSQ_ set_oneE] in E.
  apply bind_inv in E as ([] & h5 & Ef & E).
  rewrite (fill_n_eq cH (nSQ_ ao) 0%R _ _ (lookup_insert_eq _ _ _)
             ltac:(now rewrite length_map, length_seq)) in Ef.
  inversion Ef; subst h5. clear Ef. rewrite insert_insert_eq in E.
  apply bind_inv in E as ([] & h6 & El & E).
  destruct (OneEDriver_live ao Operator_kinetic sh h1 kn h2 0 kin E2 Hkin) as (dk & Hdk & _).
  destruct (OneEDriver_live ao Operator_nuclear sh h2 pt h3 0 pot E3 Hpot) as (dp & Hdp & _).
  pose proof (OneEDriver_preserves ao Operator_nuclear sh h2 pt h3 E3 kin _ Hdk) as Hdk3.
  assert (Nk : cH <> kin) by congruence.
  assert (Np : cH <> pot) by congruence.
  rewrite (core_loop_eq kin pot cH dk dp order Nk Np (replicate (nSQ_ ao) 0%R)) in El;
    [| now rewrite lookup_insert_ne by congruence
     | now rewrite lookup_insert_ne by congruence
     | apply lookup_insert_eq].
  destruct (core_fits dk dp (replicate (nSQ_ ao) 0%R) order) eqn:Hfit; [|discriminate].
  inversion El; subst h6. clear El. rewrite insert_insert_eq in E.
  exists mp, h1, kn, h2, pt, h3, ov, kin, pot, dk, dp.
  repeat (split; [first [assumption | lia]|]). exact E.
Qed.

(** X13.  [computeAOOneE] can only return if the engine of the combined
    overlap and multipole operator has at least 20 result components and
    those of the kinetic and the nuclear operator at least one, and if
    every index of the summation loop lies below [nSQ_] and below [NB^2]:
    with fewer components the extraction reads past the end of the
    collection, with [nSQ_ > NB^2] the loop reads past the end of the
    kinetic matrix. *)
Theorem computeAOOneE_needs order ao (h : heap) ao' h' :
  computeAOOneE order ao h = Some (ao', h') ->
  let sh := shells (basisSet_ ao) in
  let NB := basis_size sh in
  (exists eS eT eV,
     driver_engine ao Operator_emultipole3 sh = Some eS /\
     driver_engine ao Operator_kinetic sh = Some eT /\
     driver_engine ao Operator_nuclear sh = Some eV /\
     20 <= results_size eS /\ 1 <= results_size eT /\ 1 <= results_size eV) /\
  (forall i, In i order -> i < nSQ_ ao /\ i < NB * NB) /\
  (order = seq 0 (nSQ_ ao) -> nSQ_ ao <= NB * NB).
Proof.
  intros E sh NB.
  destruct (computeAOOneE_inv order ao h ao' h' E)
    as (mp & h1 & kn & h2 & pt & h3 & ov & kin & pot & dk & dp
        & E1 & E2 & E3 & Hov & Lmp & Hkin & Hpot & Hdk & Hdp & Hfit & _).
  fold sh in E1, E2, E3.
  destruct (OneEDriver_spec ao _ sh h mp h1 E1) as (eS & _ & HeS & _ & LS & _).
  destruct (OneEDriver_spec ao _ sh h1 kn h2 E2) as (eT & _ & HeT & _ & LT & _).
  destruct (OneEDriver_spec ao _ sh h2 pt h3 E3) as (eV & _ & HeV & _ & LV & _).
  pose proof (lookup_lt_Some _ _ _ Hkin) as Lkn.
  pose proof (lookup_lt_Some _ _ _ Hpot) as Lpt.
  assert (Hin : forall i, In i order -> i < nSQ_ ao /\ i < NB * NB).
  { intros i Hi.
    pose proof (proj1 (forallb_forall _ _) Hfit i Hi) as Hb.
    apply bool_decide_eq_true in Hb. rewrite length_replicate in Hb.
    destruct (OneEDriver_live ao _ sh h2 pt h3 0 pot E3 Hpot) as (dp' & Hdp' & Ldp).
    assert (dp' = dp) by congruence. subst dp'. fold NB in Ldp. lia. }
  split; [exists eS, eT, eV; repeat split; try assumption; lia|].
  split; [exact Hin|].
  intros ->. destruct (nSQ_ ao) as [|k] eqn:Hk; [lia|].
  destruct (Hin k) as [_ Hlt]; [apply in_seq; lia | lia].
Qed.

End OneEMore.

Lemma computeAOOneE_needs_witness :
  exists ao' h',
    @computeAOOneE sevens_alloc reference_backend toy_engine toy_order ao_toy ∅
    = Some (ao', h') /\
    (forall i, In i toy_order -> i < 4 /\ i < 2 * 2).
Proof.
  destruct (@computeAOOneE_total sevens_alloc reference_backend toy_engine
              toy_order ao_toy ∅ toy_ready) as (ao' & h' & E).
  { intros i Hi. simpl in Hi. cbn. intuition lia. }
  exists ao', h'. split; [exact E|].
  exact (proj1 (proj2 (@computeAOOneE_needs sevens_alloc reference_backend toy_engine
                         toy_order ao_toy ∅ ao' h' E))).
Defined.

Lemma computeOrtho_distinct `{Allocator} `{LinAlg} ao (h : heap) ao' h' :
  computeOrtho ao h = Some (ao', h') -> ortho1 ao' <> ortho2 ao'.
Proof.
  intros E. unfold computeOrtho in E.
  rewrite (bind_Some _ _ _ _ _ (malloc_double_eq (nSQ_ ao) h)) in E.
  set (o1 := fresh (dom h)) in E.
  set (h1 := <[o1 := DBlock (map (uninit o1) (seq 0 (nSQ_ ao)))]> h) in E.
  rewrite (bind_Some _ _ _ _ _ (malloc_double_eq (nSQ_ ao) h1)) in E.
  set (o2 := fresh (dom h1)) in E.
  assert (F2 : h1 !! o2 = None) by apply fresh_None.
  assert (N12 : o1 <> o2).
  { intros Eq. subst h1. rewrite <- Eq, lookup_insert_eq in F2. discriminate. }
  destruct (computeOrtho_frame ao h ao' h') as ((p1 & p2 & Eao) & _).
  { unfold computeOrtho.
    rewrite (bind_Some _ _ _ _ _ (malloc_double_eq (nSQ_ ao) h)). fold o1 h1.
    rewrite (bind_Some _ _ _ _ _ (malloc_double_eq (nSQ_ ao) h1)). exact E. }
  apply bind_inv in E as ([] & h3 & _ & E).
  apply bind_inv in E as ([] & h4 & _ & E).
  apply bind_inv in E as (SCR1 & h5 & _ & E).
  apply bind_inv in E as ([] & h6 & _ & E).
  apply bind_inv in E as ([] & h7 & _ & E).
  apply bind_inv in E as ([] & h8 & _ & E).
  unfold ret in E. inversion E; subst ao'.
  cbn [ortho1 ortho2 set_ortho set_orthoType]. exact N12.
Qed.

Section OneEComposition.
Context `{Allocator} `{LinAlg} `{Libint}.

Lemma OneEDriver_sym_buffer ao op shells (h : heap) mats h' k p :
  OneEDriver ao op shells h = Some (mats, h') -> mats !! k = Some p ->
  let NB := basis_size shells in
  h !! p = None /\
  exists d, h' !! p = Some (DBlock d) /\ length d = NB * NB /\
            forall i j, i < NB -> j < NB -> entry NB d i j = entry NB d j i.
Proof.
  intros E Hk NB.
  destruct (OneEDriver_spec ao op shells h mats h' E)
    as (e & hA & _ & _ & _ & _ & Hnew & _ & Hblk).
  split; [apply Hnew; apply list_elem_of_In; eapply list_elem_of_lookup_2, Hk|].
  destruct (Hblk k p Hk) as (dA & _ & (Hlen & _) & Hd). fold NB in Hlen.
  exists (sym_block NB dA). split; [exact Hd|].
  split; [now rewrite length_sym_block|].
  intros i j Hi Hj. rewrite !entry_sym_block by assumption.
  destruct (decide (i < j)), (decide (j < i)); try reflexivity; try lia.
  now replace j with i by lia.
Qed.

(** X14.  On a ready basis [computeAOOneE] ends with the transforms of the
    overlap matrix it has just evaluated: the overlap buffer holds a
    symmetric matrix [S] of [nBasis^2] values, [ortho1] and [ortho2] are
    what the [CHOLESKY] branch computes from [S], and the recorded
    orthogonalisation type is [CHOLESKY], whatever it was before. *)
Theorem computeAOOneE_transforms_of_overlap order ao (h : heap) :
  let n := nBasis (basisSet_ ao) in
  oneE_ready ao -> (forall i, In i order -> i < nSQ_ ao) ->
  exists ao' h' S,
    computeAOOneE order ao h = Some (ao', h') /\
    orthoType_ ao' = CHOLESKY /\
    buffer h' (overlap ao') = Some S /\ length S = n * n /\
    (forall i j, i < n -> j < n -> entry n S i j = entry n S j i) /\
    buffer h' (ortho1 ao') = Some (cholesky_ortho1 n S) /\
    buffer h' (ortho2 ao') = Some (cholesky_ortho2 n S).
Proof.
  intros n Hready Hord.
  destruct (computeAOOneE_total order ao h Hready Hord) as (ao' & h' & E).
  destruct Hready as (HNB & HnSQ & _).
  destruct (computeAOOneE_inv order ao h ao' h' E)
    as (mp & h1 & kn & h2 & pt & h3 & ov & kin & pot & dk & dp
        & E1 & E2 & E3 & Hov & _ & _ & _ & _ & _ & _ & EO).
  destruct (OneEDriver_sym_buffer ao _ _ h mp h1 0 ov E1 Hov)
    as (_ & dS & HdS & LS & Hsym).
  rewrite HNB in LS, Hsym. fold n in LS, Hsym.
  pose proof (OneEDriver_preserves ao _ _ h2 pt h3 E3 ov _
                (OneEDriver_preserves ao _ _ h1 kn h2 E2 ov _ HdS)) as HdS3.
  set (cH := fresh (dom h3)) in *.
  assert (Fc : h3 !! cH = None) by apply fresh_None.
  assert (No : cH <> ov) by congruence.
  set (ao1 := set_oneE ao ov _ _ _ kin pot _) in EO.
  set (h6 := <[cH := _]> h3) in EO.
  assert (HdS6 : h6 !! ov = Some (DBlock dS)).
  { subst h6. now rewrite lookup_insert_ne by congruence. }
  destruct (computeOrtho_result ao1 h6 dS) as (ao2 & h2' & EO' & T & B1 & B2).
  { unfold buffer. subst ao1. cbn [overlap set_oneE]. now rewrite HdS6. }
  { exact HnSQ. }
  { exact LS. }
  rewrite EO in EO'. inversion EO'; subst ao2 h2'. clear EO'.
  destruct (computeOrtho_frame ao1 h6 ao' h' EO) as ((o1 & o2 & Eao) & _ & Hfr).
  exists ao', h', dS. split; [exact E|]. split; [exact T|].
  split.
  { rewrite Eao. subst ao1. cbn [overlap set_orthoType set_ortho set_oneE].
    unfold buffer. now rewrite (Hfr ov _ HdS6). }
  split; [exact LS|]. split; [exact Hsym|]. split; [exact B1 | exact B2].
Qed.

(** A value within a buffer, as a lookup. *)
Lemma lookup_content (d : list R) i : i < length d -> d !! i = Some (content d i).
Proof.
  intros Hi. destruct (d !! i) as [x|] eqn:E.
  - unfold content. now rewrite (nth_lookup_Some _ _ _ _ E).
  - apply lookup_ge_None in E. lia.
Qed.

(** The kinetic and the potential matrix and the core Hamiltonian of a run
    that returns, in terms of what the driver assembled for them. *)
Lemma computeAOOneE_core_facts order ao (h : heap) ao' h' :
  let sh := shells (basisSet_ ao) in
  let NB := basis_size sh in
  computeAOOneE order ao h = Some (ao', h') ->
  Permutation order (seq 0 (nSQ_ ao)) -> nSQ_ ao = NB * NB ->
  exists cH eT eV dTA dVA dh,
    coreH ao' = coreH ao ++ [cH] /\
    driver_engine ao Operator_kinetic sh = Some eT /\
    driver_engine ao Operator_nuclear sh = Some eV /\
    block_ok eT sh 0 (fun _ _ => True) dTA /\
    block_ok eV sh 0 (fun _ _ => True) dVA /\
    h' !! kinetic ao' = Some (DBlock (sym_block NB dTA)) /\
    h' !! potential ao' = Some (DBlock (sym_block NB dVA)) /\
    h' !! cH = Some (DBlock dh) /\ length dh = NB * NB /\
    forall i, i < NB * NB ->
      content dh i = (content (sym_block NB dTA) i + content (sym_block NB dVA) i)%R.
Proof.
  intros sh NB E HP HnSQ.
  destruct (computeAOOneE_inv order ao h ao' h' E)
    as (mp & h1 & kn & h2 & pt & h3 & ov & kin & pot & dk & dp
        & E1 & E2 & E3 & _ & _ & Hkin & Hpot & Hdk & Hdp & _ & EO).
  fold sh in E1, E2, E3.
  destruct (OneEDriver_spec ao _ sh h1 kn h2 E2)
    as (eT & hAT & HeT & _ & _ & _ & _ & _ & HblkT).
  destruct (OneEDriver_spec ao _ sh h2 pt h3 E3)
    as (eV & hAV & HeV & _ & _ & _ & _ & _ & HblkV).
  destruct (HblkT 0 kin Hkin) as (dTA & _ & HokT & HdT).
  destruct (HblkV 0 pot Hpot) as (dVA & _ & HokV & HdV).
  fold NB in HdT, HdV.
  pose proof (OneEDriver_preserves ao _ sh h2 pt h3 E3 kin _ HdT) as HdT3.
  assert (dk = sym_block NB dTA) by congruence. subst dk.
  assert (dp = sym_block NB dVA) by congruence. subst dp.
  set (cH := fresh (dom h3)) in *.
  assert (Fc : h3 !! cH = None) by apply fresh_None.
  set (dh := core_sum _ _ order _) in EO.
  set (h6 := <[cH := DBlock dh]> h3) in EO.
  destruct (computeOrtho_frame _ _ ao' h' EO) as ((o1 & o2 & Eao) & _ & Hfr).
  exists cH, eT, eV, dTA, dVA, dh.
  rewrite Eao. cbn [coreH kinetic potential set_orthoType set_ortho set_oneE].
  split; [reflexivity|]. split; [exact HeT|]. split; [exact HeV|].
  split; [exact HokT|]. split; [exact HokV|].
  split; [apply Hfr; subst h6; rewrite lookup_insert_ne by congruence; exact Hdk|].
  split; [apply Hfr; subst h6; rewrite lookup_insert_ne by congruence; exact Hdp|].
  split; [apply Hfr; subst h6; apply lookup_insert_eq|].
  assert (Ldh : length dh = NB * NB).
  { subst dh. unfold core_sum. now rewrite length_writes, length_replicate. }
  split; [exact Ldh|].
  intros i Hi. apply content_core_sum.
  - apply (Permutation_in _ (Permutation_sym HP)). apply in_seq. lia.
  - rewrite length_replicate. lia.
Qed.

(** The orders in which the loop [H = T + V] may run are permutations of
    its iterations. *)
Lemma loop_order_Permutation n order :
  (order = seq 0 n \/
   exists T sched, omp_static T (omp_chunk n T) n = Some sched /\ interleave sched order) ->
  Permutation order (seq 0 n).
Proof.
  intros [->|(T & sched & HS & Hi)]; [reflexivity|].
  exact (omp_order_Permutation T (omp_chunk n T) n sched order HS Hi).
Qed.

(** C4.  On a ready basis [computeAOOneE] returns, the kinetic and the
    potential matrix are the symmetrised matrices the driver assembled
    from the engines' blocks, each of [NB^2] values, and the core
    Hamiltonian it appended is a buffer of [NB^2] values holding their
    element-wise sum: coreH[i] = kinetic[i] + potential[i] for every i in
    [0, NB^2).  This holds for the sequential order of the summation loop
    and for every interleaving of the chunks a conforming
    [schedule(static, 2*nSQ_/T)] deals to [T] threads, and the sequential
    run ends in the very same state. *)
Theorem computeAOOneE_core_hamiltonian order ao (h : heap) :
  let sh := shells (basisSet_ ao) in
  let NB := basis_size sh in
  oneE_ready ao ->
  (order = seq 0 (nSQ_ ao) \/
   exists T sched,
     omp_static T (omp_chunk (nSQ_ ao) T) (nSQ_ ao) = Some sched /\
     interleave sched order) ->
  exists ao' h' cH eT eV dTA dVA dk dp dh,
    computeAOOneE order ao h = Some (ao', h') /\
    computeAOOneE (seq 0 (nSQ_ ao)) ao h = Some (ao', h') /\
    coreH ao' = coreH ao ++ [cH] /\
    driver_engine ao Operator_kinetic sh = Some eT /\
    driver_engine ao Operator_nuclear sh = Some eV /\
    block_ok eT sh 0 (fun _ _ => True) dTA /\ dk = sym_block NB dTA /\
    block_ok eV sh 0 (fun _ _ => True) dVA /\ dp = sym_block NB dVA /\
    buffer h' (kinetic ao') = Some dk /\
    buffer h' (potential ao') = Some dp /\
    buffer h' cH = Some dh /\
    length dk = NB * NB /\ length dp = NB * NB /\ length dh = NB * NB /\
    forall i, i < NB * NB ->
      exists t v, dk !! i = Some t /\ dp !! i = Some v /\ dh !! i = Some (t + v)%R.
Proof.
  intros sh NB Hready Hord.
  pose proof (loop_order_Permutation (nSQ_ ao) order Hord) as HP.
  destruct (computeAOOneE_total order ao h Hready) as (ao' & h' & E).
  { intros i Hi. apply (Permutation_in _ HP) in Hi. apply in_seq in Hi. lia. }
  destruct Hready as (HNB & HnSQ & _).
  assert (HnSQ' : nSQ_ ao = NB * NB) by (subst NB sh; now rewrite HNB).
  destruct (computeAOOneE_core_facts order ao h ao' h' E HP HnSQ')
    as (cH & eT & eV & dTA & dVA & dh & EcH & HeT & HeV & HokT & HokV
        & Hk & Hp & Hc & Ldh & Hsum).
  fold sh NB in HeT, HeV, HokT, HokV, Hk, Hp, Ldh, Hsum.
  assert (Lk : length (sym_block NB dTA) = NB * NB)
    by (rewrite length_sym_block; apply HokT).
  assert (Lp : length (sym_block NB dVA) = NB * NB)
    by (rewrite length_sym_block; apply HokV).
  exists ao', h', cH, eT, eV, dTA, dVA, (sym_block NB dTA), (sym_block NB dVA), dh.
  split; [exact E|].
  split; [exact (computeAOOneE_perm order _ ao h _ HP E)|].
  split; [exact EcH|]. split; [exact HeT|]. split; [exact HeV|].
  split; [exact HokT|]. split; [reflexivity|].
  split; [exact HokV|]. split; [reflexivity|].
  unfold buffer. rewrite Hk, Hp, Hc.
  split; [reflexivity|]. split; [reflexivity|]. split; [reflexivity|].
  split; [exact Lk|]. split; [exact Lp|]. split; [exact Ldh|].
  intros i Hi.
  exists (content (sym_block NB dTA) i), (content (sym_block NB dVA) i).
  split; [apply lookup_content; lia|]. split; [apply lookup_content; lia|].
  rewrite <- (Hsum i Hi). apply lookup_content. lia.
Qed.

(** X15.  On a ready basis the core Hamiltonian [computeAOOneE] appends is
    a symmetric [NB] by [NB] matrix: the entries (i,j) and (j,i) both hold
    the sum of what the driver assembled at the lower-triangle position
    (i,j), j <= i, for the kinetic and for the nuclear operator.  This
    holds for the sequential and for the chunked order of the summation. *)
Theorem computeAOOneE_core_symmetric order ao (h : heap) :
  let sh := shells (basisSet_ ao) in
  let NB := basis_size sh in
  oneE_ready ao ->
  (order = seq 0 (nSQ_ ao) \/
   exists T sched,
     omp_static T (omp_chunk (nSQ_ ao) T) (nSQ_ ao) = Some sched /\
     interleave sched order) ->
  exists ao' h' cH eT eV dTA dVA dh,
    computeAOOneE order ao h = Some (ao', h') /\
    coreH ao' = coreH ao ++ [cH] /\
    driver_engine ao Operator_kinetic sh = Some eT /\
    driver_engine ao Operator_nuclear sh = Some eV /\
    block_ok eT sh 0 (fun _ _ => True) dTA /\
    block_ok eV sh 0 (fun _ _ => True) dVA /\
    buffer h' cH = Some dh /\ length dh = NB * NB /\
    forall i j, j <= i -> i < NB ->
      dh !! (i + j * NB) = Some (entry NB dTA i j + entry NB dVA i j)%R /\
      dh !! (j + i * NB) = Some (entry NB dTA i j + entry NB dVA i j)%R.
Proof.
  intros sh NB Hready Hord.
  pose proof (loop_order_Permutation (nSQ_ ao) order Hord) as HP.
  destruct (computeAOOneE_total order ao h Hready) as (ao' & h' & E).
  { intros i Hi. apply (Permutation_in _ HP) in Hi. apply in_seq in Hi. lia. }
  destruct Hready as (HNB & HnSQ & _).
  assert (HnSQ' : nSQ_ ao = NB * NB) by (subst NB sh; now rewrite HNB).
  destruct (computeAOOneE_core_facts order ao h ao' h' E HP HnSQ')
    as (cH & eT & eV & dTA & dVA & dh & EcH & HeT & HeV & HokT & HokV
        & Hk & Hp & Hc & Ldh & Hsum).
  fold sh NB in HeT, HeV, HokT, HokV, Hk, Hp, Ldh, Hsum.
  exists ao', h', cH, eT, eV, dTA, dVA, dh.
  split; [exact E|]. split; [exact EcH|]. split; [exact HeT|]. split; [exact HeV|].
  split; [exact HokT|]. split; [exact HokV|].
  unfold buffer. rewrite Hc. split; [reflexivity|]. split; [exact Ldh|].
  pose proof (proj1 HokT) as LT. pose proof (proj1 HokV) as LV. fold NB in LT, LV.
  assert (Hent : forall r c, r < NB -> c < NB ->
            dh !! (r + c * NB)
            = Some (entry NB (sym_block NB dTA) r c + entry NB (sym_block NB dVA) r c)%R).
  { intros r c Hr Hc'. rewrite lookup_content by nia. f_equal. apply Hsum. nia. }
  intros i j Hji Hi. split.
  - rewrite (Hent i j) by lia. rewrite !entry_sym_block by lia.
    destruct (decide (i < j)); [lia | reflexivity].
  - rewrite (Hent j i) by lia. rewrite !entry_sym_block by lia.
    destruct (decide (j < i)) as [|Hge]; [reflexivity|].
    now replace j with i by lia.
Qed.

(** X16.  A call of [computeAOOneE] that returns leaves every block that
    was live before as it was, and the buffers of the overlap, the
    kinetic and the potential matrix, the core Hamiltonian and the two
    transforms are six different blocks, none of which was live before. *)
Theorem computeAOOneE_storage order ao (h : heap) ao' h' :
  computeAOOneE order ao h = Some (ao', h') ->
  (forall p b, h !! p = Some b -> h' !! p = Some b) /\
  exists cH,
    last (coreH ao') = Some cH /\
    NoDup [overlap ao'; kinetic ao'; potential ao'; cH; ortho1 ao'; ortho2 ao'] /\
    forall p, In p [overlap ao'; kinetic ao'; potential ao'; cH; ortho1 ao'; ortho2 ao'] ->
              h !! p = None.
Proof.
  intros E.
  destruct (computeAOOneE_inv order ao h ao' h' E)
    as (mp & h1 & kn & h2 & pt & h3 & ov & kin & pot & dk & dp
        & E1 & E2 & E3 & Hov & _ & Hkin & Hpot & Hdk & Hdp & _ & EO).
  set (sh := shells (basisSet_ ao)) in *.
  destruct (OneEDriver_sym_buffer ao _ _ h mp h1 0 ov E1 Hov) as (Fov & dS & HdS & _).
  destruct (OneEDriver_sym_buffer ao _ _ h1 kn h2 0 kin E2 Hkin) as (Fkin & _).
  destruct (OneEDriver_sym_buffer ao _ _ h2 pt h3 0 pot E3 Hpot) as (Fpot & _).
  pose proof (OneEDriver_preserves ao _ _ h mp h1 E1) as P1.
  pose proof (OneEDriver_preserves ao _ _ h1 kn h2 E2) as P2.
  pose proof (OneEDriver_preserves ao _ _ h2 pt h3 E3) as P3.
  set (cH := fresh (dom h3)) in *.
  assert (Fc : h3 !! cH = None) by apply fresh_None.
  set (h6 := <[cH := _]> h3) in EO.
  assert (P6 : forall p b, h3 !! p = Some b -> h6 !! p = Some b).
  { intros p b Hp. subst h6. rewrite lookup_insert_ne by congruence. exact Hp. }
  destruct (computeOrtho_frame _ _ ao' h' EO) as ((o1 & o2 & Eao) & [F1 F2] & Hfr).
  pose proof (computeOrtho_distinct _ _ ao' h' EO) as N12.
  rewrite Eao in F1, F2, N12 |- *.
  cbn [overlap kinetic potential coreH ortho1 ortho2
       set_orthoType set_ortho set_oneE] in *.
  assert (Hh : forall p b, h !! p = Some b -> h6 !! p = Some b).
  { intros p b Hp. apply P6, P3, P2, P1, Hp. }
  assert (None_h : forall p, h6 !! p = None -> h !! p = None).
  { intros p Hp. destruct (h !! p) as [b|] eqn:Eb; [|reflexivity].
    rewrite (Hh p b Eb) in Hp. discriminate. }
  assert (L6ov : h6 !! ov = Some (DBlock dS)) by (apply P6, P3, P2, HdS).
  assert (L6kin : h6 !! kin = Some (DBlock dk)) by (apply P6, Hdk).
  assert (L6pot : h6 !! pot = Some (DBlock dp)) by (apply P6, Hdp).
  assert (L6c : h6 !! cH <> None) by (subst h6; rewrite lookup_insert_eq; discriminate).
  assert (L2ov : h2 !! ov = Some (DBlock dS)) by (apply P2, HdS).
  assert (L2kin : h2 !! kin <> None).
  { destruct (OneEDriver_live ao _ sh h1 kn h2 0 kin E2 Hkin) as (d & Hd & _).
    rewrite Hd. discriminate. }
  split; [intros p b Hp; apply Hfr, Hh, Hp|].
  exists cH. split; [apply last_snoc|]. split.
  - assert (L3ov : h3 !! ov = Some (DBlock dS)) by (apply P3, L2ov).
    rewrite !NoDup_cons, !not_elem_of_cons.
    repeat split; try apply not_elem_of_nil; try apply NoDup_nil_2; congruence.
  - intros p Hp. simpl in Hp.
    destruct Hp as [<-|[<-|[<-|[<-|[<-|[<-|[]]]]]]].
    + exact Fov.
    + destruct (h !! kin) as [b|] eqn:Eb; [|reflexivity].
      rewrite (P1 kin b Eb) in Fkin. discriminate.
    + destruct (h !! pot) as [b|] eqn:Eb; [|reflexivity].
      rewrite (P2 pot b (P1 pot b Eb)) in Fpot. discriminate.
    + destruct (h !! cH) as [b|] eqn:Eb; [|reflexivity].
      rewrite (P3 cH b (P2 cH b (P1 cH b Eb))) in Fc. discriminate.
    + now apply None_h.
    + now apply None_h.
Qed.

End OneEComposition.

Lemma toy_order_in_range : forall i, In i toy_order -> i < nSQ_ ao_toy.
Proof. intros i Hi. simpl in Hi. cbn. intuition lia. Qed.

Lemma computeAOOneE_transforms_of_overlap_witness :
  exists ao' h' S,
    @computeAOOneE sevens_alloc reference_backend toy_engine toy_order ao_toy ∅
    = Some (ao', h') /\
    orthoType_ ao' = CHOLESKY /\
    buffer h' (overlap ao') = Some S /\ length S = 4 /\
    buffer h' (ortho2 ao') = Some (@cholesky_ortho2 reference_backend 2 S).
Proof.
  destruct (@computeAOOneE_transforms_of_overlap sevens_alloc reference_backend
              toy_engine toy_order ao_toy ∅ toy_ready toy_order_in_range)
    as (ao' & h' & S & E & T & BS & LS & _ & _ & B2).
  exists ao', h', S.
  split; [exact E|]. split; [exact T|]. split; [exact BS|].
  split; [exact LS | exact B2].
Defined.

(** The three driver calls of [computeAOOneE] on the basis of two
    unscreened shells: the kinetic and the potential matrix. *)
Lemma pair_driver_runs :
  exists mp h1 kn h2 pt h3 k p,
    @OneEDriver sevens_alloc pair_engine ao_pair Operator_emultipole3 pair_shells ∅
    = Some (mp, h1) /\
    @OneEDriver sevens_alloc pair_engine ao_pair Operator_kinetic pair_shells h1
    = Some (kn, h2) /\
    @OneEDriver sevens_alloc pair_engine ao_pair Operator_nuclear pair_shells h2
    = Some (pt, h3) /\
    kn = [k] /\ pt = [p] /\
    h3 !! k = Some (DBlock [2; 1; 1; 2]%R) /\
    h3 !! p = Some (DBlock [-5; -2; -2; -5]%R).
Proof.
  eexists _, _, _, _, _, _, _, _.
  split; [vm_compute; reflexivity|].
  split; [vm_compute; reflexivity|].
  split; [vm_compute; reflexivity|].
  split; [reflexivity|]. split; [reflexivity|].
  split; vm_compute; reflexivity.
Qed.

(** The kinetic and the potential matrix [computeAOOneE] records on that
    basis. *)
Lemma pair_kinetic_potential order ao' h' :
  @computeAOOneE sevens_alloc reference_backend pair_engine order ao_pair ∅
  = Some (ao', h') ->
  h' !! kinetic ao' = Some (DBlock [2; 1; 1; 2]%R) /\
  h' !! potential ao' = Some (DBlock [-5; -2; -2; -5]%R).
Proof.
  intros E.
  destruct (@computeAOOneE_spec sevens_alloc reference_backend pair_engine
              order ao_pair ∅ ao' h' E)
    as (mp & h1 & kn & h2 & pt & h3 & cH & dk & dp & E1 & E2 & E3 & _ & Hkn & Hpt
        & _ & _ & K3 & P3 & _ & _ & Hfr).
  destruct pair_driver_runs
    as (mp0 & g1 & kn0 & g2 & pt0 & g3 & k & p & R1 & R2 & R3 & -> & -> & Gk & Gp).
  change (shells (basisSet_ ao_pair)) with pair_shells in E1, E2, E3.
  rewrite R1 in E1. inversion E1; subst mp0 g1. clear E1.
  rewrite R2 in E2. inversion E2; subst kn g2. clear E2.
  rewrite R3 in E3. inversion E3; subst pt g3. clear E3.
  cbn [lookup list_lookup] in Hkn, Hpt.
  inversion Hkn as [Ek]. inversion Hpt as [Ep].
  rewrite <- Ek. rewrite <- Ep.
  split; apply Hfr; [exact Gk | exact Gp].
Qed.

Lemma pair_order_loop :
  toy_order = seq 0 (nSQ_ ao_pair) \/
  exists T sched,
    omp_static T (omp_chunk (nSQ_ ao_pair) T) (nSQ_ ao_pair) = Some sched /\
    interleave sched toy_order.
Proof.
  right. exists 4, [[0; 1]; [2; 3]; []; []]. exact toy_order_interleaves.
Qed.

(** A buffer of four values, from its entries. *)
Lemma list4_lookup (d : list R) a b c e :
  length d = 4 -> d !! 0 = Some a -> d !! 1 = Some b -> d !! 2 = Some c ->
  d !! 3 = Some e -> d = [a; b; c; e].
Proof.
  intros Hl H0 H1 H2 H3.
  destruct d as [|x0 [|x1 [|x2 [|x3 [|x4 d]]]]]; simpl in Hl; try lia.
  simpl in *. congruence.
Qed.

Lemma computeAOOneE_core_hamiltonian_witness :
  exists ao' h' cH dk dp dh,
    @computeAOOneE sevens_alloc reference_backend pair_engine toy_order ao_pair ∅
    = Some (ao', h') /\
    @computeAOOneE sevens_alloc reference_backend pair_engine (seq 0 4) ao_pair ∅
    = Some (ao', h') /\
    coreH ao' = [cH] /\
    buffer h' (kinetic ao') = Some dk /\
    buffer h' (potential ao') = Some dp /\
    buffer h' cH = Some dh /\
    dk = [2; 1; 1; 2]%R /\ dp = [-5; -2; -2; -5]%R /\
    dh = [2 + -5; 1 + -2; 1 + -2; 2 + -5]%R.
Proof.
  destruct (@computeAOOneE_core_hamiltonian sevens_alloc reference_backend pair_engine
              toy_order ao_pair ∅ pair_ready pair_order_loop)
    as (ao' & h' & cH & eT & eV & dTA & dVA & dk & dp & dh & E & Eseq & EcH & _ & _
        & _ & _ & _ & _ & Bk & Bp & Bh & _ & _ & Lh & Hsum).
  destruct (pair_kinetic_potential toy_order ao' h' E) as [Ck Cp].
  assert (Ek : dk = [2; 1; 1; 2]%R).
  { unfold buffer in Bk. rewrite Ck in Bk. congruence. }
  assert (Ep : dp = [-5; -2; -2; -5]%R).
  { unfold buffer in Bp. rewrite Cp in Bp. congruence. }
  exists ao', h', cH, dk, dp, dh.
  split; [exact E|]. split; [exact Eseq|]. split; [exact EcH|].
  split; [exact Bk|]. split; [exact Bp|]. split; [exact Bh|].
  split; [exact Ek|]. split; [exact Ep|].
  change (basis_size (shells (basisSet_ ao_pair))) with 2 in Lh, Hsum.
  subst dk dp.
  apply list4_lookup; [exact Lh|..].
  - destruct (Hsum 0 ltac:(lia)) as (t & v & Ht & Hv & Hd).
    cbn in Ht, Hv. congruence.
  - destruct (Hsum 1 ltac:(lia)) as (t & v & Ht & Hv & Hd).
    cbn in Ht, Hv. congruence.
  - destruct (Hsum 2 ltac:(lia)) as (t & v & Ht & Hv & Hd).
    cbn in Ht, Hv. congruence.
  - destruct (Hsum 3 ltac:(lia)) as (t & v & Ht & Hv & Hd).
    cbn in Ht, Hv. congruence.
Defined.

Lemma computeAOOneE_core_symmetric_witness :
  exists ao' h' cH dh,
    @computeAOOneE sevens_alloc reference_backend pair_engine toy_order ao_pair ∅
    = Some (ao', h') /\
    coreH ao' = [cH] /\ buffer h' cH = Some dh /\ length dh = 4 /\
    dh !! 1 = Some (1 + -2)%R /\ dh !! 2 = Some (1 + -2)%R.
Proof.
  destruct (@computeAOOneE_core_symmetric sevens_alloc reference_backend pair_engine
              toy_order ao_pair ∅ pair_ready pair_order_loop)
    as (ao' & h' & cH & eT & eV & dTA & dVA & dh & E & EcH & HeT & HeV
        & HokT & HokV & Bh & Lh & Hsym).
  change (shells (basisSet_ ao_pair)) with pair_shells in HeT, HeV, HokT, HokV, Lh, Hsym.
  rewrite pair_engine_is in HeT, HeV.
  inversion HeT; subst eT. inversion HeV; subst eV.
  change (basis_size pair_shells) with 2 in Lh, Hsym.
  assert (VT : entry 2 dTA 1 0 = 1%R).
  { exact (proj1 (proj2 HokT) 1 0 s2_shell s_shell (fun _ => 1%R) 0 0 I
             ltac:(lia) eq_refl eq_refl
             (ex_intro _ _ (ex_intro _ _ eq_refl)) eq_refl
             ltac:(cbn; lia) ltac:(cbn; lia)). }
  assert (VV : entry 2 dVA 1 0 = (-2)%R).
  { exact (proj1 (proj2 HokV) 1 0 s2_shell s_shell (fun _ => (-2)%R) 0 0 I
             ltac:(lia) eq_refl eq_refl
             (ex_intro _ _ (ex_intro _ _ eq_refl)) eq_refl
             ltac:(cbn; lia) ltac:(cbn; lia)). }
  destruct (Hsym 1 0 ltac:(lia) ltac:(lia)) as [H10 H01].
  rewrite VT, VV in H10, H01.
  exists ao', h', cH, dh.
  split; [exact E|]. split; [exact EcH|]. split; [exact Bh|]. split; [exact Lh|].
  split; [exact H10 | exact H01].
Defined.

Lemma computeAOOneE_storage_witness :
  exists ao' h' cH,
    @computeAOOneE sevens_alloc reference_backend toy_engine toy_order ao_toy ∅
    = Some (ao', h') /\
    last (coreH ao') = Some cH /\
    NoDup [overlap ao'; kinetic ao'; potential ao'; cH; ortho1 ao'; ortho2 ao'].
Proof.
  destruct (@computeAOOneE_total sevens_alloc reference_backend toy_engine
              toy_order ao_toy ∅ toy_ready toy_order_in_range) as (ao' & h' & E).
  destruct (@computeAOOneE_storage sevens_alloc reference_backend toy_engine
              toy_order ao_toy ∅ ao' h' E) as (_ & cH & Hl & Hnd & _).
  exists ao', h', cH. split; [exact E|]. split; [exact Hl | exact Hnd].
Defined.

(** ** Calling [computeOrtho] again *)

Section OrthoAgain.
Context `{Allocator} `{LinAlg}.

(** X17.  A second call of [computeOrtho] recomputes the same pair into
    two further blocks: the new [ortho1] and [ortho2] hold what the first
    call left, at different addresses, and the blocks of the first pair
    stay live with their contents although the object does not point to
    them any more. *)
Theorem computeOrtho_again ao (h : heap) S :
  let n := nBasis (basisSet_ ao) in
  buffer h (overlap ao) = Some S -> nSQ_ ao = n * n -> length S = n * n ->
  exists ao1 h1 ao2 h2 d1 d2,
    computeOrtho ao h = Some (ao1, h1) /\
    computeOrtho ao1 h1 = Some (ao2, h2) /\
    buffer h1 (ortho1 ao1) = Some d1 /\ buffer h1 (ortho2 ao1) = Some d2 /\
    buffer h2 (ortho1 ao2) = Some d1 /\ buffer h2 (ortho2 ao2) = Some d2 /\
    buffer h2 (ortho1 ao1) = Some d1 /\ buffer h2 (ortho2 ao1) = Some d2 /\
    ortho1 ao2 <> ortho1 ao1 /\ ortho1 ao2 <> ortho2 ao1 /\
    ortho2 ao2 <> ortho1 ao1 /\ ortho2 ao2 <> ortho2 ao1.
Proof.
  intros n HS HnSQ Hlen.
  destruct (computeOrtho_result ao h S HS HnSQ Hlen) as (ao1 & h1 & E1 & _ & B1 & B2).
  destruct (computeOrtho_frame ao h ao1 h1 E1) as ((o1 & o2 & Eao) & _ & Hfr1).
  assert (HS1 : buffer h1 (overlap ao1) = Some S).
  { rewrite Eao. cbn [overlap set_orthoType set_ortho]. unfold buffer in *.
    destruct (h !! overlap ao) as [[d|z]|] eqn:Ho; try discriminate.
    rewrite (Hfr1 _ _ Ho). exact HS. }
  assert (Hn1 : nBasis (basisSet_ ao1) = n) by now rewrite Eao.
  assert (HnSQ1 : nSQ_ ao1 = nBasis (basisSet_ ao1) * nBasis (basisSet_ ao1)).
  { rewrite Hn1. now rewrite Eao. }
  destruct (computeOrtho_result ao1 h1 S HS1 HnSQ1 ltac:(now rewrite Hn1))
    as (ao2 & h2 & E2 & _ & C1 & C2).
  rewrite Hn1 in C1, C2. fold n in B1, B2.
  destruct (computeOrtho_frame ao1 h1 ao2 h2 E2) as (_ & [F1 F2] & Hfr2).
  assert (K : forall p d, buffer h1 p = Some d -> buffer h2 p = Some d).
  { intros p d Hp. unfold buffer in *.
    destruct (h1 !! p) as [[d0|z]|] eqn:Hq; try discriminate.
    now rewrite (Hfr2 _ _ Hq). }
  exists ao1, h1, ao2, h2, (cholesky_ortho1 n S), (cholesky_ortho2 n S).
  split; [exact E1|]. split; [exact E2|]. split; [exact B1|]. split; [exact B2|].
  split; [exact C1|]. split; [exact C2|].
  split; [now apply K|]. split; [now apply K|].
  unfold buffer in B1, B2.
  repeat split; intros Eq; rewrite Eq in *;
    first [rewrite F1 in B1 | rewrite F1 in B2 | rewrite F2 in B1 | rewrite F2 in B2];
    discriminate.
Qed.

End OrthoAgain.

Lemma computeOrtho_again_witness :
  exists ao1 h1 ao2 h2 d1,
    @computeOrtho sevens_alloc reference_backend ao_half heap_half = Some (ao1, h1) /\
    @computeOrtho sevens_alloc reference_backend ao1 h1 = Some (ao2, h2) /\
    buffer h2 (ortho1 ao2) = Some d1 /\ buffer h2 (ortho1 ao1) = Some d1 /\
    ortho1 ao2 <> ortho1 ao1.
Proof.
  destruct (@computeOrtho_again sevens_alloc reference_backend ao_half heap_half S_half
              buffer_heap_half eq_refl eq_refl)
    as (ao1 & h1 & ao2 & h2 & d1 & d2 & E1 & E2 & _ & _ & C1 & _ & K1 & _ & N & _).
  exists ao1, h1, ao2, h2, d1.
  split; [exact E1|]. split; [exact E2|]. split; [exact C1|].
  split; [exact K1 | exact N].
Defined.

(** ** The names of a Hartree-Fock reference *)

Lemma string_app_inv_head (s t t' : string) : s +:+ t = s +:+ t' -> t = t'.
Proof.
  induction s as [|c s IH]; simpl; intros E; [exact E|].
  apply IH. now inversion E.
Qed.

(** X18.  The short name the constructor appends tells the kind of
    reference apart, and nothing else: two references whose base classes
    left the same short name end up with the same short name exactly when
    both have one component and agree on being closed shell, or both have
    another number of components.  With more than one component [iCS]
    plays no role. *)
Theorem HartreeFock_short_name_tells (b b' : Reference) :
  refShortName_ b = refShortName_ b' ->
  (refShortName_ (HartreeFock b) = refShortName_ (HartreeFock b') <->
   (nC b = 1 /\ nC b' = 1 /\ iCS b = iCS b') \/ (nC b <> 1 /\ nC b' <> 1)).
Proof.
  intros Eb. unfold HartreeFock.
  destruct (decide (nC b = 1)) as [H1|H1], (decide (nC b' = 1)) as [H1'|H1'];
    destruct (iCS b), (iCS b'); cbn [refShortName_]; rewrite Eb;
    (split;
     [ intros E; apply string_app_inv_head in E; try discriminate; tauto
     | intros [(Hb & Hb' & Hcs)|[Hn Hn']]; try reflexivity; try discriminate;
       contradiction ]).
Qed.

Lemma HartreeFock_short_name_tells_witness :
  refShortName_ (HartreeFock ref_restricted) = "RRHF" /\
  refShortName_ (HartreeFock ref_unrestricted) = "RUHF" /\
  refShortName_ (HartreeFock ref_restricted)
    <> refShortName_ (HartreeFock ref_unrestricted) /\
  refShortName_ (HartreeFock (ref_two_component true)) = "RGHF" /\
  refShortName_ (HartreeFock (ref_two_component true))
    = refShortName_ (HartreeFock (ref_two_component false)).
Proof.
  split; [reflexivity|]. split; [reflexivity|]. split; [|split; [reflexivity|]].
  - intros E.
    destruct (proj1 (HartreeFock_short_name_tells ref_restricted ref_unrestricted
                       eq_refl) E) as [(_ & _ & Hcs)|[Hn _]].
    + discriminate Hcs.
    + apply Hn. reflexivity.
  - apply (proj2 (HartreeFock_short_name_tells (ref_two_component true)
                    (ref_two_component false) eq_refl)).
    right. split; discriminate.
Defined.

(** ** A recorded size that is too small *)

Section OrthoSize.
Context `{Allocator} `{LinAlg}.

(** X19.  If the recorded [nSQ_] is smaller than [nBasis^2],
    [computeOrtho] faults although the overlap buffer holds [nSQ_] values:
    the buffers it allocates have [nSQ_] values, and the scratch copy is
    handed to [Cholesky] as an [nBasis] by [nBasis] matrix. *)
Theorem computeOrtho_small_nSQ ao (h : heap) S :
  let n := nBasis (basisSet_ ao) in
  buffer h (overlap ao) = Some S -> nSQ_ ao <= length S -> nSQ_ ao < n * n ->
  computeOrtho ao h = None.
Proof.
  intros n HS Hlen Hsmall.
  assert (HS' : h !! overlap ao = Some (DBlock S)).
  { unfold buffer in HS. destruct (h !! overlap ao) as [[d|z]|]; congruence. }
  unfold computeOrtho. set (m := nSQ_ ao) in *.
  rewrite (bind_Some _ _ _ _ _ (malloc_double_eq m h)).
  set (o1 := fresh (dom h)).
  set (h1 := <[o1 := DBlock (map (uninit o1) (seq 0 m))]> h).
  rewrite (bind_Some _ _ _ _ _ (malloc_double_eq m h1)).
  set (o2 := fresh (dom h1)).
  set (h2 := <[o2 := DBlock (map (uninit o2) (seq 0 m))]> h1).
  assert (F1 : h !! o1 = None) by apply fresh_None.
  assert (F2 : h1 !! o2 = None) by apply fresh_None.
  assert (N12 : o1 <> o2).
  { intros Eq. subst h1. rewrite <- Eq, lookup_insert_eq in F2. discriminate. }
  cbn [ortho1 ortho2 set_ortho nSQ_ overlap orthoType_ set_orthoType basisSet_].
  fold m.
  rewrite (bind_Some _ _ _ _ _ (fill_n_eq o1 m 0%R _ h2
     ltac:(subst h2 h1; heap_lookup) ltac:(now rewrite length_map, length_seq))).
  set (h3 := <[o1 := _]> h2).
  rewrite (bind_Some _ _ _ _ _ (fill_n_eq o2 m 0%R _ h3
     ltac:(subst h3 h2 h1; heap_lookup) ltac:(now rewrite length_map, length_seq))).
  set (h4 := <[o2 := _]> h3).
  rewrite (bind_Some _ _ _ _ _ (malloc_double_eq m h4)).
  set (SCR1 := fresh (dom h4)).
  set (h5 := <[SCR1 := _]> h4).
  assert (F3 : h4 !! SCR1 = None) by apply fresh_None.
  assert (NS1 : o1 <> SCR1).
  { intros Eq. subst h4 h3. rewrite <- Eq in F3.
    rewrite lookup_insert_ne, lookup_insert_eq in F3 by congruence. discriminate. }
  assert (NS2 : o2 <> SCR1).
  { intros Eq. subst h4. rewrite <- Eq, lookup_insert_eq in F3. discriminate. }
  assert (NO1 : overlap ao <> o1) by (intros Eq; rewrite Eq in HS'; congruence).
  assert (NO2 : overlap ao <> o2).
  { intros Eq. subst h1. rewrite <- Eq, lookup_insert_ne in F2 by congruence.
    congruence. }
  assert (NSO : overlap ao <> SCR1).
  { intros Eq. subst h4 h3 h2 h1. rewrite <- Eq in F3.
    rewrite !lookup_insert_ne in F3 by congruence. congruence. }
  rewrite (bind_Some _ _ _ _ _ (copy_n_eq (overlap ao) SCR1 m S _ h5
     ltac:(subst h5 h4 h3 h2 h1; heap_lookup) ltac:(subst h5; heap_lookup)
     NSO ltac:(now rewrite length_map, length_seq) Hlen)).
  set (h6 := <[SCR1 := _]> h5).
  apply bind_None. unfold computeOrtho_cholesky.
  cbn [ortho1 ortho2 set_ortho set_orthoType basisSet_]. fold n.
  apply bind_None.
  apply (Cholesky_short "L" n SCR1 n (take m S) h6); [subst h6; heap_lookup|].
  apply bool_decide_eq_false. rewrite length_take. lia.
Qed.

End OrthoSize.

Lemma computeOrtho_small_nSQ_witness :
  @computeOrtho sevens_alloc reference_backend ao_small heap_half = None.
Proof.
  exact (@computeOrtho_small_nSQ sevens_alloc reference_backend ao_small heap_half S_half
           buffer_heap_half
           (ltac:(cbn [nSQ_ ao_small length S_half]; lia)
              : nSQ_ ao_small <= length S_half)
           (ltac:(cbn [nSQ_ ao_small nBasis basisSet_ ao_half Nat.mul Nat.add]; lia)
              : nSQ_ ao_small < nBasis (basisSet_ ao_small) * nBasis (basisSet_ ao_small))).
Defined.
